(** * Verification of [scripts/setup-test-users.cjs]

    A shallow embedding of the test-user seeding script: the [.env] loader,
    the Firebase Admin bootstrap, the seeding loop over [testUsers], the
    credential report and the top-level [main], followed by the properties
    of the script that its specification states. *)

From Stdlib Require Import String Ascii.
From stdpp Require Import base option list gmap fin_maps.

Open Scope N_scope.
Open Scope list_scope.

(** ** JavaScript strings

    A JavaScript string is a sequence of UTF-16 code units.  Literals of the
    source that are plain ASCII are written [js "..."]; the emoji of the
    console messages are given by their code units. *)

Abbreviation jsstring := (list N).

Definition js (s : string) : jsstring :=
  map N_of_ascii (list_ascii_of_string s).

(** [WhiteSpace] and [LineTerminator] of ECMAScript, the code units that
    [String.prototype.trim] strips. *)
Definition isWhiteSpace (c : N) : bool :=
  (c =? 9) || (c =? 10) || (c =? 11) || (c =? 12) || (c =? 13) || (c =? 32)
  || (c =? 160) || (c =? 5760) || ((8192 <=? c) && (c <=? 8202))
  || (c =? 8232) || (c =? 8233) || (c =? 8239) || (c =? 8287)
  || (c =? 12288) || (c =? 65279).

Fixpoint trimStart (s : jsstring) : jsstring :=
  match s with
  | [] => []
  | c :: s' => if isWhiteSpace c then trimStart s' else s
  end.

Definition trimEnd (s : jsstring) : jsstring := rev (trimStart (rev s)).

Definition trim (s : jsstring) : jsstring := trimEnd (trimStart s).

(** [s.split(sep)] for a separator of one code unit: never the empty
    array, [[""]] on the empty string. *)
Fixpoint split (sep : N) (s : jsstring) : list jsstring :=
  match s with
  | [] => [[]]
  | c :: s' =>
      if c =? sep then [] :: split sep s'
      else match split sep s' with
           | [] => [[c]]
           | p :: ps => (c :: p) :: ps
           end
  end.

(** [parts.join(sep)]. *)
Fixpoint join (sep : N) (parts : list jsstring) : jsstring :=
  match parts with
  | [] => []
  | [p] => p
  | p :: ps => p ++ sep :: join sep ps
  end.

(** [s.startsWith(c)] for a pattern of one code unit. *)
Definition startsWith (s : jsstring) (c : N) : bool :=
  match s with
  | c' :: _ => c' =? c
  | [] => false
  end.

(** Truthiness of a string: the empty string is the only falsy one. *)
Definition truthy (s : jsstring) : bool :=
  match s with [] => false | _ => true end.

Definition LF : N := 10.
Definition EQUALS : N := 61.
Definition HASH : N := 35.
Definition BACKSLASH : N := 92.

(** ** Plain objects used as string maps

    [envVars] is created by [{}], so it inherits the accessor [__proto__]
    of [Object.prototype]: an assignment [o["__proto__"] = v] of a string
    [v] runs that setter, which ignores values that are neither objects nor
    null, and creates no own property.  Every other key gives an own
    property. *)
Definition proto_key : jsstring := js "__proto__".

Definition obj_set (o : gmap jsstring jsstring) (k v : jsstring)
  : gmap jsstring jsstring :=
  if decide (k = proto_key) then o else <[k := v]> o.

(** ** [process.env]

    [process.env] is not a plain object: it shows the environment of the
    process.  An assignment [process.env[name] = value] hands the name and
    the value to [setenv] as UTF-8 C strings (POSIX is assumed).  On the way
    a surrogate without its partner becomes U+FFFD and the string ends at
    its first NUL; [setenv] refuses the empty name and a name that holds
    [=], and the refusal is silent.  A read gives back what the environment
    holds. *)
Definition NUL : N := 0.
Definition REPLACEMENT_CHARACTER : N := 65533.

Definition isHighSurrogate (c : N) : bool := (55296 <=? c) && (c <=? 56319).
Definition isLowSurrogate (c : N) : bool := (56320 <=? c) && (c <=? 57343).

(** The string after its conversion to UTF-8 and back. *)
Fixpoint toWellFormed (s : jsstring) : jsstring :=
  match s with
  | c1 :: s' =>
      if isHighSurrogate c1 then
        match s' with
        | c2 :: s'' =>
            if isLowSurrogate c2 then c1 :: c2 :: toWellFormed s''
            else REPLACEMENT_CHARACTER :: toWellFormed s'
        | [] => [REPLACEMENT_CHARACTER]
        end
      else if isLowSurrogate c1 then REPLACEMENT_CHARACTER :: toWellFormed s'
      else c1 :: toWellFormed s'
  | [] => []
  end.

(** The string up to its first NUL. *)
Fixpoint cstring (s : jsstring) : jsstring :=
  match s with
  | c :: s' => if c =? NUL then [] else c :: cstring s'
  | [] => []
  end.

(** A name or a value as the environment holds it. *)
Definition envString (s : jsstring) : jsstring := cstring (toWellFormed s).

(** [process.env[name] = value]. *)
Definition env_set (penv : gmap jsstring jsstring) (name value : jsstring)
  : gmap jsstring jsstring :=
  if decide (envString name = [] ∨ EQUALS ∈ envString name) then penv
  else <[envString name := envString value]> penv.

(** [Object.assign(process.env, source)]: the own properties of [source]
    are assigned on [process.env] one after the other, in the order [keys]
    in which the engine lists them. *)
Definition Object_assign (keys : list jsstring)
    (target source : gmap jsstring jsstring) : gmap jsstring jsstring :=
  fold_left (λ penv k, match source !! k with
                       | Some v => env_set penv k v
                       | None => penv
                       end) keys target.

(** ** The [.env] loader: the body of [forEach] and the parse of a content *)

Definition loadEnvLine (envVars : gmap jsstring jsstring) (line : jsstring)
  : gmap jsstring jsstring :=
  match split EQUALS line with
  | [] => envVars
  | key :: valueParts =>
      if truthy key && (0 <? N.of_nat (length valueParts)) then
        let value := trim (join EQUALS valueParts) in
        if truthy value && negb (startsWith key HASH) then
          obj_set envVars (trim key) value
        else envVars
      else envVars
  end.

Definition parseEnvContent (envContent : jsstring) : gmap jsstring jsstring :=
  fold_left loadEnvLine (split LF envContent) ∅.

(** ** Documents and the document database

    A document is an object with string, boolean and timestamp fields; a
    collection maps document ids to documents; the database maps collection
    names to collections. *)

Inductive JsValue :=
| VStr (s : jsstring)
| VBool (b : bool)
| VDate (ms : N).

#[global] Instance JsValue_eq_dec : EqDecision JsValue.
Proof. solve_decision. Defined.

Abbreviation Document := (gmap jsstring JsValue).
Abbreviation Collection := (gmap jsstring Document).
Abbreviation Firestore := (gmap jsstring Collection).

(** [db.collection(name)]: a collection that was never written is empty. *)
Definition collection (db : Firestore) (name : jsstring) : Collection :=
  default ∅ (db !! name).

(** [db.collection(name).doc(id).set(data)]: create or replace. *)
Definition doc_set (db : Firestore) (name id : jsstring) (data : Document)
  : Firestore :=
  <[name := <[id := data]> (collection db name)]> db.

(** [collection.where(field, '==', value).get()]: the documents of the
    collection whose field equals the value. *)
Definition where_eq (field : jsstring) (value : JsValue) (c : Collection)
  : Collection :=
  filter (λ kd, kd.2 !! field = Some value) c.

(** [snapshot.empty]. *)
Definition snapshot_empty (snapshot : Collection) : bool :=
  bool_decide (snapshot = ∅).

(** ** Errors, external calls and the world *)

(** What the collaborators throw are [Error] objects; the handlers of the
    script print their [message]. *)
Record JsError := mkError { message : jsstring }.

(** The settings file at the fixed path: absent ([existsSync] is false),
    present with the content [readFileSync] decodes, or present but
    unreadable ([readFileSync] throws). *)
Inductive FileState :=
| Missing
| Readable (content : jsstring)
| Unreadable (e : JsError).

(** The calls the seeder makes on its collaborators (the database and the
    hashing library); the world keeps the list of the calls made, each with
    whether it returned ([true]) or threw ([false]). *)
Inductive Call :=
| CallGet (coll field : jsstring) (value : JsValue)
| CallHash (password : jsstring) (rounds : N)
| CallSet (coll id : jsstring) (data : Document).

Inductive Stream := Stdout | Stderr.

(** The state a run of the script can observe or change.  [process_env]
    is what [process.env] shows, the environment of the process.  [faults]
    plans the outcome of the coming awaited calls, one entry per call:
    [Some e] makes the call throw [e] without any effect, [None] lets it
    succeed, and so does an exhausted plan.  [salts] and [dates] are the
    coming values of the salt generator and of [new Date()] (0 once
    exhausted). *)
Record World := mkWorld {
  envFile : FileState;
  process_env : gmap jsstring jsstring;
  firestore : Firestore;
  faults : list (option JsError);
  salts : list N;
  dates : list N;
  calls : list (Call * bool);
  console : list (Stream * jsstring)
}.

Definition set_process_env (f : gmap jsstring jsstring → gmap jsstring jsstring)
  (w : World) : World :=
  mkWorld (envFile w) (f (process_env w)) (firestore w) (faults w) (salts w)
          (dates w) (calls w) (console w).
Definition set_firestore (f : Firestore → Firestore) (w : World) : World :=
  mkWorld (envFile w) (process_env w) (f (firestore w)) (faults w) (salts w)
          (dates w) (calls w) (console w).
Definition set_faults (fs : list (option JsError)) (w : World) : World :=
  mkWorld (envFile w) (process_env w) (firestore w) fs (salts w)
          (dates w) (calls w) (console w).
Definition set_salts (ss : list N) (w : World) : World :=
  mkWorld (envFile w) (process_env w) (firestore w) (faults w) ss
          (dates w) (calls w) (console w).
Definition set_dates (ds : list N) (w : World) : World :=
  mkWorld (envFile w) (process_env w) (firestore w) (faults w) (salts w)
          ds (calls w) (console w).
Definition add_call (c : Call) (ok : bool) (w : World) : World :=
  mkWorld (envFile w) (process_env w) (firestore w) (faults w) (salts w)
          (dates w) (calls w ++ [(c, ok)]) (console w).
Definition add_console (s : Stream) (line : jsstring) (w : World) : World :=
  mkWorld (envFile w) (process_env w) (firestore w) (faults w) (salts w)
          (dates w) (calls w) (console w ++ [(s, line)]).

(** ** The monad of the script: state, exceptions and [process.exit] *)

Inductive Outcome (A : Type) :=
| Return (a : A)
| Throw (e : JsError)
| Exit (code : Z).
Arguments Return {A} a.
Arguments Throw {A} e.
Arguments Exit {A} code.

Definition M (A : Type) : Type := World → Outcome A * World.

#[global] Instance M_ret : MRet M := λ A a w, (Return a, w).

#[global] Instance M_bind : MBind M := λ A B f m w,
  match m w with
  | (Return a, w') => f a w'
  | (Throw e, w') => (Throw e, w')
  | (Exit c, w') => (Exit c, w')
  end.

Definition throw {A} (e : JsError) : M A := λ w, (Throw e, w).

(** [process.exit(code)] ends the run; no handler catches it. *)
Definition process_exit {A} (code : Z) : M A := λ w, (Exit code, w).

(** [try { body } catch (error) { handler }]. *)
Definition try_catch {A} (body : M A) (handler : JsError → M A) : M A :=
  λ w, match body w with
       | (Throw e, w') => handler e w'
       | r => r
       end.

Definition gets {A} (f : World → A) : M A := λ w, (Return (f w), w).
Definition modify (f : World → World) : M unit := λ w, (Return tt, f w).

Definition console_log (line : jsstring) : M unit :=
  modify (add_console Stdout line).
Definition console_error (line : jsstring) : M unit :=
  modify (add_console Stderr line).

(** The next entry of the fault plan, and the plan once it is consumed. *)
Definition head_fault (w : World) : option JsError := hd None (faults w).
Definition pop_fault (w : World) : World := set_faults (tl (faults w)) w.

(** The world after a call that threw, and after a call that returned. *)
Definition threw (c : Call) (w : World) : World :=
  add_call c false (pop_fault w).
Definition returned (c : Call) (effect : World → World) (w : World) : World :=
  add_call c true (effect (pop_fault w)).

(** An awaited call on a collaborator: it consumes one entry of the fault
    plan, is recorded, and on success has its effect and result. *)
Definition await {A} (c : Call) (effect : World → World) (result : World → A)
  : M A :=
  λ w, match head_fault w with
       | Some e => (Throw e, threw c w)
       | None => (Return (result (pop_fault w)), returned c effect w)
       end.

(** [for (const x of xs) { body }]. *)
Fixpoint for_of {A} (xs : list A) (body : A → M unit) : M unit :=
  match xs with
  | [] => mret tt
  | x :: xs' => body x ;; for_of xs' body
  end.

(** ** Console symbols of the messages *)

Definition CROSS_MARK : jsstring := [10060].              (* U+274C *)
Definition CHECK_MARK : jsstring := [9989].               (* U+2705 *)
Definition WARNING_SIGN : jsstring := [9888; 65039].      (* U+26A0 U+FE0F *)
Definition BUSTS : jsstring := [55357; 56421].            (* U+1F465 *)
Definition LOCK_KEY : jsstring := [55357; 56592].         (* U+1F510 *)
Definition RED_CIRCLE : jsstring := [55357; 56628].       (* U+1F534 *)
Definition BLUE_CIRCLE : jsstring := [55357; 56629].      (* U+1F535 *)
Definition GREEN_CIRCLE : jsstring := [55357; 57314].     (* U+1F7E2 *)
Definition MEMO : jsstring := [55357; 56541].             (* U+1F4DD *)
Definition CLIPBOARD : jsstring := [55357; 56523].        (* U+1F4CB *)

(** ** [loadEnvFile] and the merge into [process.env] *)

Definition loadEnvFile : M (gmap jsstring jsstring) :=
  st ← gets envFile;
  match st with
  | Missing =>
      console_error (CROSS_MARK ++ js " .env file not found");;
      mret ∅
  | Readable envContent => mret (parseEnvContent envContent)
  | Unreadable e => throw e
  end.

(** Source lines 35 and 36. *)
Definition banner : M unit :=
  console_log (BUSTS ++ js " NFT Marketplace - Test Users Setup");;
  console_log (js "=====================================" ++ [LF]).

(** ** The seed records *)

Record SeedUser := mkSeedUser {
  email : jsstring;
  password : jsstring;
  displayName : jsstring;
  role : jsstring;
  uid : jsstring;
  data : Document
}.

Definition object (fields : list (jsstring * JsValue)) : Document :=
  list_to_map (rev fields).

Definition adminUser (createdAt : N) : SeedUser :=
  mkSeedUser (js "admin@eventnft.app") (js "Admin123!") (js "Admin User")
    (js "admin") (js "admin-user-001")
    (object [ (js "id", VStr (js "admin-user-001"));
              (js "email", VStr (js "admin@eventnft.app"));
              (js "displayName", VStr (js "Admin User"));
              (js "role", VStr (js "admin"));
              (js "walletAddress", VStr (js "ADMIN_WALLET_ADDRESS"));
              (js "isVerified", VBool true);
              (js "createdAt", VDate createdAt) ]).

Definition merchantUser (createdAt : N) : SeedUser :=
  mkSeedUser (js "merchant@eventnft.app") (js "Merchant123!")
    (js "Event Organizer") (js "merchant") (js "merchant-user-001")
    (object [ (js "id", VStr (js "merchant-user-001"));
              (js "businessName", VStr (js "Music Festival Co."));
              (js "email", VStr (js "merchant@eventnft.app"));
              (js "category", VStr (js "Entertainment"));
              (js "description", VStr (js "Leading music festival organizer"));
              (js "walletAddress", VStr (js "MERCHANT_WALLET_ADDRESS"));
              (js "isApproved", VBool true);
              (js "uid", VStr (js "merchant-user-001"));
              (js "role", VStr (js "merchant"));
              (js "createdAt", VDate createdAt) ]).

Definition regularUser (createdAt : N) : SeedUser :=
  mkSeedUser (js "user@eventnft.app") (js "User123!") (js "Regular User")
    (js "user") (js "regular-user-001")
    (object [ (js "id", VStr (js "regular-user-001"));
              (js "email", VStr (js "user@eventnft.app"));
              (js "displayName", VStr (js "Regular User"));
              (js "role", VStr (js "user"));
              (js "walletAddress", VStr (js "USER_WALLET_ADDRESS"));
              (js "isVerified", VBool true);
              (js "createdAt", VDate createdAt) ]).

(** The three [createdAt] fields are three evaluations of [new Date()]. *)
Definition testUsers (d1 d2 d3 : N) : list SeedUser :=
  [adminUser d1; merchantUser d2; regularUser d3].

Definition new_Date : M N :=
  λ w, match dates w with
       | [] => (Return 0, w)
       | d :: ds => (Return d, set_dates ds w)
       end.

(** ** The credential report *)

(** [process.env.ADMIN_MASTER_KEY || 'admin123']. *)
Definition adminKey (penv : gmap jsstring jsstring) : jsstring :=
  match penv !! js "ADMIN_MASTER_KEY" with
  | Some k => if truthy k then k else js "admin123"
  | None => js "admin123"
  end.

Definition credentialLines (penv : gmap jsstring jsstring) : list jsstring :=
  [ [LF] ++ LOCK_KEY ++ js " TEST CREDENTIALS";
    js "==================" ++ [LF];
    RED_CIRCLE ++ js " ADMIN ACCESS:";
    js "   Email: admin@eventnft.app";
    js "   Password: Admin123!";
    js "   Admin Key: " ++ adminKey penv;
    js "   URL: http://localhost:3000/auth/admin" ++ [LF];
    BLUE_CIRCLE ++ js " MERCHANT ACCESS:";
    js "   Email: merchant@eventnft.app";
    js "   Password: Merchant123!";
    js "   URL: http://localhost:3000/auth/merchant" ++ [LF];
    GREEN_CIRCLE ++ js " USER ACCESS:";
    js "   Email: user@eventnft.app";
    js "   Password: User123!";
    js "   URL: http://localhost:3000/auth/user" ++ [LF];
    MEMO ++ js " NOTES:";
    js "- All passwords are now securely hashed using bcrypt";
    js "- JWT tokens are used for session management";
    js "- HTTP-only cookies provide secure authentication";
    js "- Use these credentials to test the new authentication system" ].

Definition displayCredentials : M unit :=
  penv ← gets process_env;
  for_of (credentialLines penv) console_log.

Definition completionLines : list jsstring :=
  [ [LF] ++ CHECK_MARK ++ js " Test users setup completed successfully!";
    [LF] ++ CLIPBOARD ++ js " Next steps:";
    js "1. Start your Next.js development server: npm run dev";
    js "2. Navigate to the authentication pages using the URLs above";
    js "3. Test login with the provided credentials";
    js "4. Verify that users can access their respective dashboards" ].

(** ** The Firebase Admin bootstrap, the seeder and [main] *)

Record ServiceAccount := mkServiceAccount {
  projectId : option jsstring;
  clientEmail : option jsstring;
  privateKey : jsstring
}.

(** [key.replace(/\\n/g, "\n")]: every backslash followed by [n] becomes a
    line feed, scanning from the left. *)
Fixpoint replace_escaped_newlines (s : jsstring) : jsstring :=
  match s with
  | c1 :: s' =>
      match s' with
      | c2 :: s'' =>
          if (c1 =? BACKSLASH) && (c2 =? 110)
          then LF :: replace_escaped_newlines s''
          else c1 :: replace_escaped_newlines s'
      | [] => [c1]
      end
  | [] => []
  end.

(** What reading [.replace] of [undefined] throws. *)
Definition undefined_replace_error : JsError :=
  mkError (js "Cannot read properties of undefined (reading 'replace')").

Definition lift_sum {A} (r : JsError + A) : M A :=
  match r with
  | inl e => throw e
  | inr a => mret a
  end.

(** The status the process ends with: the code given to [process.exit],
    1 for an exception nothing caught, 0 when the module runs to its end. *)
Definition exit_status {A} (o : Outcome A) : Z :=
  match o with
  | Return _ => 0%Z
  | Throw _ => 1%Z
  | Exit code => code
  end.

(** A stand-in for bcrypt used where a statement is instantiated: the
    sixty characters of a bcrypt string, the last two taken from the cost
    and the salt. *)
Definition sample_hash (password : jsstring) (rounds salt : N) : jsstring :=
  js "$2a$12$" ++ replicate 51 46 ++ [65 + rounds mod 26; 65 + salt mod 26].

Definition sample_error : JsError := mkError (js "UNAVAILABLE").

(** A process started on the empty database, with a settings file, an
    ambient configuration and a fault plan. *)
Definition sample_world (file : FileState) (penv : gmap jsstring jsstring)
    (plan : list (option JsError)) : World :=
  mkWorld file penv ∅ plan [7; 8; 9] [1; 2; 3] [] [].

(** A later process on the database [db]. *)
Definition sample_rerun (db : Firestore) (plan : list (option JsError))
  : World :=
  mkWorld Missing ∅ db plan [4; 5; 6] [4; 5; 6] [] [].

(** A database that no run of the seeder left: the users collection has
    under the uid of the admin record a document with another email, and
    under the uid of the merchant record a document with the email of the
    admin record. *)
Definition sample_foreign_doc : Document :=
  {[ js "email" := VStr (js "old@eventnft.app") ]}.

Definition sample_foreign : Firestore :=
  doc_set
    (doc_set ∅ (js "users") (js "admin-user-001") sample_foreign_doc)
    (js "users") (js "merchant-user-001")
    {[ js "email" := VStr (js "admin@eventnft.app") ]}.

(** An order of the own properties of an object. *)
Definition sample_keys (o : gmap jsstring jsstring) : list jsstring :=
  (map_to_list o).*1.

(** An SDK that accepts every credential, and one that rejects them all. *)
Definition sample_accept {A : Type} (_ : A) : JsError + unit := inr tt.
Definition sample_reject {A : Type} (_ : A) : JsError + unit :=
  inl sample_error.

(** Closed decidable goals are settled by evaluation. *)
Ltac by_decide :=
  match goal with
  | |- ?P => apply (bool_decide_eq_true_1 P); vm_compute; reflexivity
  end.

Section Script.

(** The collaborators whose code is outside the repository: the Firebase
    Admin SDK ([getApps], [cert], [initializeApp], [getFirestore], each of
    which returns or throws) and bcryptjs ([hash], a function of the
    password, the cost and the salt it draws). *)
Variables Credential App : Type.
Variable getApps : list App.
Variable cert : ServiceAccount → JsError + Credential.
Variable initializeApp : Credential → JsError + App.
Variable getFirestore : App → JsError + unit.
Variable bcrypt_hash : jsstring → N → N → jsstring.

(** The order in which the engine lists the own properties of an object
    (the names that are array indices in ascending order, then the others
    in the order of their creation); the map that stands for the object
    does not record it. *)
Variable ownPropertyKeys : gmap jsstring jsstring → list jsstring.

(** Source lines 28 and 29: the mapping is merged into [process.env]. *)
Definition loadEnv : M unit :=
  env ← loadEnvFile;
  modify (set_process_env (λ penv, Object_assign (ownPropertyKeys env) penv env)).

(** The [try] block of the bootstrap (source lines 43 to 57). *)
Definition initializeFirebaseAdmin_try : M unit :=
  app ← match getApps with
        | [] =>
            penv ← gets process_env;
            key ← match penv !! js "FIREBASE_PRIVATE_KEY" with
                  | Some k => mret (replace_escaped_newlines k)
                  | None => throw undefined_replace_error
                  end;
            credential ← lift_sum
              (cert (mkServiceAccount (penv !! js "FIREBASE_PROJECT_ID")
                       (penv !! js "FIREBASE_CLIENT_EMAIL") key));
            lift_sum (initializeApp credential)
        | app0 :: _ => mret app0
        end;
  lift_sum (getFirestore app);;
  console_log (CHECK_MARK ++ js " Firebase Admin initialized successfully").

Definition initializeFirebaseAdmin_failed (error : JsError) : jsstring :=
  CROSS_MARK ++ js " Failed to initialize Firebase Admin:" ++ js " "
  ++ message error.

(** The bootstrap with its handler (source lines 42 to 61). *)
Definition initializeFirebaseAdmin : M unit :=
  try_catch initializeFirebaseAdmin_try
    (λ error,
       console_error (initializeFirebaseAdmin_failed error);;
       process_exit 1).

Definition next_salt (w : World) : N := hd 0 (salts w).
Definition pop_salt (w : World) : World := set_salts (tl (salts w)) w.

Definition hashPassword (password : jsstring) : M jsstring :=
  await (CallHash password 12) pop_salt
        (λ w, bcrypt_hash password 12 (next_salt w)).

(** [db.collection(coll).where(field, '==', value).get()]. *)
Definition where_get (coll field : jsstring) (value : JsValue) : M Collection :=
  await (CallGet coll field value) id
        (λ w, where_eq field value (collection (firestore w) coll)).

Definition write_doc (coll id : jsstring) (data : Document) (w : World) : World :=
  set_firestore (λ db, doc_set db coll id data) w.

(** [db.collection(coll).doc(id).set(data)]. *)
Definition doc_set_await (coll id : jsstring) (data : Document) : M unit :=
  await (CallSet coll id data) (write_doc coll id data) (λ _, tt).

Definition createdLine (user : SeedUser) : jsstring :=
  CHECK_MARK ++ js " Created " ++ role user ++ js " user: " ++ email user.
Definition existsLine (user : SeedUser) : jsstring :=
  WARNING_SIGN ++ js "  User already exists: " ++ email user.
Definition failedLine (user : SeedUser) (error : JsError) : jsstring :=
  CROSS_MARK ++ js " Failed to create user " ++ email user ++ js ":"
  ++ js " " ++ message error.

(** The body of the loop of [createTestUsers], for one record. *)
Definition createTestUser (user : SeedUser) : M unit :=
  try_catch
    (existingUser ← where_get (js "users") (js "email") (VStr (email user));
     if snapshot_empty existingUser then
       hashedPassword ← hashPassword (password user);
       let userData := <[js "password" := VStr hashedPassword]> (data user) in
       doc_set_await (js "users") (uid user) userData;;
       (if decide (role user = js "merchant")
        then doc_set_await (js "merchants") (uid user) userData
        else mret tt);;
       console_log (createdLine user)
     else
       console_log (existsLine user))
    (λ error, console_error (failedLine user error)).

Definition createTestUsers (users : list SeedUser) : M unit :=
  console_log (BUSTS ++ js " Creating test users..." ++ [LF]);;
  for_of users createTestUser.

(** [main].  Its handler prints the error it caught; what it prints is
    taken to be the message. *)
Definition main (users : list SeedUser) : M unit :=
  try_catch
    (createTestUsers users;;
     displayCredentials;;
     for_of completionLines console_log)
    (λ error,
       console_error (CROSS_MARK ++ js " Error during setup:" ++ js " "
                      ++ message error);;
       process_exit 1).

(** The whole module, top to bottom. *)
Definition script : M unit :=
  loadEnv;;
  banner;;
  initializeFirebaseAdmin;;
  d1 ← new_Date;
  d2 ← new_Date;
  d3 ← new_Date;
  main (testUsers d1 d2 d3).

(** ** Notions used in the statements *)

Definition USERS : jsstring := js "users".
Definition MERCHANTS : jsstring := js "merchants".

(** The existence check of a record, and the document written for it. *)
Definition usersQuery (u : SeedUser) : Call :=
  CallGet (js "users") (js "email") (VStr (email u)).

Definition userData (u : SeedUser) (salt : N) : Document :=
  <[js "password" := VStr (bcrypt_hash (password u) 12 salt)]> (data u).

(** Some document of the users collection carries the email of the record. *)
Definition emailTaken (u : SeedUser) (db : Firestore) : Prop :=
  where_eq (js "email") (VStr (email u)) (collection db (js "users")) ≠ ∅.

(** The worlds after the successive calls of one record have returned. *)
Definition afterQuery (u : SeedUser) (w : World) : World :=
  returned (usersQuery u) id w.
Definition afterHash (u : SeedUser) (w : World) : World :=
  returned (CallHash (password u) 12) pop_salt (afterQuery u w).
Definition usersSet (u : SeedUser) (w : World) : Call :=
  CallSet (js "users") (uid u) (userData u (next_salt w)).
Definition merchantsSet (u : SeedUser) (w : World) : Call :=
  CallSet (js "merchants") (uid u) (userData u (next_salt w)).
Definition afterUsersSet (u : SeedUser) (w : World) : World :=
  returned (usersSet u w)
           (write_doc (js "users") (uid u) (userData u (next_salt w)))
           (afterHash u w).
Definition afterMerchantsSet (u : SeedUser) (w : World) : World :=
  returned (merchantsSet u w)
           (write_doc (js "merchants") (uid u) (userData u (next_salt w)))
           (afterUsersSet u w).

(** The seven ways the loop body can go for one record. *)
Inductive RecordRun (u : SeedUser) (w : World) : World → Prop :=
| query_threw e :
    head_fault w = Some e →
    RecordRun u w (add_console Stderr (failedLine u e) (threw (usersQuery u) w))
| already_exists :
    head_fault w = None →
    emailTaken u (firestore w) →
    RecordRun u w (add_console Stdout (existsLine u) (afterQuery u w))
| hash_threw e :
    head_fault w = None →
    ¬ emailTaken u (firestore w) →
    head_fault (afterQuery u w) = Some e →
    RecordRun u w (add_console Stderr (failedLine u e)
                     (threw (CallHash (password u) 12) (afterQuery u w)))
| users_set_threw e :
    head_fault w = None →
    ¬ emailTaken u (firestore w) →
    head_fault (afterQuery u w) = None →
    head_fault (afterHash u w) = Some e →
    RecordRun u w (add_console Stderr (failedLine u e)
                     (threw (usersSet u w) (afterHash u w)))
| created_plain :
    head_fault w = None →
    ¬ emailTaken u (firestore w) →
    head_fault (afterQuery u w) = None →
    head_fault (afterHash u w) = None →
    role u ≠ js "merchant" →
    RecordRun u w (add_console Stdout (createdLine u) (afterUsersSet u w))
| merchants_set_threw e :
    head_fault w = None →
    ¬ emailTaken u (firestore w) →
    head_fault (afterQuery u w) = None →
    head_fault (afterHash u w) = None →
    role u = js "merchant" →
    head_fault (afterUsersSet u w) = Some e →
    RecordRun u w (add_console Stderr (failedLine u e)
                     (threw (merchantsSet u w) (afterUsersSet u w)))
| created_merchant :
    head_fault w = None →
    ¬ emailTaken u (firestore w) →
    head_fault (afterQuery u w) = None →
    head_fault (afterHash u w) = None →
    role u = js "merchant" →
    head_fault (afterUsersSet u w) = None →
    RecordRun u w (add_console Stdout (createdLine u) (afterMerchantsSet u w)).

(** One iteration of the loop as a step on worlds, and the first line of
    [createTestUsers]. *)
Definition seedStep (w : World) (u : SeedUser) : World :=
  snd (createTestUser u w).

Definition creatingLine : jsstring :=
  BUSTS ++ js " Creating test users..." ++ [LF].

(** The databases that runs of the seeder produce from the empty database,
    whatever the faults, salts and dates of each run. *)
Inductive Seeded : Firestore → Prop :=
| seeded_empty : Seeded ∅
| seeded_run w d1 d2 d3 :
    Seeded (firestore w) →
    Seeded (firestore (snd (createTestUsers (testUsers d1 d2 d3) w))).

(** What one record can do to the database: nothing, a write of its
    document into [users], or that write followed by the mirror write into
    [merchants]; the writes only when no document carried its email. *)
Inductive StoreStep (u : SeedUser) (db : Firestore) : Firestore → Prop :=
| store_same : StoreStep u db db
| store_user salt :
    ¬ emailTaken u db →
    StoreStep u db (doc_set db USERS (uid u) (userData u salt))
| store_mirrored salt :
    ¬ emailTaken u db →
    role u = js "merchant" →
    StoreStep u db (doc_set (doc_set db USERS (uid u) (userData u salt))
                      MERCHANTS (uid u) (userData u salt)).

(** The profile data of a record carries the email of the record. *)
Definition carriesEmail (u : SeedUser) : Prop :=
  data u !! js "email" = Some (VStr (email u)).

(** No two documents of the users collection carry the same email. *)
Definition UniqueEmails (db : Firestore) : Prop :=
  ∀ (id1 id2 : jsstring) (doc1 doc2 : Document) (v : JsValue),
    collection db USERS !! id1 = Some doc1 →
    collection db USERS !! id2 = Some doc2 →
    doc1 !! js "email" = Some v → doc2 !! js "email" = Some v →
    id1 = id2.

(** A document stored under the uid of a record carries its email, and a
    mirror document under that uid has its users document. *)
Definition KeyedByEmail (us : list SeedUser) (db : Firestore) : Prop :=
  ∀ (u : SeedUser) (doc : Document),
    u ∈ us → collection db USERS !! uid u = Some doc →
    doc !! js "email" = Some (VStr (email u)).

Definition MirrorBacked (us : list SeedUser) (db : Firestore) : Prop :=
  ∀ u : SeedUser,
    u ∈ us → is_Some (collection db MERCHANTS !! uid u) →
    is_Some (collection db USERS !! uid u).

(** Every document of [db] is still in [db'], under its key and unchanged. *)
Definition Preserved (db db' : Firestore) : Prop :=
  ∀ (coll id : jsstring) (doc : Document),
    collection db coll !! id = Some doc → collection db' coll !! id = Some doc.

(** Records with the same uid have the same email. *)
Definition SameKeys (us us' : list SeedUser) : Prop :=
  ∀ u u' : SeedUser, u ∈ us → u' ∈ us' → uid u = uid u' → email u = email u'.

#[global] Instance emailTaken_dec (u : SeedUser) (db : Firestore) :
  Decision (emailTaken u db).
Proof. unfold emailTaken. apply _. Defined.

(** The database a run without faults leaves from the empty database: the
    three users documents and the mirror of the merchant document. *)
Definition seededStore (d1 d2 d3 s1 s2 s3 : N) : Firestore :=
  doc_set
    (doc_set
       (doc_set
          (doc_set ∅ USERS (uid (adminUser d1)) (userData (adminUser d1) s1))
          USERS (uid (merchantUser d2)) (userData (merchantUser d2) s2))
       MERCHANTS (uid (merchantUser d2)) (userData (merchantUser d2) s2))
    USERS (uid (regularUser d3)) (userData (regularUser d3) s3).

(** The calls one record makes, in order, each with whether it returned. *)
Inductive RecordCalls (u : SeedUser) (salt : N) : list (Call * bool) → Prop :=
| calls_query_threw :
    RecordCalls u salt [(usersQuery u, false)]
| calls_already_exists :
    RecordCalls u salt [(usersQuery u, true)]
| calls_hash_threw :
    RecordCalls u salt [(usersQuery u, true); (CallHash (password u) 12, false)]
| calls_users_set_threw :
    RecordCalls u salt [(usersQuery u, true); (CallHash (password u) 12, true);
                        (CallSet USERS (uid u) (userData u salt), false)]
| calls_created_plain :
    role u ≠ js "merchant" →
    RecordCalls u salt [(usersQuery u, true); (CallHash (password u) 12, true);
                        (CallSet USERS (uid u) (userData u salt), true)]
| calls_merchants_set_threw :
    role u = js "merchant" →
    RecordCalls u salt [(usersQuery u, true); (CallHash (password u) 12, true);
                        (CallSet USERS (uid u) (userData u salt), true);
                        (CallSet MERCHANTS (uid u) (userData u salt), false)]
| calls_created_merchant :
    role u = js "merchant" →
    RecordCalls u salt [(usersQuery u, true); (CallHash (password u) 12, true);
                        (CallSet USERS (uid u) (userData u salt), true);
                        (CallSet MERCHANTS (uid u) (userData u salt), true)].

(** The databases that further runs of the seeder produce from [db]. *)
Inductive Reruns (db : Firestore) : Firestore → Prop :=
| reruns_none : Reruns db db
| reruns_more w d1 d2 d3 :
    Reruns db (firestore w) →
    Reruns db (firestore (snd (createTestUsers (testUsers d1 d2 d3) w))).

(** The world after the lines [ls] have gone to the output stream. *)
Definition log_lines (ls : list jsstring) (w : World) : World :=
  fold_left (λ w l, add_console Stdout l w) ls w.

(** The engine lists every own property of an object, each once. *)
Definition ListsOwnKeys : Prop :=
  ∀ o : gmap jsstring jsstring, ownPropertyKeys o ≡ₚ (map_to_list o).*1.

(** The string has a backslash followed by [n] somewhere. *)
Definition hasEscapedNewline (s : jsstring) : Prop :=
  ∃ a b, s = a ++ BACKSLASH :: 110 :: b.

(** The line a record leaves on the console: created, already existing, or
    failed with some error. *)
Definition recordLine (u : SeedUser) (l : Stream * jsstring) : Prop :=
  l = (Stdout, createdLine u) ∨ l = (Stdout, existsLine u)
  ∨ ∃ e, l = (Stderr, failedLine u e).

(** * Properties *)

(** ** Splitting and joining *)

Lemma split_nonempty sep s : split sep s ≠ [].
Proof.
  destruct s as [|c s]; simpl; [done|].
  destruct (c =? sep); [done|]. by destruct (split sep s).
Qed.

Lemma join_cons sep p q qs :
  join sep (p :: q :: qs) = p ++ sep :: join sep (q :: qs).
Proof. reflexivity. Qed.

Lemma join_split sep s : join sep (split sep s) = s.
Proof.
  induction s as [|c s IH]; cbn [split]; [done|].
  pose proof (split_nonempty sep s) as Hne.
  destruct (N.eqb_spec c sep) as [->|Hc].
  - destruct (split sep s) as [|p ps]; [done|].
    rewrite join_cons, IH. reflexivity.
  - destruct (split sep s) as [|p ps]; [done|].
    destruct ps as [|q qs].
    + cbn [join] in *. by rewrite IH.
    + rewrite join_cons in *. rewrite <- IH. reflexivity.
Qed.

Lemma split_no_sep (sep : N) (s : jsstring) : sep ∉ s → split sep s = [s].
Proof.
  induction s as [|c s IH]; intros Hs; simpl; [done|].
  apply not_elem_of_cons in Hs as [Hc Hs].
  destruct (N.eqb_spec c sep) as [->|_]; [done|].
  by rewrite IH.
Qed.

Lemma split_first_sep (sep : N) (k r : jsstring) :
  sep ∉ k → split sep (k ++ sep :: r) = k :: split sep r.
Proof.
  induction k as [|c k IH]; intros Hk; simpl.
  - by rewrite N.eqb_refl.
  - apply not_elem_of_cons in Hk as [Hc Hk].
    destruct (N.eqb_spec c sep) as [->|_]; [done|].
    by rewrite IH.
Qed.

Lemma split_last_sep (sep : N) (c line : jsstring) :
  sep ∉ line → split sep (c ++ sep :: line) = split sep c ++ [line].
Proof.
  intros Hline. induction c as [|a c IH]; simpl.
  - by rewrite N.eqb_refl, split_no_sep.
  - rewrite IH. destruct (a =? sep); [done|].
    pose proof (split_nonempty sep c).
    by destruct (split sep c).
Qed.

Lemma first_sep_decompose (sep : N) (s : jsstring) :
  sep ∈ s → ∃ k r, s = k ++ sep :: r ∧ sep ∉ k.
Proof.
  induction s as [|c s IH]; intros Hs.
  - by apply elem_of_nil in Hs.
  - destruct (decide (c = sep)) as [->|Hc].
    + exists [], s. split; [done|]. apply not_elem_of_nil.
    + apply elem_of_cons in Hs as [?|Hs]; [congruence|].
      destruct (IH Hs) as (k & r & -> & Hk).
      exists (c :: k), r. split; [done|].
      apply not_elem_of_cons. split; [congruence|done].
Qed.

(** ** The loader *)

Example parse_two_lines :
  parseEnvContent (js "A=1=2" ++ [LF] ++ js "# c=d" ++ [LF] ++ js " B = x ")
  = <[js "B" := js "x"]> (<[js "A" := js "1=2"]> ∅).
Proof. vm_compute. reflexivity. Qed.

Lemma loadEnvLine_no_equals envVars line :
  EQUALS ∉ line → loadEnvLine envVars line = envVars.
Proof.
  intros H. unfold loadEnvLine. rewrite split_no_sep by done.
  simpl. by rewrite andb_false_r.
Qed.

Lemma loadEnvLine_first_equals envVars key rest :
  EQUALS ∉ key →
  loadEnvLine envVars (key ++ EQUALS :: rest) =
    if truthy key && negb (startsWith key HASH) && truthy (trim rest)
       && negb (bool_decide (trim key = proto_key))
    then <[trim key := trim rest]> envVars
    else envVars.
Proof.
  intros H. unfold loadEnvLine. rewrite split_first_sep by done.
  rewrite join_split.
  pose proof (split_nonempty EQUALS rest) as Hne.
  destruct (split EQUALS rest) as [|p ps]; [done|]. clear Hne.
  replace (0 <? N.of_nat (length (p :: ps))) with true
    by (symmetry; apply N.ltb_lt; simpl; lia).
  unfold obj_set.
  destruct (truthy key), (startsWith key HASH), (truthy (trim rest)); simpl;
    try done.
  case_bool_decide; by case_decide.
Qed.

Lemma loadEnvLine_comment envVars line :
  startsWith line HASH = true → loadEnvLine envVars line = envVars.
Proof.
  intros Hhash. destruct (decide (EQUALS ∈ line)) as [Hin|Hnin].
  - destruct (first_sep_decompose _ _ Hin) as (k & r & -> & Hk).
    rewrite loadEnvLine_first_equals by done.
    destruct k as [|c k]; cbn [startsWith app truthy andb negb] in *.
    + discriminate.
    + by rewrite Hhash.
  - by apply loadEnvLine_no_equals.
Qed.

Lemma parseEnvContent_one_line line :
  LF ∉ line → parseEnvContent line = loadEnvLine ∅ line.
Proof. intros H. unfold parseEnvContent. by rewrite split_no_sep. Qed.

Lemma parseEnvContent_next_line envContent line :
  LF ∉ line →
  parseEnvContent (envContent ++ LF :: line)
  = loadEnvLine (parseEnvContent envContent) line.
Proof.
  intros H. unfold parseEnvContent.
  by rewrite split_last_sep, fold_left_app.
Qed.

Lemma loadEnvFile_readable w envContent :
  envFile w = Readable envContent →
  loadEnvFile w = (Return (parseEnvContent envContent), w).
Proof. intros H. unfold loadEnvFile, mbind, M_bind, gets. by rewrite H. Qed.

(** C5, as amended.  When the settings file is readable the loader returns
    the parse of its content.  The parse handles the line-feed separated
    lines in order, each line acting on the mapping the earlier lines built.
    A line leaves the mapping unchanged when it has no [=] and when it
    begins with [#]; a line with an [=] is cut at its first [=] only, and it
    sets the trimmed part before that [=] to the trimmed part after it
    (which may contain further [=]), replacing an earlier entry of the same
    key, unless the part before is empty or begins with [#], the part after
    is empty once trimmed, or the trimmed key is [__proto__]: then it too
    leaves the mapping unchanged. *)
Theorem loadEnvFile_line_rules
    (w : World) (envContent line : jsstring)
    (envVars : gmap jsstring jsstring) :
  LF ∉ line →
  (envFile w = Readable (envContent ++ LF :: line) →
   loadEnvFile w = (Return (parseEnvContent (envContent ++ LF :: line)), w))
  ∧ parseEnvContent line = loadEnvLine ∅ line
  ∧ parseEnvContent (envContent ++ LF :: line)
    = loadEnvLine (parseEnvContent envContent) line
  ∧ (EQUALS ∉ line → loadEnvLine envVars line = envVars)
  ∧ (startsWith line HASH = true → loadEnvLine envVars line = envVars)
  ∧ (EQUALS ∈ line → ∃ key rest, line = key ++ EQUALS :: rest ∧ EQUALS ∉ key)
  ∧ (∀ key rest : jsstring,
       line = key ++ EQUALS :: rest → EQUALS ∉ key →
       loadEnvLine envVars line =
         if truthy key && negb (startsWith key HASH) && truthy (trim rest)
            && negb (bool_decide (trim key = proto_key))
         then <[trim key := trim rest]> envVars
         else envVars).
Proof.
  intros Hline. repeat split.
  - apply loadEnvFile_readable.
  - by apply parseEnvContent_one_line.
  - by apply parseEnvContent_next_line.
  - apply loadEnvLine_no_equals.
  - apply loadEnvLine_comment.
  - apply first_sep_decompose.
  - intros key rest -> Hkey. by apply loadEnvLine_first_equals.
Qed.

Lemma loadEnvFile_line_rules_witness :
  let w := mkWorld (Readable (js "A=1" ++ LF :: js " B = x=y "))
                   ∅ ∅ [] [] [] [] [] in
  loadEnvFile w = (Return (<[js "B" := js "x=y"]> {[ js "A" := js "1" ]}), w)
  ∧ parseEnvContent (js "A=1" ++ LF :: js " B = x=y ")
    = <[js "B" := js "x=y"]> (parseEnvContent (js "A=1"))
  ∧ loadEnvLine ∅ (js "no separator") = ∅
  ∧ loadEnvLine ∅ (js "#A=1") = ∅.
Proof.
  intros w.
  assert (Hlf : ∀ l : jsstring, bool_decide (LF ∉ l) = true → LF ∉ l)
    by (intros l; apply bool_decide_eq_true_1).
  split; [|split; [|split]].
  - destruct (loadEnvFile_line_rules w (js "A=1") (js " B = x=y ") ∅
                (Hlf (js " B = x=y ") eq_refl)) as (Hload & _).
    rewrite (Hload eq_refl). reflexivity.
  - destruct (loadEnvFile_line_rules w (js "A=1") (js " B = x=y ")
                (parseEnvContent (js "A=1")) (Hlf (js " B = x=y ") eq_refl))
      as (_ & _ & -> & _ & _ & _ & Hcut).
    rewrite (Hcut (js " B ") (js " x=y ") eq_refl).
    + reflexivity.
    + by_decide.
  - destruct (loadEnvFile_line_rules w [] (js "no separator") ∅
                (Hlf (js "no separator") eq_refl)) as (_ & _ & _ & Hno & _).
    apply Hno. by_decide.
  - destruct (loadEnvFile_line_rules w [] (js "#A=1") ∅
                (Hlf (js "#A=1") eq_refl)) as (_ & _ & _ & _ & Hhash & _).
    apply Hhash. reflexivity.
Defined.

(** C5 as stated fails: a line that neither begins with [#] nor lacks the
    [=] separator can still give no entry, here a line whose value is
    empty. *)
Lemma loadEnvFile_drops_empty_value :
  ¬ (∀ line : jsstring,
       LF ∉ line → startsWith line HASH = false → EQUALS ∈ line →
       ∃ k v, parseEnvContent line !! k = Some v).
Proof.
  intros H.
  destruct (H (js "A=")) as (k & v & Hkv).
  - by_decide.
  - reflexivity.
  - by_decide.
  - replace (parseEnvContent (js "A=")) with (∅ : gmap jsstring jsstring)
      in Hkv by (vm_compute; reflexivity).
    by rewrite lookup_empty in Hkv.
Qed.

(** ** What the loader's mapping holds *)

Lemma trimStart_elem (x : N) (s : jsstring) : x ∈ trimStart s → x ∈ s.
Proof.
  induction s as [|c s IH]; cbn [trimStart]; [done|].
  destruct (isWhiteSpace c); [|done].
  intros H. apply elem_of_cons. right. by apply IH.
Qed.

Lemma trimEnd_elem (x : N) (s : jsstring) : x ∈ trimEnd s → x ∈ s.
Proof.
  unfold trimEnd. rewrite list_elem_of_In, <- in_rev, <- list_elem_of_In.
  intros H%trimStart_elem.
  by rewrite list_elem_of_In, in_rev, <- list_elem_of_In.
Qed.

Lemma trim_elem (x : N) (s : jsstring) : x ∈ trim s → x ∈ s.
Proof. unfold trim. intros H%trimEnd_elem. by apply trimStart_elem. Qed.

Lemma loadEnvLine_lookup (envVars : gmap jsstring jsstring)
    (line k v : jsstring) :
  loadEnvLine envVars line !! k = Some v →
  envVars !! k = Some v
  ∨ ∃ key rest, line = key ++ EQUALS :: rest ∧ (EQUALS ∉ key)
                ∧ startsWith key HASH = false
                ∧ k = trim key ∧ v = trim rest
                ∧ v ≠ [] ∧ k ≠ proto_key.
Proof.
  destruct (decide (EQUALS ∈ line)) as [Hin|Hnin].
  - destruct (first_sep_decompose _ _ Hin) as (key & rest & -> & Hkey).
    rewrite loadEnvLine_first_equals by done.
    destruct (truthy key) eqn:Hk; [|by left].
    destruct (startsWith key HASH) eqn:Hh; [by left|].
    destruct (truthy (trim rest)) eqn:Hv; [|by left].
    case_bool_decide as Hproto; [by left|]. cbn [andb negb].
    rewrite lookup_insert. case_decide as Heq; [|by left].
    intros [= <-]. right. exists key, rest.
    repeat (split; [done|]). split; [|congruence].
    intros Hempty. by rewrite Hempty in Hv.
  - rewrite loadEnvLine_no_equals by done. by left.
Qed.

Lemma fold_loadEnvLine_lookup (lines : list jsstring)
    (envVars : gmap jsstring jsstring) (k v : jsstring) :
  fold_left loadEnvLine lines envVars !! k = Some v →
  envVars !! k = Some v
  ∨ ∃ key rest, (key ++ EQUALS :: rest) ∈ lines ∧ (EQUALS ∉ key)
                ∧ startsWith key HASH = false
                ∧ k = trim key ∧ v = trim rest
                ∧ v ≠ [] ∧ k ≠ proto_key.
Proof.
  revert envVars. induction lines as [|line lines IH]; intros envVars;
    cbn [fold_left]; [by left|].
  intros [Hstep|(key & rest & Hin & Hrest)]%IH.
  - apply loadEnvLine_lookup in Hstep
      as [Hold|(key & rest & -> & Hrest)]; [by left|].
    right. exists key, rest. split; [|done]. apply elem_of_cons. by left.
  - right. exists key, rest. split; [|done]. apply elem_of_cons. by right.
Qed.

Lemma parseEnvContent_lookup (envContent k v : jsstring) :
  parseEnvContent envContent !! k = Some v →
  ∃ key rest, (key ++ EQUALS :: rest) ∈ split LF envContent ∧ (EQUALS ∉ key)
              ∧ startsWith key HASH = false
              ∧ k = trim key ∧ v = trim rest
              ∧ v ≠ [] ∧ k ≠ proto_key.
Proof.
  unfold parseEnvContent.
  intros [Hempty|H]%fold_loadEnvLine_lookup; [|done].
  by rewrite lookup_empty in Hempty.
Qed.

(** ** The merge into the ambient configuration *)

Lemma pairs_ind (P : jsstring → Prop) :
  P [] → (∀ c, P [c]) →
  (∀ c1 c2 s, P s → P (c2 :: s) → P (c1 :: c2 :: s)) →
  ∀ s, P s.
Proof.
  intros Hnil Hone Hstep s.
  enough (P s ∧ ∀ c, P (c :: s)) as [H _] by done.
  induction s as [|c s [IH1 IH2]]; [by split|].
  split; [apply IH2|]. intros c'. by apply Hstep.
Qed.

Lemma toWellFormed_elem (c : N) (s : jsstring) :
  c ∈ toWellFormed s → c ∈ s ∨ c = REPLACEMENT_CHARACTER.
Proof.
  revert s. apply (pairs_ind (λ s, c ∈ toWellFormed s
                                   → c ∈ s ∨ c = REPLACEMENT_CHARACTER)).
  - by left.
  - intros c1. cbn.
    destruct (isHighSurrogate c1), (isLowSurrogate c1);
      rewrite !list_elem_of_singleton; intros H; clear -H; tauto.
  - intros c1 c2 s IH1 IH2.
    change (toWellFormed (c1 :: c2 :: s))
      with (if isHighSurrogate c1 then
              if isLowSurrogate c2 then c1 :: c2 :: toWellFormed s
              else REPLACEMENT_CHARACTER :: toWellFormed (c2 :: s)
            else if isLowSurrogate c1
                 then REPLACEMENT_CHARACTER :: toWellFormed (c2 :: s)
                 else c1 :: toWellFormed (c2 :: s)).
    destruct (isHighSurrogate c1), (isLowSurrogate c2), (isLowSurrogate c1);
      rewrite !elem_of_cons; rewrite elem_of_cons in IH2; intros H;
      clear -H IH1 IH2; tauto.
Qed.

Lemma cstring_elem (c : N) (s : jsstring) : c ∈ cstring s → c ∈ s.
Proof.
  induction s as [|a s IH]; cbn [cstring]; [done|].
  destruct (a =? NUL); [by intros ?%elem_of_nil|].
  rewrite !elem_of_cons. intros H. clear -H IH. tauto.
Qed.

Lemma envString_no_equals (s : jsstring) : EQUALS ∉ s → EQUALS ∉ envString s.
Proof.
  intros Hs Hin. apply cstring_elem, toWellFormed_elem in Hin.
  destruct Hin as [Hin|Heq]; [done|discriminate Heq].
Qed.

Lemma env_set_lookup (penv : gmap jsstring jsstring) (name value n : jsstring) :
  env_set penv name value !! n
  = if decide (envString name = n ∧ n ≠ [] ∧ EQUALS ∉ n)
    then Some (envString value) else penv !! n.
Proof.
  unfold env_set. case_decide as Hbad; case_decide as Hn.
  - destruct Hn as (<- & ? & ?). by destruct Hbad.
  - done.
  - destruct Hn as (<- & _). apply lookup_insert_eq.
  - apply lookup_insert_ne. intros <-. apply Hn.
    repeat split; intros ?; apply Hbad; auto.
Qed.

Lemma Object_assign_snoc (keys : list jsstring) (k : jsstring)
    (target source : gmap jsstring jsstring) :
  Object_assign (keys ++ [k]) target source
  = match source !! k with
    | Some v => env_set (Object_assign keys target source) k v
    | None => Object_assign keys target source
    end.
Proof. unfold Object_assign. by rewrite fold_left_app. Qed.

Lemma Object_assign_empty (keys : list jsstring)
    (target : gmap jsstring jsstring) :
  Object_assign keys target ∅ = target.
Proof.
  induction keys as [|k keys IH] using rev_ind; [done|].
  by rewrite Object_assign_snoc, lookup_empty.
Qed.

(** A name that no property of the source is assigned under keeps what the
    target had. *)
Lemma Object_assign_other (keys : list jsstring)
    (target source : gmap jsstring jsstring) (n : jsstring) :
  (∀ k, k ∈ keys → is_Some (source !! k) → envString k ≠ n) →
  Object_assign keys target source !! n = target !! n.
Proof.
  induction keys as [|k keys IH] using rev_ind; intros Hother; [done|].
  rewrite Object_assign_snoc.
  assert (Object_assign keys target source !! n = target !! n) as Hrest.
  { apply IH. intros k' Hk'. apply Hother, elem_of_app. by left. }
  destruct (source !! k) as [v|] eqn:Hk; [|done].
  rewrite env_set_lookup, decide_False; [done|].
  intros (Heq & _). revert Heq. apply Hother; [|by rewrite Hk].
  apply elem_of_app. right. by apply list_elem_of_singleton.
Qed.

(** The empty name and a name with [=] keep what the target had. *)
Lemma Object_assign_refused (keys : list jsstring)
    (target source : gmap jsstring jsstring) (n : jsstring) :
  n = [] ∨ EQUALS ∈ n →
  Object_assign keys target source !! n = target !! n.
Proof.
  intros Hbad.
  induction keys as [|k keys IH] using rev_ind; [done|].
  rewrite Object_assign_snoc.
  destruct (source !! k) as [v|]; [|done].
  rewrite env_set_lookup, decide_False; [done|].
  intros (_ & ? & ?). by destruct Hbad.
Qed.

(** A name under which some property is assigned holds the value of one of
    them. *)
Lemma Object_assign_some (keys : list jsstring)
    (target source : gmap jsstring jsstring) (k v : jsstring) :
  k ∈ keys → source !! k = Some v →
  envString k ≠ [] → EQUALS ∉ envString k →
  ∃ k' v', k' ∈ keys ∧ source !! k' = Some v'
           ∧ envString k' = envString k
           ∧ Object_assign keys target source !! envString k
             = Some (envString v').
Proof.
  intros Hin Hk Hne Heq.
  induction keys as [|k0 keys IH] using rev_ind;
    [by apply elem_of_nil in Hin|].
  rewrite Object_assign_snoc.
  assert (∀ k' v', k' ∈ keys ∧ source !! k' = Some v'
                   ∧ envString k' = envString k
                   ∧ Object_assign keys target source !! envString k
                     = Some (envString v') →
                   k' ∈ keys ++ [k0]) as Hweak.
  { intros k' v' (? & _). apply elem_of_app. by left. }
  destruct (source !! k0) as [v0|] eqn:Hk0.
  - rewrite env_set_lookup. case_decide as Hhit.
    + exists k0, v0. split; [|by destruct Hhit].
      apply elem_of_app. right. by apply list_elem_of_singleton.
    + apply elem_of_app in Hin as [Hin|Hin].
      * destruct (IH Hin) as (k' & v' & H). exists k', v'.
        split; [by eapply Hweak|]. by destruct H.
      * apply list_elem_of_singleton in Hin as ->. by destruct Hhit.
  - apply elem_of_app in Hin as [Hin|Hin];
      [|apply list_elem_of_singleton in Hin as ->; congruence].
    destruct (IH Hin) as (k' & v' & H). exists k', v'.
    split; [by eapply Hweak|]. by destruct H.
Qed.

Lemma ListsOwnKeys_elem (o : gmap jsstring jsstring) (k : jsstring) :
  ListsOwnKeys → k ∈ ownPropertyKeys o ↔ is_Some (o !! k).
Proof.
  intros Hkeys. rewrite (Hkeys o), list_elem_of_fmap. split.
  - intros ([k' v] & -> & Hin%elem_of_map_to_list). by exists v.
  - intros [v Hv]. exists (k, v). split; [done|].
    by apply elem_of_map_to_list.
Qed.

Lemma loadEnv_readable (w : World) (envContent : jsstring) :
  envFile w = Readable envContent →
  process_env (snd (loadEnv w))
  = Object_assign (ownPropertyKeys (parseEnvContent envContent))
      (process_env w) (parseEnvContent envContent).
Proof.
  intros Hfile. unfold loadEnv, mbind, M_bind.
  by rewrite (loadEnvFile_readable _ _ Hfile).
Qed.

Lemma parseEnvContent_no_equals (envContent k v : jsstring) :
  parseEnvContent envContent !! k = Some v → EQUALS ∉ envString k.
Proof.
  intros (key & rest & _ & Hkey & _ & -> & _)%parseEnvContent_lookup.
  apply envString_no_equals. by intros ?%trim_elem.
Qed.

Lemma loadEnv_some (w : World) (envContent k v : jsstring) :
  ListsOwnKeys → envFile w = Readable envContent →
  parseEnvContent envContent !! k = Some v → envString k ≠ [] →
  ∃ k' v', parseEnvContent envContent !! k' = Some v'
           ∧ envString k' = envString k
           ∧ process_env (snd (loadEnv w)) !! envString k
             = Some (envString v').
Proof.
  intros Hkeys Hfile Hv Hne. rewrite (loadEnv_readable w envContent Hfile).
  set (env := parseEnvContent envContent) in *.
  destruct (Object_assign_some (ownPropertyKeys env) (process_env w) env k v)
    as (k' & v' & _ & Hk' & Hsame & Hlook); [|done..| |by exists k', v'].
  - apply ListsOwnKeys_elem; [done|]. by rewrite Hv.
  - by eapply parseEnvContent_no_equals.
Qed.

Lemma loadEnv_alone (w : World) (envContent k v : jsstring) :
  ListsOwnKeys → envFile w = Readable envContent →
  parseEnvContent envContent !! k = Some v → envString k ≠ [] →
  (∀ k', is_Some (parseEnvContent envContent !! k') →
         envString k' = envString k → k' = k) →
  process_env (snd (loadEnv w)) !! envString k = Some (envString v).
Proof.
  intros Hkeys Hfile Hv Hne Halone.
  destruct (loadEnv_some w envContent k v Hkeys Hfile Hv Hne)
    as (k' & v' & Hk' & Hsame & Hlook).
  assert (k' = k) as -> by (apply Halone; [by rewrite Hk'|done]).
  congruence.
Qed.

(** C6, as amended.  Let the engine list every property of the loader's
    mapping once.  The merge assigns the entries of the mapping on
    [process.env], which keeps a name and a value as the environment holds
    them ([envString]: cut at the first NUL).  A name of the mapping that
    is not empty in the environment, and that no other name of the mapping
    shares there, has after the merge the value the settings file gives it,
    also when the ambient configuration had an entry for it; in particular
    a name and a value that the environment holds unchanged are merged as
    they are.  When several names of the mapping share a name in the
    environment, it has the value of one of them.  A name of the
    environment that no name of the mapping gives, and the empty name,
    keep what the ambient configuration had. *)
Theorem merge_file_wins (w : World) (envContent k name : jsstring) :
  ListsOwnKeys →
  envFile w = Readable envContent →
  let env := parseEnvContent envContent in
  let merged := process_env (snd (loadEnv w)) in
  let alone := ∀ k', is_Some (env !! k') → envString k' = envString k → k' = k in
  merged = Object_assign (ownPropertyKeys env) (process_env w) env
  ∧ (∀ v, env !! k = Some v → envString k ≠ [] → alone →
       merged !! envString k = Some (envString v))
  ∧ (∀ v, env !! k = Some v → k ≠ [] → envString k = k → envString v = v →
       alone → merged !! k = Some v)
  ∧ (∀ v, env !! k = Some v → envString k ≠ [] →
       ∃ k' v', env !! k' = Some v' ∧ envString k' = envString k
                ∧ merged !! envString k = Some (envString v'))
  ∧ ((∀ k', is_Some (env !! k') → envString k' ≠ name) →
     merged !! name = process_env w !! name)
  ∧ merged !! [] = process_env w !! [].
Proof.
  intros Hkeys Hfile env merged alone.
  assert (merged = Object_assign (ownPropertyKeys env) (process_env w) env)
    as Hm by (by apply loadEnv_readable).
  assert (∀ v, env !! k = Some v → envString k ≠ [] → alone →
            merged !! envString k = Some (envString v)) as Hone.
  { intros v Hv Hne Halone. by apply (loadEnv_alone w envContent). }
  split; [done|]. split; [done|]. split; [|split; [|split]].
  - intros v Hv Hk Hkk Hvv Halone.
    rewrite <- Hkk at 1. rewrite <- Hvv. apply Hone; [done| |done].
    by rewrite Hkk.
  - intros v Hv Hne. by apply (loadEnv_some w envContent k v).
  - intros Hother. rewrite Hm. apply Object_assign_other.
    intros k' _. apply Hother.
  - rewrite Hm. apply Object_assign_refused. by left.
Qed.

(** C6 as stated fails: an ambient entry whose key the settings file also
    has is overwritten by the merge. *)
Lemma merge_overwrites_ambient :
  ¬ (∀ (keys : list jsstring) (ambient : gmap jsstring jsstring)
       (envContent k v : jsstring),
       keys ≡ₚ (map_to_list (parseEnvContent envContent)).*1 →
       ambient !! k = Some v → is_Some (parseEnvContent envContent !! k) →
       Object_assign keys ambient (parseEnvContent envContent) !! k = Some v).
Proof.
  intros H.
  specialize (H [js "A"] {[ js "A" := js "1" ]} (js "A=2") (js "A") (js "1")).
  assert (Hlk : Object_assign [js "A"] {[ js "A" := js "1" ]}
                  (parseEnvContent (js "A=2")) !! js "A" = Some (js "2"))
    by (vm_compute; reflexivity).
  rewrite Hlk in H.
  assert (Some (js "2") = Some (js "1")) as Heq.
  { apply H; [|reflexivity|].
    - replace (map_to_list (parseEnvContent (js "A=2"))).*1 with [js "A"]
        by (vm_compute; reflexivity).
      reflexivity.
    - exists (js "2"). vm_compute. reflexivity. }
  discriminate Heq.
Qed.

(** ** The admin key of the report *)

Lemma adminKey_rule (penv : gmap jsstring jsstring) :
  adminKey penv =
    match penv !! js "ADMIN_MASTER_KEY" with
    | Some (c :: k) => c :: k
    | Some [] | None => js "admin123"
    end.
Proof.
  unfold adminKey. destruct (penv !! js "ADMIN_MASTER_KEY") as [[|c k]|]; done.
Qed.

(** C9 as stated fails: the report does not always print the value of the
    entry when the entry is set; the empty string also gives the default. *)
Lemma adminKey_default_on_empty :
  ¬ (∀ (penv : gmap jsstring jsstring) (k : jsstring),
       penv !! js "ADMIN_MASTER_KEY" = Some k → adminKey penv = k).
Proof.
  intros H.
  specialize (H {[ js "ADMIN_MASTER_KEY" := [] ]} [] eq_refl).
  discriminate H.
Qed.

(** ** One record *)

Lemma snapshot_empty_false (u : SeedUser) (db : Firestore) :
  snapshot_empty (where_eq (js "email") (VStr (email u))
                    (collection db (js "users"))) = false
  ↔ emailTaken u db.
Proof. unfold snapshot_empty, emailTaken. apply bool_decide_eq_false. Qed.

Lemma snapshot_empty_true (u : SeedUser) (db : Firestore) :
  snapshot_empty (where_eq (js "email") (VStr (email u))
                    (collection db (js "users"))) = true
  ↔ ¬ emailTaken u db.
Proof.
  unfold snapshot_empty, emailTaken. rewrite bool_decide_eq_true.
  split; [by intros -> ?|]. intros H.
  by destruct (decide (where_eq (js "email") (VStr (email u))
                         (collection db (js "users")) = ∅)).
Qed.

(** The loop body never throws and never exits, and it goes one of the
    seven ways of [RecordRun]. *)
Lemma createTestUser_run (u : SeedUser) (w : World) :
  ∃ w', createTestUser u w = (Return tt, w') ∧ RecordRun u w w'.
Proof.
  unfold createTestUser, try_catch, mbind, M_bind, where_get, await.
  destruct (head_fault w) as [e|] eqn:Hq.
  { eexists. split; [reflexivity|]. by apply query_threw. }
  change (firestore (pop_fault w)) with (firestore w).
  destruct (snapshot_empty _) eqn:Hsnap.
  2:{ eexists. split; [reflexivity|].
      apply already_exists; [done|]. by apply snapshot_empty_false. }
  apply snapshot_empty_true in Hsnap.
  unfold hashPassword, await.
  change (returned (CallGet (js "users") (js "email") (VStr (email u))) id w)
    with (afterQuery u w).
  destruct (head_fault (afterQuery u w)) as [e|] eqn:Hh.
  { eexists. split; [reflexivity|]. by apply hash_threw. }
  change (returned (CallHash (password u) 12) pop_salt (afterQuery u w))
    with (afterHash u w).
  change (next_salt (pop_fault (afterQuery u w))) with (next_salt w).
  unfold doc_set_await at 1. unfold await.
  change (CallSet (js "users") (uid u)
            (<[js "password" := VStr (bcrypt_hash (password u) 12 (next_salt w))]>
               (data u))) with (usersSet u w).
  destruct (head_fault (afterHash u w)) as [e|] eqn:Hs.
  { eexists. split; [reflexivity|]. by apply users_set_threw. }
  change (returned (usersSet u w) _ (afterHash u w)) with (afterUsersSet u w).
  destruct (decide (role u = js "merchant")) as [Hrole|Hrole].
  2:{ eexists. split; [reflexivity|]. by apply created_plain. }
  unfold doc_set_await, await.
  change (CallSet (js "merchants") (uid u) _) with (merchantsSet u w).
  destruct (head_fault (afterUsersSet u w)) as [e|] eqn:Hm.
  { eexists. split; [reflexivity|]. by apply merchants_set_threw. }
  eexists. split; [reflexivity|]. by apply created_merchant.
Qed.

Lemma createTestUser_returns (u : SeedUser) (w : World) :
  createTestUser u w = (Return tt, seedStep w u).
Proof.
  destruct (createTestUser_run u w) as (w' & Heq & _).
  unfold seedStep. by rewrite Heq.
Qed.

Lemma seedStep_run (u : SeedUser) (w : World) : RecordRun u w (seedStep w u).
Proof.
  destruct (createTestUser_run u w) as (w' & Heq & Hrun).
  unfold seedStep. by rewrite Heq.
Qed.

Lemma for_of_createTestUser (us : list SeedUser) (w : World) :
  for_of us createTestUser w = (Return tt, fold_left seedStep us w).
Proof.
  revert w. induction us as [|u us IH]; intros w; [done|].
  cbn [for_of fold_left]. unfold mbind, M_bind.
  by rewrite createTestUser_returns, IH.
Qed.

Lemma createTestUsers_fold (us : list SeedUser) (w : World) :
  createTestUsers us w
  = (Return tt, fold_left seedStep us (add_console Stdout creatingLine w)).
Proof.
  unfold createTestUsers, mbind, M_bind, console_log, modify.
  by rewrite for_of_createTestUser.
Qed.

(** ** The database *)

Lemma users_not_merchants : USERS ≠ MERCHANTS.
Proof. by_decide. Qed.

Lemma collection_doc_set_eq (db : Firestore) (n id : jsstring) (d : Document) :
  collection (doc_set db n id d) n = <[id := d]> (collection db n).
Proof. unfold collection, doc_set. by rewrite lookup_insert_eq. Qed.

Lemma collection_doc_set_ne (db : Firestore) (n n' id : jsstring) (d : Document) :
  n ≠ n' → collection (doc_set db n id d) n' = collection db n'.
Proof. intros H. unfold collection, doc_set. by rewrite lookup_insert_ne. Qed.

Lemma where_eq_nonempty (f : jsstring) (v : JsValue) (c : Collection) :
  where_eq f v c ≠ ∅ ↔ ∃ id d, c !! id = Some d ∧ d !! f = Some v.
Proof.
  unfold where_eq. split.
  - intros H. apply map_choose in H as (id & d & Hd).
    apply map_lookup_filter_Some in Hd as [Hd Hf]. by exists id, d.
  - intros (id & d & Hd & Hf) Hempty.
    assert (filter (λ kd : jsstring * Document, kd.2 !! f = Some v) c !! id
            = Some d) as Hin by by apply map_lookup_filter_Some.
    rewrite Hempty in Hin. by rewrite lookup_empty in Hin.
Qed.

Lemma emailTaken_iff (u : SeedUser) (db : Firestore) :
  emailTaken u db ↔
  ∃ id d, collection db USERS !! id = Some d
          ∧ d !! js "email" = Some (VStr (email u)).
Proof. apply where_eq_nonempty. Qed.

Lemma RecordRun_store (u : SeedUser) (w w' : World) :
  RecordRun u w w' → StoreStep u (firestore w) (firestore w').
Proof.
  destruct 1 as [e ?|? ?|e ? ? ?|e ? ? ? ?|? Hfree ? ? ?|e ? Hfree ? ? ? ?
                 |? Hfree ? ? Hrole ?].
  - exact (store_same u _).
  - exact (store_same u _).
  - exact (store_same u _).
  - exact (store_same u _).
  - exact (store_user u _ (next_salt w) Hfree).
  - exact (store_user u _ (next_salt w) Hfree).
  - exact (store_mirrored u _ (next_salt w) Hfree Hrole).
Qed.

Lemma seedStep_store (u : SeedUser) (w : World) :
  StoreStep u (firestore w) (firestore (seedStep w u)).
Proof. apply RecordRun_store, seedStep_run. Qed.

Lemma userData_email (u : SeedUser) (salt : N) :
  carriesEmail u → userData u salt !! js "email" = Some (VStr (email u)).
Proof.
  intros H. unfold userData. rewrite lookup_insert_ne; [done|]. by_decide.
Qed.

Lemma StoreStep_taken (u : SeedUser) (db db' : Firestore) :
  emailTaken u db → StoreStep u db db' → db' = db.
Proof. intros Htaken. by destruct 1. Qed.

Lemma StoreStep_unique (u : SeedUser) (db db' : Firestore) :
  carriesEmail u → StoreStep u db db' → UniqueEmails db → UniqueEmails db'.
Proof.
  intros Hu Hstep Huniq.
  assert (∀ salt, ¬ emailTaken u db →
            UniqueEmails (doc_set db USERS (uid u) (userData u salt))) as Hset.
  { intros salt Hfree id1 id2 doc1 doc2 v.
    rewrite collection_doc_set_eq, !lookup_insert.
    repeat case_decide; subst; intros H1 H2 Hv1 Hv2; simplify_eq; try done.
    - rewrite userData_email in Hv1 by done. simplify_eq.
      exfalso. apply Hfree, emailTaken_iff. by exists id2, doc2.
    - rewrite userData_email in Hv2 by done. simplify_eq.
      exfalso. apply Hfree, emailTaken_iff. by exists id1, doc1.
    - by eapply Huniq. }
  destruct Hstep as [|salt Hfree|salt Hfree Hrole]; [done|by apply Hset|].
  intros id1 id2 doc1 doc2 v.
  rewrite (collection_doc_set_ne _ MERCHANTS USERS)
    by (apply not_eq_sym, users_not_merchants).
  by apply Hset.
Qed.

Lemma StoreStep_keyed (us : list SeedUser) (u : SeedUser) (db db' : Firestore) :
  carriesEmail u → SameKeys us [u] →
  StoreStep u db db' → KeyedByEmail us db → KeyedByEmail us db'.
Proof.
  intros Hu Hkeys Hstep Hkeyed.
  assert (∀ salt, KeyedByEmail us (doc_set db USERS (uid u) (userData u salt)))
    as Hset.
  { intros salt u0 doc Hu0. rewrite collection_doc_set_eq, lookup_insert.
    case_decide as Hid.
    - intros [= <-]. rewrite userData_email by done.
      f_equal. f_equal. symmetry. apply Hkeys; [done| |done].
      apply list_elem_of_singleton. done.
    - by apply Hkeyed. }
  destruct Hstep as [|salt _|salt _ _]; [done|by apply Hset|].
  intros u0 doc Hu0.
  rewrite (collection_doc_set_ne _ MERCHANTS USERS)
    by (apply not_eq_sym, users_not_merchants).
  by apply Hset.
Qed.

Lemma StoreStep_backed (us : list SeedUser) (u : SeedUser) (db db' : Firestore) :
  StoreStep u db db' → MirrorBacked us db → MirrorBacked us db'.
Proof.
  intros Hstep Hbacked.
  destruct Hstep as [|salt _|salt _ _]; [done| |]; intros u0 Hu0.
  - rewrite collection_doc_set_eq,
      (collection_doc_set_ne _ USERS MERCHANTS) by apply users_not_merchants.
    intros Hm. rewrite lookup_insert. case_decide; [by eexists|].
    by apply Hbacked.
  - rewrite collection_doc_set_eq,
      (collection_doc_set_ne _ MERCHANTS USERS)
      by (apply not_eq_sym, users_not_merchants).
    rewrite (collection_doc_set_ne _ USERS MERCHANTS)
      by apply users_not_merchants.
    rewrite collection_doc_set_eq, !lookup_insert.
    case_decide; [by eexists|]. by apply Hbacked.
Qed.

Lemma StoreStep_preserved (u : SeedUser) (db db' : Firestore) :
  StoreStep u db db' → KeyedByEmail [u] db → MirrorBacked [u] db →
  Preserved db db'.
Proof.
  intros Hstep Hkeyed Hbacked.
  assert (u ∈ [u]) as Hin by (apply list_elem_of_singleton; done).
  assert (¬ emailTaken u db → collection db USERS !! uid u = None) as Hfresh.
  { intros Hfree. destruct (collection db USERS !! uid u) as [doc|] eqn:Hdoc;
      [|done].
    exfalso. apply Hfree, emailTaken_iff. exists (uid u), doc.
    split; [done|]. by apply Hkeyed. }
  assert (¬ emailTaken u db → collection db MERCHANTS !! uid u = None)
    as Hfresh'.
  { intros Hfree. apply eq_None_not_Some. intros Hsome.
    apply Hbacked in Hsome; [|done].
    rewrite (Hfresh Hfree) in Hsome. by destruct Hsome. }
  assert (∀ (d0 : Firestore) (n : jsstring) (d : Document),
            collection d0 n !! uid u = None →
            Preserved d0 (doc_set d0 n (uid u) d)) as Hset.
  { intros d0 n d Hnone coll id doc Hdoc.
    destruct (decide (n = coll)) as [->|Hn].
    - rewrite collection_doc_set_eq, lookup_insert_ne; [done|].
      intros <-. congruence.
    - by rewrite collection_doc_set_ne. }
  destruct Hstep as [|salt Hfree|salt Hfree _]; [by intros ? ? ? ?| |].
  - by apply Hset, Hfresh.
  - intros coll id doc Hdoc.
    apply Hset.
    + rewrite (collection_doc_set_ne _ USERS MERCHANTS)
        by apply users_not_merchants.
      by apply Hfresh'.
    + by apply Hset; [apply Hfresh|].
Qed.

(** ** The loop over the records *)

Lemma fold_seedStep_invariant (P : Firestore → Prop) (us : list SeedUser) :
  (∀ u db db', u ∈ us → StoreStep u db db' → P db → P db') →
  ∀ w, P (firestore w) → P (firestore (fold_left seedStep us w)).
Proof.
  induction us as [|u us IH]; intros Hstep w Hw; [done|].
  cbn [fold_left]. apply IH.
  - intros u' db db' Hu'. apply Hstep, elem_of_cons. by right.
  - eapply Hstep; [apply elem_of_cons; by left|apply seedStep_store|done].
Qed.

Lemma createTestUsers_invariant (P : Firestore → Prop) (us : list SeedUser) :
  (∀ u db db', u ∈ us → StoreStep u db db' → P db → P db') →
  ∀ w, P (firestore w) → P (firestore (snd (createTestUsers us w))).
Proof.
  intros Hstep w Hw. rewrite createTestUsers_fold. cbn [snd].
  by apply fold_seedStep_invariant.
Qed.

Lemma Preserved_trans (db1 db2 db3 : Firestore) :
  Preserved db1 db2 → Preserved db2 db3 → Preserved db1 db3.
Proof. intros H12 H23 coll id doc Hdoc. by apply H23, H12. Qed.

Lemma KeyedByEmail_one (us : list SeedUser) (u : SeedUser) (db : Firestore) :
  u ∈ us → KeyedByEmail us db → KeyedByEmail [u] db.
Proof.
  intros Hu Hkeyed u' doc ->%list_elem_of_singleton. by apply Hkeyed.
Qed.

Lemma MirrorBacked_one (us : list SeedUser) (u : SeedUser) (db : Firestore) :
  u ∈ us → MirrorBacked us db → MirrorBacked [u] db.
Proof.
  intros Hu Hbacked u' ->%list_elem_of_singleton. by apply Hbacked.
Qed.

Lemma SameKeys_one (us us' : list SeedUser) (u : SeedUser) :
  u ∈ us' → SameKeys us us' → SameKeys us [u].
Proof.
  intros Hu Hkeys u0 u' Hu0 ->%list_elem_of_singleton. by apply Hkeys.
Qed.

(** A run keeps the two key invariants of a record list [us], and under
    the invariants of the list it processes it keeps every document in
    place. *)
Lemma createTestUsers_keeps_keys (us us' : list SeedUser) (w : World) :
  Forall carriesEmail us' → SameKeys us us' →
  KeyedByEmail us (firestore w) → MirrorBacked us (firestore w) →
  let db' := firestore (snd (createTestUsers us' w)) in
  KeyedByEmail us db' ∧ MirrorBacked us db'.
Proof.
  intros Hwf Hkeys Hkeyed Hbacked.
  pose (P := λ db : Firestore, KeyedByEmail us db ∧ MirrorBacked us db).
  apply (createTestUsers_invariant P); [|by split].
  intros u db db' Hu Hstep (Hk & Hb).
  rewrite Forall_forall in Hwf. split.
  - eapply StoreStep_keyed; [by apply Hwf|by eapply SameKeys_one|done..].
  - by eapply StoreStep_backed.
Qed.

Lemma createTestUsers_preserves (us : list SeedUser) (w : World) :
  Forall carriesEmail us → SameKeys us us →
  KeyedByEmail us (firestore w) → MirrorBacked us (firestore w) →
  Preserved (firestore w) (firestore (snd (createTestUsers us w))).
Proof.
  intros Hwf Hkeys Hkeyed Hbacked.
  pose (P := λ db : Firestore,
          KeyedByEmail us db ∧ MirrorBacked us db
          ∧ Preserved (firestore w) db).
  apply (createTestUsers_invariant P); [|by repeat split; [..|intros ? ? ? ?]].
  intros u db db' Hu Hstep (Hk & Hb & Hp).
  rewrite Forall_forall in Hwf.
  repeat split.
  - eapply StoreStep_keyed; [by apply Hwf|by eapply SameKeys_one|done..].
  - by eapply StoreStep_backed.
  - eapply Preserved_trans; [done|].
    eapply StoreStep_preserved; [done|..].
    + by eapply KeyedByEmail_one.
    + by eapply MirrorBacked_one.
Qed.

Lemma createTestUsers_unique (us : list SeedUser) (w : World) :
  Forall carriesEmail us →
  UniqueEmails (firestore w) →
  UniqueEmails (firestore (snd (createTestUsers us w))).
Proof.
  intros Hwf. apply (createTestUsers_invariant UniqueEmails).
  intros u db db' Hu Hstep. rewrite Forall_forall in Hwf.
  apply (StoreStep_unique u); [by apply Hwf|done].
Qed.

(** ** The fixed records *)

Lemma testUsers_carry_email (d1 d2 d3 : N) :
  Forall carriesEmail (testUsers d1 d2 d3).
Proof. repeat constructor. Qed.

Lemma testUsers_same_keys (d1 d2 d3 e1 e2 e3 : N) :
  SameKeys (testUsers d1 d2 d3) (testUsers e1 e2 e3).
Proof.
  intros u u' Hu Hu'. unfold testUsers in *.
  rewrite !elem_of_cons, elem_of_nil in Hu, Hu'.
  destruct Hu as [->|[->|[->|[]]]], Hu' as [->|[->|[->|[]]]];
    intros Huid; try reflexivity; exfalso; vm_compute in Huid;
    discriminate Huid.
Qed.

Lemma collection_empty (n : jsstring) : collection ∅ n = ∅.
Proof. unfold collection. by rewrite lookup_empty. Qed.

Lemma Seeded_invariants (db : Firestore) :
  Seeded db →
  UniqueEmails db
  ∧ ∀ d1 d2 d3, KeyedByEmail (testUsers d1 d2 d3) db
                ∧ MirrorBacked (testUsers d1 d2 d3) db.
Proof.
  induction 1 as [|w e1 e2 e3 Hseeded [Huniq Hkeys]].
  - split; [|split].
    + intros id1 id2 doc1 doc2 v. by rewrite collection_empty, lookup_empty.
    + intros u doc _. by rewrite collection_empty, lookup_empty.
    + intros u _. rewrite collection_empty, lookup_empty. by intros [? ?].
  - split.
    + apply createTestUsers_unique; [apply testUsers_carry_email|done].
    + intros d1 d2 d3. destruct (Hkeys d1 d2 d3) as [Hk Hb].
      apply createTestUsers_keeps_keys;
        [apply testUsers_carry_email|apply testUsers_same_keys|done..].
Qed.

Lemma Seeded_preserved (w : World) (d1 d2 d3 : N) :
  Seeded (firestore w) →
  Preserved (firestore w)
            (firestore (snd (createTestUsers (testUsers d1 d2 d3) w))).
Proof.
  intros [_ Hkeys]%Seeded_invariants. destruct (Hkeys d1 d2 d3) as [Hk Hb].
  apply createTestUsers_preserves;
    [apply testUsers_carry_email|apply testUsers_same_keys|done..].
Qed.

(** ** Runs without faults, and re-runs *)

Lemma no_faults_ahead (u : SeedUser) (w : World) :
  faults w = [] →
  head_fault w = None ∧ head_fault (afterQuery u w) = None
  ∧ head_fault (afterHash u w) = None
  ∧ head_fault (afterUsersSet u w) = None.
Proof.
  intros H. unfold head_fault.
  change (faults (afterQuery u w)) with (tl (faults w)).
  change (faults (afterHash u w)) with (tl (tl (faults w))).
  change (faults (afterUsersSet u w)) with (tl (tl (tl (faults w)))).
  by rewrite H.
Qed.

Lemma seedStep_taken (u : SeedUser) (w : World) :
  head_fault w = None → emailTaken u (firestore w) →
  seedStep w u = add_console Stdout (existsLine u) (afterQuery u w).
Proof.
  intros Hq Htaken.
  destruct (seedStep_run u w); first [reflexivity|contradiction|congruence].
Qed.

Lemma seedStep_fresh (u : SeedUser) (w : World) :
  faults w = [] → ¬ emailTaken u (firestore w) →
  seedStep w u
  = add_console Stdout (createdLine u)
      (if decide (role u = js "merchant")
       then afterMerchantsSet u w else afterUsersSet u w).
Proof.
  intros Hfaults Hfree.
  destruct (no_faults_ahead u w Hfaults) as (H0 & H1 & H2 & H3).
  destruct (seedStep_run u w) as [e H|?|e ? ? H|e ? ? ? H|? ? ? ? Hr
                                  |e ? ? ? ? Hr H|? ? ? ? Hr ?];
    try contradiction; try congruence; by case_decide.
Qed.

Lemma created_plain_world (u : SeedUser) (w : World) (s : Stream) (l : jsstring) :
  let w' := add_console s l (afterUsersSet u w) in
  faults w' = tl (tl (tl (faults w)))
  ∧ firestore w'
    = doc_set (firestore w) USERS (uid u) (userData u (next_salt w)).
Proof. split; reflexivity. Qed.

Lemma created_merchant_world (u : SeedUser) (w : World) (s : Stream)
    (l : jsstring) :
  let w' := add_console s l (afterMerchantsSet u w) in
  faults w' = tl (tl (tl (tl (faults w))))
  ∧ firestore w'
    = doc_set (doc_set (firestore w) USERS (uid u) (userData u (next_salt w)))
        MERCHANTS (uid u) (userData u (next_salt w)).
Proof. split; reflexivity. Qed.

Lemma seedStep_fresh_store (u : SeedUser) (w : World) :
  faults w = [] → ¬ emailTaken u (firestore w) →
  faults (seedStep w u) = []
  ∧ firestore (seedStep w u)
    = if decide (role u = js "merchant")
      then doc_set (doc_set (firestore w) USERS (uid u)
                      (userData u (next_salt w)))
             MERCHANTS (uid u) (userData u (next_salt w))
      else doc_set (firestore w) USERS (uid u) (userData u (next_salt w)).
Proof.
  intros Hfaults Hfree. rewrite seedStep_fresh by done.
  case_decide.
  - destruct (created_merchant_world u w Stdout (createdLine u)) as [-> ->].
    by rewrite Hfaults.
  - destruct (created_plain_world u w Stdout (createdLine u)) as [-> ->].
    by rewrite Hfaults.
Qed.

Lemma first_run_store (w : World) (d1 d2 d3 : N) :
  firestore w = ∅ → faults w = [] →
  ∃ s1 s2 s3,
    firestore (snd (createTestUsers (testUsers d1 d2 d3) w))
    = seededStore d1 d2 d3 s1 s2 s3.
Proof.
  intros Hdb Hfaults.
  rewrite createTestUsers_fold. cbn [snd testUsers fold_left].
  set (w0 := add_console Stdout creatingLine w).
  assert (faults w0 = []) as Hf0 by exact Hfaults.
  assert (firestore w0 = ∅) as Hdb0 by exact Hdb.
  destruct (seedStep_fresh_store (adminUser d1) w0) as [Hf1 Hdb1];
    [done|rewrite Hdb0; by_decide|].
  rewrite decide_False in Hdb1 by by_decide. rewrite Hdb0 in Hdb1.
  set (w1 := seedStep w0 (adminUser d1)) in *.
  destruct (seedStep_fresh_store (merchantUser d2) w1) as [Hf2 Hdb2];
    [done|rewrite Hdb1; by_decide|].
  rewrite decide_True in Hdb2 by reflexivity. rewrite Hdb1 in Hdb2.
  set (w2 := seedStep w1 (merchantUser d2)) in *.
  destruct (seedStep_fresh_store (regularUser d3) w2) as [Hf3 Hdb3];
    [done|rewrite Hdb2; by_decide|].
  rewrite decide_False in Hdb3 by by_decide. rewrite Hdb2 in Hdb3.
  exists (next_salt w0), (next_salt w1), (next_salt w2).
  exact Hdb3.
Qed.

Lemma seededStore_users (d1 d2 d3 s1 s2 s3 : N) :
  collection (seededStore d1 d2 d3 s1 s2 s3) USERS
  = {[ uid (regularUser d3) := userData (regularUser d3) s3;
       uid (merchantUser d2) := userData (merchantUser d2) s2;
       uid (adminUser d1) := userData (adminUser d1) s1 ]}.
Proof.
  unfold seededStore.
  rewrite collection_doc_set_eq.
  rewrite (collection_doc_set_ne _ MERCHANTS USERS)
    by (apply not_eq_sym, users_not_merchants).
  rewrite !collection_doc_set_eq, collection_empty.
  reflexivity.
Qed.

Lemma seededStore_merchants (d1 d2 d3 s1 s2 s3 : N) :
  collection (seededStore d1 d2 d3 s1 s2 s3) MERCHANTS
  = {[ uid (merchantUser d2) := userData (merchantUser d2) s2 ]}.
Proof.
  unfold seededStore.
  rewrite (collection_doc_set_ne _ USERS MERCHANTS)
    by apply users_not_merchants.
  rewrite collection_doc_set_eq.
  rewrite !(collection_doc_set_ne _ USERS MERCHANTS)
    by apply users_not_merchants.
  rewrite collection_empty. reflexivity.
Qed.

Lemma seededStore_taken (d1 d2 d3 s1 s2 s3 e1 e2 e3 : N) (u : SeedUser) :
  u ∈ testUsers e1 e2 e3 → emailTaken u (seededStore d1 d2 d3 s1 s2 s3).
Proof.
  unfold testUsers. rewrite !elem_of_cons, elem_of_nil.
  intros [->|[->|[->|[]]]]; by_decide.
Qed.

(** When every record's email is taken, a run writes nothing, whatever the
    faults; without faults it reports each record as existing. *)
Lemma rerun_store (us : list SeedUser) (w : World) :
  (∀ u, u ∈ us → emailTaken u (firestore w)) →
  firestore (snd (createTestUsers us w)) = firestore w.
Proof.
  intros Htaken.
  apply (createTestUsers_invariant (λ db, db = firestore w)); [|done].
  intros u db db' Hu Hstep ->. apply (StoreStep_taken u); [|done].
  by apply Htaken.
Qed.

Lemma taken_world (u : SeedUser) (w : World) :
  let w' := add_console Stdout (existsLine u) (afterQuery u w) in
  faults w' = tl (faults w) ∧ firestore w' = firestore w
  ∧ console w' = console w ++ [(Stdout, existsLine u)]
  ∧ calls w' = calls w ++ [(usersQuery u, true)].
Proof. repeat split; reflexivity. Qed.

Lemma rerun_report_fold (us : list SeedUser) (w : World) :
  faults w = [] →
  (∀ u, u ∈ us → emailTaken u (firestore w)) →
  console (fold_left seedStep us w)
  = console w ++ map (λ u, (Stdout, existsLine u)) us
  ∧ calls (fold_left seedStep us w)
    = calls w ++ map (λ u, (usersQuery u, true)) us.
Proof.
  revert w. induction us as [|u us IH]; intros w Hfaults Htaken.
  - cbn [fold_left map]. by rewrite !app_nil_r.
  - cbn [fold_left map].
    assert (head_fault w = None) as Hhead
      by (unfold head_fault; by rewrite Hfaults).
    rewrite seedStep_taken; [|done|apply Htaken, elem_of_cons; by left].
    destruct (taken_world u w) as (Hf & Hdb & Hcon & Hcalls).
    destruct (IH (add_console Stdout (existsLine u) (afterQuery u w)))
      as [-> ->].
    + by rewrite Hf, Hfaults.
    + intros u' Hu'. rewrite Hdb. apply Htaken, elem_of_cons. by right.
    + by rewrite Hcon, Hcalls, <- !app_assoc.
Qed.

Lemma rerun_report (us : list SeedUser) (w : World) :
  faults w = [] →
  (∀ u, u ∈ us → emailTaken u (firestore w)) →
  console (snd (createTestUsers us w))
  = console w ++ (Stdout, creatingLine)
                 :: map (λ u, (Stdout, existsLine u)) us
  ∧ calls (snd (createTestUsers us w))
    = calls w ++ map (λ u, (usersQuery u, true)) us.
Proof.
  intros Hfaults Htaken. rewrite createTestUsers_fold. cbn [snd].
  destruct (rerun_report_fold us (add_console Stdout creatingLine w))
    as [-> ->]; [done..|].
  cbn [console calls add_console]. by rewrite <- app_assoc.
Qed.

(** ** Reading the fields of an updated world *)

Lemma process_env_add_console (s : Stream) (l : jsstring) (w : World) :
  process_env (add_console s l w) = process_env w.
Proof. reflexivity. Qed.

Lemma firestore_add_console (s : Stream) (l : jsstring) (w : World) :
  firestore (add_console s l w) = firestore w.
Proof. reflexivity. Qed.

Lemma faults_add_console (s : Stream) (l : jsstring) (w : World) :
  faults (add_console s l w) = faults w.
Proof. reflexivity. Qed.

Lemma salts_add_console (s : Stream) (l : jsstring) (w : World) :
  salts (add_console s l w) = salts w.
Proof. reflexivity. Qed.

Lemma calls_add_console (s : Stream) (l : jsstring) (w : World) :
  calls (add_console s l w) = calls w.
Proof. reflexivity. Qed.

Lemma console_add_console (s : Stream) (l : jsstring) (w : World) :
  console (add_console s l w) = console w ++ [(s, l)].
Proof. reflexivity. Qed.

Lemma process_env_add_call (c : Call) (ok : bool) (w : World) :
  process_env (add_call c ok w) = process_env w.
Proof. reflexivity. Qed.

Lemma firestore_add_call (c : Call) (ok : bool) (w : World) :
  firestore (add_call c ok w) = firestore w.
Proof. reflexivity. Qed.

Lemma faults_add_call (c : Call) (ok : bool) (w : World) :
  faults (add_call c ok w) = faults w.
Proof. reflexivity. Qed.

Lemma salts_add_call (c : Call) (ok : bool) (w : World) :
  salts (add_call c ok w) = salts w.
Proof. reflexivity. Qed.

Lemma calls_add_call (c : Call) (ok : bool) (w : World) :
  calls (add_call c ok w) = calls w ++ [(c, ok)].
Proof. reflexivity. Qed.

Lemma console_add_call (c : Call) (ok : bool) (w : World) :
  console (add_call c ok w) = console w.
Proof. reflexivity. Qed.

Lemma process_env_pop_fault (w : World) :
  process_env (pop_fault w) = process_env w.
Proof. reflexivity. Qed.

Lemma firestore_pop_fault (w : World) :
  firestore (pop_fault w) = firestore w.
Proof. reflexivity. Qed.

Lemma faults_pop_fault (w : World) :
  faults (pop_fault w) = tl (faults w).
Proof. reflexivity. Qed.

Lemma salts_pop_fault (w : World) :
  salts (pop_fault w) = salts w.
Proof. reflexivity. Qed.

Lemma calls_pop_fault (w : World) :
  calls (pop_fault w) = calls w.
Proof. reflexivity. Qed.

Lemma console_pop_fault (w : World) :
  console (pop_fault w) = console w.
Proof. reflexivity. Qed.

Lemma process_env_pop_salt (w : World) :
  process_env (pop_salt w) = process_env w.
Proof. reflexivity. Qed.

Lemma firestore_pop_salt (w : World) :
  firestore (pop_salt w) = firestore w.
Proof. reflexivity. Qed.

Lemma faults_pop_salt (w : World) :
  faults (pop_salt w) = faults w.
Proof. reflexivity. Qed.

Lemma salts_pop_salt (w : World) :
  salts (pop_salt w) = tl (salts w).
Proof. reflexivity. Qed.

Lemma calls_pop_salt (w : World) :
  calls (pop_salt w) = calls w.
Proof. reflexivity. Qed.

Lemma console_pop_salt (w : World) :
  console (pop_salt w) = console w.
Proof. reflexivity. Qed.

Lemma process_env_write_doc (coll id : jsstring) (d : Document) (w : World) :
  process_env (write_doc coll id d w) = process_env w.
Proof. reflexivity. Qed.

Lemma firestore_write_doc (coll id : jsstring) (d : Document) (w : World) :
  firestore (write_doc coll id d w) = doc_set (firestore w) coll id d.
Proof. reflexivity. Qed.

Lemma faults_write_doc (coll id : jsstring) (d : Document) (w : World) :
  faults (write_doc coll id d w) = faults w.
Proof. reflexivity. Qed.

Lemma salts_write_doc (coll id : jsstring) (d : Document) (w : World) :
  salts (write_doc coll id d w) = salts w.
Proof. reflexivity. Qed.

Lemma calls_write_doc (coll id : jsstring) (d : Document) (w : World) :
  calls (write_doc coll id d w) = calls w.
Proof. reflexivity. Qed.

Lemma console_write_doc (coll id : jsstring) (d : Document) (w : World) :
  console (write_doc coll id d w) = console w.
Proof. reflexivity. Qed.


Create Rewrite HintDb world.

#[local] Hint Rewrite process_env_add_console firestore_add_console faults_add_console salts_add_console
  calls_add_console console_add_console process_env_add_call firestore_add_call
  faults_add_call salts_add_call calls_add_call console_add_call
  process_env_pop_fault firestore_pop_fault faults_pop_fault salts_pop_fault
  calls_pop_fault console_pop_fault process_env_pop_salt firestore_pop_salt
  faults_pop_salt salts_pop_salt calls_pop_salt console_pop_salt
  process_env_write_doc firestore_write_doc faults_write_doc salts_write_doc
  calls_write_doc console_write_doc : world.

Ltac world_simpl :=
  unfold afterMerchantsSet, afterUsersSet, afterHash, afterQuery, returned,
    threw, id;
  autorewrite with world.

Lemma RecordRun_calls (u : SeedUser) (w w' : World) :
  RecordRun u w w' →
  ∃ new, calls w' = calls w ++ new ∧ RecordCalls u (next_salt w) new.
Proof.
  destruct 1 as [e ?|? ?|e ? ? ?|e ? ? ? ?|? ? ? ? Hrole|e ? ? ? ? Hrole ?
                 |? ? ? ? Hrole ?].
  - exists [(usersQuery u, false)].
    split; [by world_simpl|]. apply calls_query_threw.
  - exists [(usersQuery u, true)].
    split; [by world_simpl|]. apply calls_already_exists.
  - exists [(usersQuery u, true); (CallHash (password u) 12, false)].
    split; [world_simpl; by rewrite <- !app_assoc|]. apply calls_hash_threw.
  - exists [(usersQuery u, true); (CallHash (password u) 12, true);
            (usersSet u w, false)].
    split; [world_simpl; by rewrite <- !app_assoc|].
    apply calls_users_set_threw.
  - exists [(usersQuery u, true); (CallHash (password u) 12, true);
            (usersSet u w, true)].
    split; [world_simpl; by rewrite <- !app_assoc|].
    by apply calls_created_plain.
  - exists [(usersQuery u, true); (CallHash (password u) 12, true);
            (usersSet u w, true); (merchantsSet u w, false)].
    split; [world_simpl; by rewrite <- !app_assoc|].
    by apply calls_merchants_set_threw.
  - exists [(usersQuery u, true); (CallHash (password u) 12, true);
            (usersSet u w, true); (merchantsSet u w, true)].
    split; [world_simpl; by rewrite <- !app_assoc|].
    by apply calls_created_merchant.
Qed.

Lemma RecordRun_frame (u : SeedUser) (w w' : World) :
  RecordRun u w w' → process_env w' = process_env w.
Proof. destruct 1; by world_simpl. Qed.

Lemma head_fault_in (w : World) (e : JsError) :
  head_fault w = Some e → Some e ∈ faults w.
Proof.
  unfold head_fault. destruct (faults w) as [|f fs]; [done|].
  cbn [hd]. intros ->. apply elem_of_cons. by left.
Qed.

Lemma elem_of_tl {A} (x : A) (l : list A) : x ∈ tl l → x ∈ l.
Proof.
  destruct l as [|y l]; [done|]. cbn [tl]. intros H.
  apply elem_of_cons. by right.
Qed.

(** Whichever call of a record throws, the error thrown is logged on the
    error stream with the email of the record, and nothing else is logged
    for the record; when no call throws one line goes to the output
    stream. *)
Lemma RecordRun_console (u : SeedUser) (w w' : World) :
  RecordRun u w w' →
  ∀ new, calls w' = calls w ++ new →
    (Forall (λ c, c.2 = true) new
     ∧ ∃ line, console w' = console w ++ [(Stdout, line)])
    ∨ (∃ e c pre, new = pre ++ [(c, false)] ∧ Forall (λ c, c.2 = true) pre
       ∧ Some e ∈ faults w
       ∧ console w' = console w ++ [(Stderr, failedLine u e)]).
Proof.
  intros Hrun new Hnew.
  destruct Hrun as [e He|? ?|e ? ? He|e ? ? ? He|? ? ? ? Hrole
                    |e ? ? ? ? Hrole He|? ? ? ? Hrole ?];
    revert Hnew; world_simpl; rewrite <- ?app_assoc; cbn [app];
    intros <-%app_inv_head.
  - right. exists e, (usersQuery u), [].
    split; [done|]. split; [constructor|]. split; [|done].
    by apply head_fault_in.
  - left. split; [by repeat constructor|]. by eexists.
  - right. exists e, (CallHash (password u) 12), [(usersQuery u, true)].
    split; [done|]. split; [by repeat constructor|]. split; [|done].
    apply head_fault_in in He. revert He. world_simpl. apply elem_of_tl.
  - right. exists e, (usersSet u w),
      [(usersQuery u, true); (CallHash (password u) 12, true)].
    split; [done|]. split; [by repeat constructor|]. split; [|done].
    apply head_fault_in in He. revert He. world_simpl.
    intros He. by do 2 apply elem_of_tl.
  - left. split; [by repeat constructor|]. by eexists.
  - right. exists e, (merchantsSet u w),
      [(usersQuery u, true); (CallHash (password u) 12, true);
       (usersSet u w, true)].
    split; [done|]. split; [by repeat constructor|]. split; [|done].
    apply head_fault_in in He. revert He. world_simpl.
    intros He. by do 3 apply elem_of_tl.
  - left. split; [by repeat constructor|]. by eexists.
Qed.

(** ** Records whose calls throw *)

Lemma seedStep_query_threw (u : SeedUser) (w : World) (e : JsError) :
  head_fault w = Some e →
  seedStep w u = add_console Stderr (failedLine u e) (threw (usersQuery u) w).
Proof.
  intros H. destruct (seedStep_run u w); first [congruence|contradiction].
Qed.

Lemma seedStep_hash_threw (u : SeedUser) (w : World) (e : JsError) :
  head_fault w = None → ¬ emailTaken u (firestore w) →
  head_fault (afterQuery u w) = Some e →
  seedStep w u
  = add_console Stderr (failedLine u e)
      (threw (CallHash (password u) 12) (afterQuery u w)).
Proof.
  intros H0 Hfree H1.
  destruct (seedStep_run u w); first [congruence|contradiction].
Qed.

Lemma seedStep_users_set_threw (u : SeedUser) (w : World) (e : JsError) :
  head_fault w = None → ¬ emailTaken u (firestore w) →
  head_fault (afterQuery u w) = None →
  head_fault (afterHash u w) = Some e →
  seedStep w u
  = add_console Stderr (failedLine u e) (threw (usersSet u w) (afterHash u w)).
Proof.
  intros H0 Hfree H1 H2.
  destruct (seedStep_run u w); first [congruence|contradiction].
Qed.

Lemma seedStep_merchants_set_threw (u : SeedUser) (w : World) (e : JsError) :
  head_fault w = None → ¬ emailTaken u (firestore w) →
  head_fault (afterQuery u w) = None →
  head_fault (afterHash u w) = None →
  role u = js "merchant" →
  head_fault (afterUsersSet u w) = Some e →
  seedStep w u
  = add_console Stderr (failedLine u e)
      (threw (merchantsSet u w) (afterUsersSet u w)).
Proof.
  intros H0 Hfree H1 H2 Hrole H3.
  destruct (seedStep_run u w); first [congruence|contradiction].
Qed.

(** The three ways the creation of a record can fail before anything is
    written, as fault plans: the query, the hash or the users write throws
    and no later call does. *)
Lemma seedStep_failed_early (u : SeedUser) (w : World) (e : JsError)
    (plan : list (option JsError)) :
  plan ∈ [[Some e]; [None; Some e]; [None; None; Some e]] →
  faults w = plan → ¬ emailTaken u (firestore w) →
  let w' := seedStep w u in
  faults w' = [] ∧ firestore w' = firestore w
  ∧ console w' = console w ++ [(Stderr, failedLine u e)].
Proof.
  rewrite !elem_of_cons, elem_of_nil.
  intros [->|[->|[->|[]]]] Hplan Hfree w'; subst w'.
  - rewrite (seedStep_query_threw u w e)
      by (unfold head_fault; by rewrite Hplan).
    world_simpl. by rewrite Hplan.
  - rewrite (seedStep_hash_threw u w e);
      [|unfold head_fault; by rewrite Hplan|done
       |unfold head_fault; world_simpl; by rewrite Hplan].
    world_simpl. by rewrite Hplan.
  - rewrite (seedStep_users_set_threw u w e);
      [|unfold head_fault; by rewrite Hplan|done
       |unfold head_fault; world_simpl; by rewrite Hplan
       |unfold head_fault; world_simpl; by rewrite Hplan].
    world_simpl. by rewrite Hplan.
Qed.

(** After the first record has failed, the second and the third are
    created when their own calls succeed. *)
Lemma first_record_failed_store (w : World) (d1 d2 d3 : N) (e : JsError)
    (plan : list (option JsError)) :
  plan ∈ [[Some e]; [None; Some e]; [None; None; Some e]] →
  firestore w = ∅ → faults w = plan →
  ∃ s2 s3,
    firestore (snd (createTestUsers (testUsers d1 d2 d3) w))
    = doc_set
        (doc_set
           (doc_set ∅ USERS (uid (merchantUser d2))
              (userData (merchantUser d2) s2))
           MERCHANTS (uid (merchantUser d2)) (userData (merchantUser d2) s2))
        USERS (uid (regularUser d3)) (userData (regularUser d3) s3).
Proof.
  intros Hplan Hdb Hfaults.
  rewrite createTestUsers_fold. cbn [snd testUsers fold_left].
  set (w0 := add_console Stdout creatingLine w).
  assert (faults w0 = plan) as Hf0 by exact Hfaults.
  assert (firestore w0 = ∅) as Hdb0 by exact Hdb.
  destruct (seedStep_failed_early (adminUser d1) w0 e plan Hplan Hf0)
    as (Hf1 & Hdb1 & _); [rewrite Hdb0; by_decide|].
  rewrite Hdb0 in Hdb1.
  set (w1 := seedStep w0 (adminUser d1)) in *.
  destruct (seedStep_fresh_store (merchantUser d2) w1) as [Hf2 Hdb2];
    [done|rewrite Hdb1; by_decide|].
  rewrite decide_True in Hdb2 by reflexivity. rewrite Hdb1 in Hdb2.
  set (w2 := seedStep w1 (merchantUser d2)) in *.
  destruct (seedStep_fresh_store (regularUser d3) w2) as [Hf3 Hdb3];
    [done|rewrite Hdb2; by_decide|].
  rewrite decide_False in Hdb3 by by_decide. rewrite Hdb2 in Hdb3.
  by exists (next_salt w1), (next_salt w2).
Qed.

(** Every record of the list is attempted: its existence check is among the
    calls of the run, whatever the faults. *)
Lemma fold_seedStep_attempts (us : list SeedUser) (w : World) :
  ∃ new, calls (fold_left seedStep us w) = calls w ++ new
         ∧ ∀ u, u ∈ us → ∃ ok, (usersQuery u, ok) ∈ new.
Proof.
  revert w. induction us as [|u us IH]; intros w.
  - exists []. split; [by rewrite app_nil_r|]. by intros u ?%elem_of_nil.
  - cbn [fold_left].
    destruct (RecordRun_calls u w _ (seedStep_run u w))
      as (new1 & Hnew1 & Hshape).
    destruct (IH (seedStep w u)) as (new2 & Hnew2 & Hall).
    exists (new1 ++ new2). split; [by rewrite Hnew2, Hnew1, app_assoc|].
    intros u' [->|Hu']%elem_of_cons.
    + assert (∃ ok, (usersQuery u, ok) ∈ new1) as [ok Hok].
      { destruct Hshape; eexists; apply elem_of_cons; by left. }
      exists ok. apply elem_of_app. by left.
    + destruct (Hall u' Hu') as [ok Hok]. exists ok.
      apply elem_of_app. by right.
Qed.

(** ** The report and [main] *)

Lemma for_of_console_log (ls : list jsstring) (w : World) :
  for_of ls console_log w = (Return tt, log_lines ls w).
Proof.
  revert w. induction ls as [|l ls IH]; intros w; [done|].
  cbn [for_of]. unfold mbind, M_bind, console_log at 1, modify.
  by rewrite IH.
Qed.

Lemma log_lines_fields (ls : list jsstring) (w : World) :
  console (log_lines ls w) = console w ++ map (pair Stdout) ls
  ∧ calls (log_lines ls w) = calls w
  ∧ firestore (log_lines ls w) = firestore w
  ∧ process_env (log_lines ls w) = process_env w.
Proof.
  revert w. induction ls as [|l ls IH]; intros w.
  - cbn [log_lines fold_left map]. by rewrite app_nil_r.
  - change (log_lines (l :: ls) w)
      with (log_lines ls (add_console Stdout l w)).
    destruct (IH (add_console Stdout l w)) as (-> & -> & -> & ->).
    world_simpl. cbn [map]. by rewrite <- app_assoc.
Qed.

Lemma displayCredentials_run (w : World) :
  displayCredentials w
  = (Return tt, log_lines (credentialLines (process_env w)) w).
Proof.
  unfold displayCredentials, mbind, M_bind, gets.
  by rewrite for_of_console_log.
Qed.

Lemma fold_seedStep_frame (us : list SeedUser) (w : World) :
  process_env (fold_left seedStep us w) = process_env w.
Proof.
  revert w. induction us as [|u us IH]; intros w; [done|].
  cbn [fold_left]. rewrite IH. apply (RecordRun_frame u), seedStep_run.
Qed.

Lemma createTestUsers_frame (us : list SeedUser) (w : World) :
  process_env (snd (createTestUsers us w)) = process_env w.
Proof.
  rewrite createTestUsers_fold. cbn [snd]. by rewrite fold_seedStep_frame.
Qed.

(** [main] returns, with the report and the closing lines after what the
    seeding logged, whatever happened to the records. *)
Lemma main_run (us : list SeedUser) (w : World) :
  main us w
  = (Return tt,
     log_lines completionLines
       (log_lines (credentialLines (process_env w))
          (snd (createTestUsers us w)))).
Proof.
  unfold main, try_catch, mbind, M_bind.
  rewrite createTestUsers_fold, displayCredentials_run, for_of_console_log.
  cbn [snd]. by rewrite fold_seedStep_frame.
Qed.

(** ** The bootstrap and the whole script *)

Lemma loadEnv_run (w : World) :
  (∀ e, envFile w ≠ Unreadable e) →
  ∃ w', loadEnv w = (Return tt, w')
        ∧ calls w' = calls w ∧ firestore w' = firestore w
        ∧ faults w' = faults w.
Proof.
  intros Hfile. unfold loadEnv, loadEnvFile, mbind, M_bind, gets.
  destruct (envFile w) as [|envContent|e]; [| |by destruct (Hfile e)];
    by eexists.
Qed.

Lemma banner_run (w : World) :
  ∃ w', banner w = (Return tt, w')
        ∧ calls w' = calls w ∧ firestore w' = firestore w
        ∧ faults w' = faults w ∧ process_env w' = process_env w.
Proof. by eexists. Qed.

(** The [try] block of the bootstrap throws or returns; when it throws it
    has changed nothing, and when it returns it has only logged. *)
Lemma initializeFirebaseAdmin_try_run (w : World) :
  (∃ e, initializeFirebaseAdmin_try w = (Throw e, w))
  ∨ initializeFirebaseAdmin_try w
    = (Return tt,
       add_console Stdout
         (CHECK_MARK ++ js " Firebase Admin initialized successfully") w).
Proof.
  unfold initializeFirebaseAdmin_try, mbind, M_bind, gets.
  destruct getApps as [|app0 apps].
  - destruct (process_env w !! js "FIREBASE_PRIVATE_KEY") as [k|];
      [|left; by eexists].
    cbn [mret M_ret].
    destruct (cert _) as [e|credential]; [left; by eexists|].
    cbn [lift_sum mret M_ret].
    destruct (initializeApp credential) as [e|app]; [left; by eexists|].
    cbn [lift_sum mret M_ret].
    destruct (getFirestore app) as [e|[]]; [left; by eexists|].
    by right.
  - cbn [mret M_ret].
    destruct (getFirestore app0) as [e|[]]; [left; by eexists|].
    by right.
Qed.

Lemma new_Date_run (w : World) :
  ∃ d w', new_Date w = (Return d, w')
          ∧ calls w' = calls w ∧ firestore w' = firestore w
          ∧ faults w' = faults w ∧ process_env w' = process_env w
          ∧ console w' = console w.
Proof.
  unfold new_Date. destruct (dates w) as [|d ds]; by eexists _, _.
Qed.

Lemma initializeFirebaseAdmin_try_env (w1 w2 : World) :
  process_env w1 = process_env w2 →
  fst (initializeFirebaseAdmin_try w1) = fst (initializeFirebaseAdmin_try w2).
Proof.
  intros Henv.
  unfold initializeFirebaseAdmin_try, mbind, M_bind, gets.
  destruct getApps as [|app0 apps].
  - rewrite Henv.
    destruct (process_env w2 !! js "FIREBASE_PRIVATE_KEY") as [k|]; [|done].
    cbn [mret M_ret].
    destruct (cert _) as [e|credential]; [done|].
    cbn [lift_sum mret M_ret].
    destruct (initializeApp credential) as [e|app]; [done|].
    cbn [lift_sum mret M_ret].
    by destruct (getFirestore app) as [e|[]].
  - cbn [mret M_ret]. by destruct (getFirestore app0) as [e|[]].
Qed.

Lemma initializeFirebaseAdmin_env (w1 w2 : World) :
  process_env w1 = process_env w2 →
  fst (initializeFirebaseAdmin w1) = fst (initializeFirebaseAdmin w2).
Proof.
  intros Henv. unfold initializeFirebaseAdmin, try_catch.
  pose proof (initializeFirebaseAdmin_try_env w1 w2 Henv) as Hfst.
  destruct (initializeFirebaseAdmin_try_run w1) as [[e1 H1]| H1],
           (initializeFirebaseAdmin_try_run w2) as [[e2 H2]| H2];
    rewrite H1, H2 in *; cbn [fst] in Hfst; by simplify_eq.
Qed.

(** C7.  When the settings file does not exist the loader returns the empty
    mapping and its only effect is the diagnostic on the error stream: it
    does not throw.  The merge then leaves the ambient configuration as it
    was, so the bootstrap succeeds or fails exactly as it does on the
    ambient configuration. *)
Theorem missing_env_file_is_not_fatal (w : World) :
  envFile w = Missing →
  loadEnvFile w
  = (Return ∅, add_console Stderr (CROSS_MARK ++ js " .env file not found") w)
  ∧ (∃ w', loadEnv w = (Return tt, w') ∧ process_env w' = process_env w)
  ∧ fst (initializeFirebaseAdmin (snd (banner (snd (loadEnv w)))))
    = fst (initializeFirebaseAdmin w).
Proof.
  intros Hfile.
  assert (loadEnvFile w
          = (Return ∅,
             add_console Stderr (CROSS_MARK ++ js " .env file not found") w))
    as Hload.
  { unfold loadEnvFile, mbind, M_bind, gets. by rewrite Hfile. }
  assert (∃ w', loadEnv w = (Return tt, w') ∧ process_env w' = process_env w)
    as (w' & Hw' & Henv).
  { unfold loadEnv, mbind, M_bind. rewrite Hload. eexists. split; [done|].
    unfold modify. cbn [snd process_env set_process_env add_console].
    apply Object_assign_empty. }
  split; [done|]. split; [by exists w'|].
  rewrite Hw'. cbn [snd]. apply initializeFirebaseAdmin_env.
  destruct (banner_run w') as (w'' & -> & _ & _ & _ & Hb).
  cbn [snd]. by rewrite Hb.
Qed.


(** C9, as amended.  [main] always returns, and after whatever the seeding
    logged, for any outcome of the records, it prints the same report
    followed by the closing lines.  The report has, for each of the three
    records, the line of its email, of its plaintext password and of the
    URL of its role, and the line of the admin key: the value of
    [ADMIN_MASTER_KEY] in the configuration when that value is a non-empty
    string, and ['admin123'] when the entry is unset or is the empty
    string. *)
Theorem credential_report (us : list SeedUser) (w : World) (d1 d2 d3 : N)
    (u : SeedUser) :
  u ∈ testUsers d1 d2 d3 →
  let seeded := snd (createTestUsers us w) in
  let penv := process_env w in
  main us w
  = (Return tt,
     log_lines completionLines (log_lines (credentialLines penv) seeded))
  ∧ console (snd (main us w))
    = console seeded ++ map (pair Stdout) (credentialLines penv)
      ++ map (pair Stdout) completionLines
  ∧ (js "   Email: " ++ email u) ∈ credentialLines penv
  ∧ (js "   Password: " ++ password u) ∈ credentialLines penv
  ∧ (js "   URL: http://localhost:3000/auth/" ++ role u ++ [LF])
    ∈ credentialLines penv
  ∧ (js "   Admin Key: " ++ adminKey penv) ∈ credentialLines penv
  ∧ adminKey penv
    = match penv !! js "ADMIN_MASTER_KEY" with
      | Some (c :: k) => c :: k
      | Some [] | None => js "admin123"
      end.
Proof.
  intros Hu seeded penv. subst seeded penv.
  set (seeded := snd (createTestUsers us w)).
  set (penv := process_env w).
  split; [apply main_run|].
  split.
  { rewrite main_run. cbn [snd]. fold seeded penv.
    destruct (log_lines_fields completionLines
                (log_lines (credentialLines penv) seeded)) as [-> _].
    destruct (log_lines_fields (credentialLines penv) seeded) as [-> _].
    by rewrite <- app_assoc. }
  assert (∀ (l : jsstring) (i : nat),
            credentialLines penv !! i = Some l → l ∈ credentialLines penv)
    as Hline by (intros l i; apply list_elem_of_lookup_2).
  unfold testUsers in Hu. rewrite !elem_of_cons, elem_of_nil in Hu.
  repeat split.
  - destruct Hu as [->|[->|[->|[]]]];
      [by apply (Hline _ 3%nat)|by apply (Hline _ 8%nat)
      |by apply (Hline _ 12%nat)].
  - destruct Hu as [->|[->|[->|[]]]];
      [by apply (Hline _ 4%nat)|by apply (Hline _ 9%nat)
      |by apply (Hline _ 13%nat)].
  - destruct Hu as [->|[->|[->|[]]]];
      [by apply (Hline _ 6%nat)|by apply (Hline _ 10%nat)
      |by apply (Hline _ 14%nat)].
  - by apply (Hline _ 5%nat).
  - apply adminKey_rule.
Qed.

(** ** What the calls of a record are *)

Ltac calls_cases :=
  unfold usersQuery in *;
  repeat match goal with
    | H : _ ∈ _ :: _ |- _ => apply elem_of_cons in H as [H|H]
    | H : _ ∈ [] |- _ => by apply elem_of_nil in H
    | H : (_, _) = (_, _) |- _ => inversion H; clear H; subst
    | H : USERS = MERCHANTS |- _ => by destruct users_not_merchants
    | H : MERCHANTS = USERS |- _ => by destruct users_not_merchants
    | H : true = false |- _ => discriminate H
    | H : false = true |- _ => discriminate H
    end.

Lemma RecordCalls_get (u : SeedUser) (salt : N) (new : list (Call * bool))
    (coll field : jsstring) (v : JsValue) (ok : bool) :
  RecordCalls u salt new → (CallGet coll field v, ok) ∈ new →
  coll = USERS ∧ field = js "email" ∧ v = VStr (email u).
Proof. intros Hshape Hin. destruct Hshape; calls_cases; by subst. Qed.

Lemma RecordCalls_set (u : SeedUser) (salt : N) (new : list (Call * bool))
    (coll id : jsstring) (doc : Document) (ok : bool) :
  RecordCalls u salt new → (CallSet coll id doc, ok) ∈ new →
  id = uid u ∧ doc = userData u salt
  ∧ (CallHash (password u) 12, true) ∈ new.
Proof.
  intros Hshape Hin.
  destruct Hshape; calls_cases; subst; (split; [done|split; [done|]]);
    apply elem_of_cons; right; apply elem_of_cons; by left.
Qed.

Lemma RecordCalls_merchants_set (u : SeedUser) (salt : N)
    (new : list (Call * bool)) (id : jsstring) (doc : Document) (ok : bool) :
  RecordCalls u salt new → (CallSet MERCHANTS id doc, ok) ∈ new →
  role u = js "merchant"
  ∧ ∃ pre, new = pre ++ [(CallSet USERS id doc, true);
                         (CallSet MERCHANTS id doc, ok)].
Proof.
  intros Hshape Hin.
  destruct Hshape; calls_cases; subst; (split; [done|]);
    by exists [(CallGet (js "users") (js "email") (VStr (email u)), true);
               (CallHash (password u) 12, true)].
Qed.

Lemma RecordCalls_users_set (u : SeedUser) (salt : N)
    (new : list (Call * bool)) (id : jsstring) (doc : Document) :
  RecordCalls u salt new → (CallSet USERS id doc, true) ∈ new →
  role u = js "merchant" →
  ∃ ok pre, new = pre ++ [(CallSet USERS id doc, true);
                          (CallSet MERCHANTS id doc, ok)].
Proof.
  intros Hshape Hin Hrole.
  destruct Hshape; calls_cases; subst; try contradiction;
    [exists false|exists true];
    by exists [(CallGet (js "users") (js "email") (VStr (email u)), true);
               (CallHash (password u) 12, true)].
Qed.

Lemma seedStep_calls (u : SeedUser) (w : World) :
  ∃ new, calls (seedStep w u) = calls w ++ new
         ∧ RecordCalls u (next_salt w) new.
Proof. apply RecordRun_calls, seedStep_run. Qed.

(** ** Documents and passwords *)

Lemma seedStep_docs (u : SeedUser) (w : World) (coll id : jsstring)
    (doc : Document) :
  collection (firestore (seedStep w u)) coll !! id = Some doc →
  collection (firestore w) coll !! id = Some doc
  ∨ doc = userData u (next_salt w).
Proof.
  pose proof (seedStep_run u w) as Hrun. revert Hrun.
  generalize (seedStep w u). intros w' Hrun.
  assert (∀ (db : Firestore) (n : jsstring),
            collection (doc_set db n (uid u) (userData u (next_salt w))) coll
              !! id = Some doc →
            collection db coll !! id = Some doc
            ∨ doc = userData u (next_salt w)) as Hset.
  { intros db n. destruct (decide (n = coll)) as [->|Hn].
    - rewrite collection_doc_set_eq, lookup_insert.
      case_decide; [intros [= <-]; by right|by left].
    - rewrite collection_doc_set_ne by done. by left. }
  destruct Hrun; world_simpl; try (by left); try apply Hset.
  intros Hin. apply Hset in Hin as [Hin|Hin]; [by apply Hset in Hin|by right].
Qed.

Lemma testUsers_plaintext_absent (d1 d2 d3 : N) (u : SeedUser) :
  u ∈ testUsers d1 d2 d3 →
  length (password u) ≠ 60%nat
  ∧ map_Forall (λ _ v, v ≠ VStr (password u)) (data u).
Proof.
  unfold testUsers. rewrite !elem_of_cons, elem_of_nil.
  intros [->|[->|[->|[]]]]; (split; [by_decide|]); by_decide.
Qed.

(** C2.  Let bcrypt return its sixty-character strings.  Whatever one of
    the three records writes, into either collection, is its profile data
    with a [password] field holding the hash bcrypt computed from the
    plaintext with cost 12, after that hash call returned; a document found
    in the database after the record was processed is one that was there
    before, or that document.  The hash differs from the plaintext, and no
    field of the document holds the plaintext. *)
Theorem password_confidentiality (d1 d2 d3 : N) (u : SeedUser) (w : World) :
  (∀ p c s, length (bcrypt_hash p c s) = 60%nat) →
  u ∈ testUsers d1 d2 d3 →
  let hashed := bcrypt_hash (password u) 12 (next_salt w) in
  let written := <[js "password" := VStr hashed]> (data u) in
  (∃ new, calls (seedStep w u) = calls w ++ new
          ∧ ∀ coll id doc ok, (CallSet coll id doc, ok) ∈ new →
              (CallHash (password u) 12, true) ∈ new ∧ doc = written)
  ∧ (∀ coll id doc,
       collection (firestore (seedStep w u)) coll !! id = Some doc →
       collection (firestore w) coll !! id = Some doc ∨ doc = written)
  ∧ written !! js "password" = Some (VStr hashed)
  ∧ hashed ≠ password u
  ∧ ∀ field, written !! field ≠ Some (VStr (password u)).
Proof.
  intros Hlen Hu hashed written.
  destruct (testUsers_plaintext_absent d1 d2 d3 u Hu) as [Hpw Hdata].
  assert (hashed ≠ password u) as Hne.
  { intros Heq. apply Hpw. rewrite <- Heq. apply Hlen. }
  split; [|split; [|split; [|split; [done|]]]].
  - destruct (seedStep_calls u w) as (new & Hnew & Hshape).
    exists new. split; [done|]. intros coll id doc ok Hin.
    destruct (RecordCalls_set u _ new coll id doc ok Hshape Hin)
      as (_ & -> & Hhash).
    done.
  - intros coll id doc. apply seedStep_docs.
  - apply lookup_insert_eq.
  - intros field. unfold written. rewrite lookup_insert.
    case_decide; [congruence|]. intros Hfield.
    by apply (Hdata field (VStr (password u))).
Qed.

(** ** The mirror write *)

Lemma StoreStep_merchants (u : SeedUser) (db db' : Firestore) :
  StoreStep u db db' → role u ≠ js "merchant" →
  collection db' MERCHANTS = collection db MERCHANTS.
Proof.
  intros [|salt _|salt _ Hrole] Hplain; [done| |contradiction].
  by rewrite (collection_doc_set_ne _ USERS MERCHANTS)
    by apply users_not_merchants.
Qed.

Lemma StoreStep_mirror_key (u : SeedUser) (db db' : Firestore) (id : jsstring) :
  StoreStep u db db' → id ≠ uid u →
  collection db' MERCHANTS !! id = collection db MERCHANTS !! id.
Proof.
  intros [|salt _|salt _ Hrole] Hid; [done| |].
  - by rewrite (collection_doc_set_ne _ USERS MERCHANTS)
      by apply users_not_merchants.
  - rewrite collection_doc_set_eq, lookup_insert_ne by done.
    by rewrite (collection_doc_set_ne _ USERS MERCHANTS)
      by apply users_not_merchants.
Qed.

Lemma testUsers_merchant (d1 d2 d3 : N) (u : SeedUser) :
  u ∈ testUsers d1 d2 d3 → (role u = js "merchant" ↔ u = merchantUser d2).
Proof.
  unfold testUsers. rewrite !elem_of_cons, elem_of_nil.
  intros [->|[->|[->|[]]]]; split; intros H; try reflexivity; exfalso.
  - vm_compute in H. discriminate H.
  - apply (f_equal role) in H. vm_compute in H. discriminate H.
  - vm_compute in H. discriminate H.
  - apply (f_equal role) in H. vm_compute in H. discriminate H.
Qed.

Lemma seedStep_mirrored (u : SeedUser) (w : World) (new : list (Call * bool))
    (doc : Document) :
  calls (seedStep w u) = calls w ++ new →
  (CallSet MERCHANTS (uid u) doc, true) ∈ new →
  collection (firestore (seedStep w u)) USERS !! uid u = Some doc
  ∧ collection (firestore (seedStep w u)) MERCHANTS !! uid u = Some doc.
Proof.
  pose proof (seedStep_run u w) as Hrun. revert Hrun.
  generalize (seedStep w u). intros w' Hrun Hnew.
  destruct Hrun as [e He|? ?|e ? ? He|e ? ? ? He|? ? ? ? Hrole
                    |e ? ? ? ? Hrole He|? ? ? ? Hrole ?];
    revert Hnew; world_simpl; rewrite <- ?app_assoc; cbn [app];
    intros <-%app_inv_head Hin; unfold usersSet, merchantsSet in Hin;
    calls_cases.
  rewrite collection_doc_set_eq, lookup_insert_eq.
  rewrite (collection_doc_set_ne _ MERCHANTS USERS)
    by (apply not_eq_sym, users_not_merchants).
  by rewrite collection_doc_set_eq, lookup_insert_eq.
Qed.

(** A record whose email is free and whose check, hash and users write
    return: the world after it, by its role and the outcome of the mirror
    write. *)
Lemma three_calls_ahead (u : SeedUser) (w : World) :
  (∀ e, Some e ∉ take 3 (faults w)) →
  head_fault w = None ∧ head_fault (afterQuery u w) = None
  ∧ head_fault (afterHash u w) = None.
Proof.
  intros Hplan. unfold head_fault.
  change (faults (afterQuery u w)) with (tl (faults w)).
  change (faults (afterHash u w)) with (tl (tl (faults w))).
  assert (∀ e, Some e ∈ take 3 (faults w) → False) as Hnone
    by (intros e; apply Hplan).
  repeat split.
  - destruct (faults w) as [|[e|] plan]; cbn [hd]; [done| |done].
    destruct (Hnone e). cbn [take]. rewrite !elem_of_cons. auto.
  - destruct (faults w) as [|f1 [|[e|] plan]]; cbn [hd tl]; [done..| |done].
    destruct (Hnone e). cbn [take]. rewrite !elem_of_cons. auto.
  - destruct (faults w) as [|f1 [|f2 [|[e|] plan]]]; cbn [hd tl];
      [done..| |done].
    destruct (Hnone e). cbn [take]. rewrite !elem_of_cons. auto.
Qed.

Lemma fourth_call_ahead (u : SeedUser) (w : World) :
  (∀ e, Some e ∉ take 4 (faults w)) →
  (∀ e, Some e ∉ take 3 (faults w))
  ∧ head_fault (afterUsersSet u w) = None.
Proof.
  intros Hplan. split.
  - intros e Hin. apply (Hplan e).
    revert Hin.
    destruct (faults w) as [|f1 [|f2 [|f3 [|f4 plan]]]]; cbn [take];
      rewrite ?elem_of_cons; intros Hin; clear -Hin; tauto.
  - unfold head_fault.
    change (faults (afterUsersSet u w)) with (tl (tl (tl (faults w)))).
    destruct (faults w) as [|f1 [|f2 [|f3 [|[e|] plan]]]]; cbn [hd tl];
      try reflexivity.
    exfalso. apply (Hplan e). cbn [take]. rewrite !elem_of_cons. auto.
Qed.

Lemma seedStep_fresh_merchant (u : SeedUser) (w : World) :
  role u = js "merchant" → ¬ emailTaken u (firestore w) →
  (∀ e, Some e ∉ take 3 (faults w)) →
  seedStep w u
  = match head_fault (afterUsersSet u w) with
    | Some e => add_console Stderr (failedLine u e)
                  (threw (merchantsSet u w) (afterUsersSet u w))
    | None => add_console Stdout (createdLine u) (afterMerchantsSet u w)
    end.
Proof.
  intros Hrole Hfree Hplan.
  destruct (three_calls_ahead u w Hplan) as (H0 & H1 & H2).
  destruct (seedStep_run u w) as [e H|?|e ? ? H|e ? ? ? H|? ? ? ? Hr
                                  |e ? ? ? ? Hr H|? ? ? ? Hr H];
    try contradiction; try congruence; by rewrite H.
Qed.

Lemma seedStep_fresh_merchant_calls (u : SeedUser) (w : World) :
  role u = js "merchant" → ¬ emailTaken u (firestore w) →
  (∀ e, Some e ∉ take 3 (faults w)) →
  let doc := userData u (next_salt w) in
  (∃ ok, calls (seedStep w u)
         = calls w ++ [(usersQuery u, true); (CallHash (password u) 12, true);
                       (CallSet USERS (uid u) doc, true);
                       (CallSet MERCHANTS (uid u) doc, ok)]
         ∧ (head_fault (afterUsersSet u w) = None → ok = true))
  ∧ collection (firestore (seedStep w u)) USERS !! uid u = Some doc
  ∧ (head_fault (afterUsersSet u w) = None →
     collection (firestore (seedStep w u)) MERCHANTS !! uid u = Some doc).
Proof.
  intros Hrole Hfree Hplan doc.
  rewrite (seedStep_fresh_merchant u w Hrole Hfree Hplan).
  destruct (head_fault (afterUsersSet u w)) as [e|]; world_simpl.
  - split; [|split; [|done]].
    + exists false. by rewrite <- !app_assoc.
    + by rewrite collection_doc_set_eq, lookup_insert_eq.
  - split; [|split].
    + exists true. by rewrite <- !app_assoc.
    + rewrite (collection_doc_set_ne _ MERCHANTS USERS)
        by (apply not_eq_sym, users_not_merchants).
      by rewrite collection_doc_set_eq, lookup_insert_eq.
    + intros _. by rewrite collection_doc_set_eq, lookup_insert_eq.
Qed.

(** C3.  Among the three records the merchant record is the one whose role
    is [merchant].  A record of another role makes no write into the
    merchants collection and leaves that collection as it was.  For the
    merchant record, a users write that returned is followed at once by
    the write of the same document under the same uid into the merchants
    collection, every merchants write comes that way, and once it has
    returned both collections hold that document under the uid.  The
    merchant record does produce that second write: when its email is free
    and its check, its hash and its users write return, its calls are the
    check, the hash, the users write and the merchants write of the same
    document under the same uid, and when the merchants write returns too
    both collections hold the document.  Over a whole run the merchants
    collection changes at no key other than the uid of the merchant
    record, and a run without faults from the empty database leaves in the
    merchants collection exactly the document of the merchant record, the
    one its users document is. *)
Theorem role_conditional_duplication (d1 d2 d3 : N) (u : SeedUser) (w : World) :
  u ∈ testUsers d1 d2 d3 →
  (role u = js "merchant" ↔ u = merchantUser d2)
  ∧ (∃ new, calls (seedStep w u) = calls w ++ new
      ∧ (role u ≠ js "merchant" →
           (∀ id doc ok, (CallSet MERCHANTS id doc, ok) ∉ new)
           ∧ collection (firestore (seedStep w u)) MERCHANTS
             = collection (firestore w) MERCHANTS)
      ∧ (role u = js "merchant" →
           (∀ id doc, (CallSet USERS id doc, true) ∈ new →
              id = uid u
              ∧ ∃ ok pre, new = pre ++ [(CallSet USERS id doc, true);
                                        (CallSet MERCHANTS id doc, ok)])
           ∧ (∀ id doc ok, (CallSet MERCHANTS id doc, ok) ∈ new →
                id = uid u
                ∧ ∃ pre, new = pre ++ [(CallSet USERS id doc, true);
                                       (CallSet MERCHANTS id doc, ok)])
           ∧ (∀ doc, (CallSet MERCHANTS (uid u) doc, true) ∈ new →
                collection (firestore (seedStep w u)) USERS !! uid u
                = Some doc
                ∧ collection (firestore (seedStep w u)) MERCHANTS !! uid u
                  = Some doc))
      ∧ (role u = js "merchant" → ¬ emailTaken u (firestore w) →
         (∀ e, Some e ∉ take 3 (faults w)) →
         let doc := userData u (next_salt w) in
         (∃ ok, new = [(usersQuery u, true); (CallHash (password u) 12, true);
                       (CallSet USERS (uid u) doc, true);
                       (CallSet MERCHANTS (uid u) doc, ok)])
         ∧ collection (firestore (seedStep w u)) USERS !! uid u = Some doc
         ∧ ((∀ e, Some e ∉ take 4 (faults w)) →
            (CallSet MERCHANTS (uid u) doc, true) ∈ new
            ∧ collection (firestore (seedStep w u)) MERCHANTS !! uid u
              = Some doc)))
  ∧ (∀ id, id ≠ uid (merchantUser d2) →
       collection (firestore (snd (createTestUsers (testUsers d1 d2 d3) w)))
         MERCHANTS !! id
       = collection (firestore w) MERCHANTS !! id)
  ∧ (firestore w = ∅ → faults w = [] →
     let db' := firestore (snd (createTestUsers (testUsers d1 d2 d3) w)) in
     ∃ salt,
       collection db' MERCHANTS
       = {[ uid (merchantUser d2) := userData (merchantUser d2) salt ]}
       ∧ collection db' USERS !! uid (merchantUser d2)
         = Some (userData (merchantUser d2) salt)).
Proof.
  intros Hu. split; [by apply (testUsers_merchant d1 d2 d3)|].
  split; [|split].
  - destruct (seedStep_calls u w) as (new & Hnew & Hshape).
    exists new. split; [done|]. split; [|split].
    + intros Hplain. split.
      * intros id doc ok Hin.
        by destruct (RecordCalls_merchants_set u _ new id doc ok Hshape Hin).
      * apply (StoreStep_merchants u); [apply seedStep_store|done].
    + intros Hrole. split; [|split].
      * intros id doc Hin. split.
        -- by destruct (RecordCalls_set u _ new USERS id doc true Hshape Hin).
        -- by apply (RecordCalls_users_set u (next_salt w)).
      * intros id doc ok Hin. split.
        -- by destruct (RecordCalls_set u _ new MERCHANTS id doc ok
                          Hshape Hin).
        -- by destruct (RecordCalls_merchants_set u _ new id doc ok
                          Hshape Hin).
      * intros doc Hin. by apply (seedStep_mirrored u w new).
    + intros Hrole Hfree Hplan doc.
      destruct (seedStep_fresh_merchant_calls u w Hrole Hfree Hplan)
        as ((ok & Hcalls & Hok) & Husers & Hmirror).
      rewrite Hnew in Hcalls. apply app_inv_head in Hcalls.
      split; [by exists ok|]. split; [done|].
      intros Hplan4.
      destruct (fourth_call_ahead u w Hplan4) as [_ Hfourth].
      split; [|by apply Hmirror].
      rewrite Hcalls, (Hok Hfourth), !elem_of_cons. auto.
  - intros id Hid.
    apply (createTestUsers_invariant
             (λ db, collection db MERCHANTS !! id
                    = collection (firestore w) MERCHANTS !! id)); [|done].
    intros u' db db' Hu' Hstep <-.
    destruct (decide (role u' = js "merchant")) as [Hrole|Hplain].
    + apply (StoreStep_mirror_key u'); [done|].
      apply (testUsers_merchant d1 d2 d3) in Hrole as ->; done.
    + by rewrite (StoreStep_merchants u' db db').
  - intros Hdb Hfaults db'.
    destruct (first_run_store w d1 d2 d3 Hdb Hfaults) as (s1 & s2 & s3 & Hdb').
    fold db' in Hdb'. exists s2. rewrite Hdb'. split.
    + apply seededStore_merchants.
    + rewrite seededStore_users, lookup_insert_ne by by_decide.
      apply lookup_insert_eq.
Qed.

(** ** Failures of single records *)

(** C4.  The body of the loop returns for every record and every fault
    plan: it goes one of the seven ways of [RecordRun].  When one of the
    calls of the record throws (the existence check, the hash, or a write),
    the error is logged on the error stream in the line that carries the
    email of the record, and the loop goes on: a run is the sequence of the
    steps of all the records, each of which is attempted.  In particular,
    when the creation of the first record fails at its check, its hash or
    its write and the later calls succeed, the second and the third record
    are persisted.  [main] returns whatever the faults, so the exit status
    stays 0. *)
Theorem partial_failure_isolation (us : list SeedUser) (u : SeedUser)
    (w : World) (d1 d2 d3 : N) (e : JsError) (plan : list (option JsError)) :
  (createTestUser u w = (Return tt, seedStep w u)
   ∧ RecordRun u w (seedStep w u)
   ∧ ∀ new, calls (seedStep w u) = calls w ++ new →
       (Forall (λ c, c.2 = true) new
        ∧ ∃ line, console (seedStep w u) = console w ++ [(Stdout, line)])
       ∨ (∃ e' c pre, new = pre ++ [(c, false)]
            ∧ Forall (λ c, c.2 = true) pre
            ∧ Some e' ∈ faults w
            ∧ console (seedStep w u)
              = console w ++ [(Stderr, failedLine u e')]
            ∧ failedLine u e'
              = CROSS_MARK ++ js " Failed to create user " ++ email u
                ++ js ": " ++ message e'))
  ∧ (createTestUsers us w
     = (Return tt, fold_left seedStep us (add_console Stdout creatingLine w))
     ∧ ∃ new, calls (snd (createTestUsers us w)) = calls w ++ new
              ∧ ∀ u', u' ∈ us → ∃ ok, (usersQuery u', ok) ∈ new)
  ∧ (plan ∈ [[Some e]; [None; Some e]; [None; None; Some e]] →
     firestore w = ∅ → faults w = plan →
     ∃ s2 s3,
       firestore (snd (createTestUsers (testUsers d1 d2 d3) w))
       = doc_set
           (doc_set
              (doc_set ∅ USERS (uid (merchantUser d2))
                 (userData (merchantUser d2) s2))
              MERCHANTS (uid (merchantUser d2))
              (userData (merchantUser d2) s2))
           USERS (uid (regularUser d3)) (userData (regularUser d3) s3))
  ∧ (∃ w', main us w = (Return tt, w'))
  ∧ exit_status (fst (main us w)) = 0%Z.
Proof.
  split; [|split; [|split; [|split]]].
  - split; [apply createTestUser_returns|].
    split; [apply seedStep_run|].
    intros new Hnew.
    destruct (RecordRun_console u w _ (seedStep_run u w) new Hnew)
      as [Hok|(e' & c & pre & Hpre & Hall & He' & Hline)]; [by left|].
    right. by exists e', c, pre.
  - split; [apply createTestUsers_fold|].
    rewrite createTestUsers_fold. cbn [snd].
    destruct (fold_seedStep_attempts us (add_console Stdout creatingLine w))
      as (new & Hnew & Hall).
    exists new. split; [|done]. by rewrite Hnew.
  - apply first_record_failed_store.
  - eexists. apply main_run.
  - by rewrite main_run.
Qed.

(** ** A mirror write that throws *)

Lemma emailTaken_preserved (u : SeedUser) (db db' : Firestore) :
  Preserved db db' → emailTaken u db → emailTaken u db'.
Proof.
  intros Hpres (id & d & Hd & He)%emailTaken_iff.
  apply emailTaken_iff. exists id, d. split; [by apply Hpres|done].
Qed.

Lemma seedStep_created_plain (u : SeedUser) (w : World)
    (rest : list (option JsError)) :
  faults w = None :: None :: None :: rest →
  ¬ emailTaken u (firestore w) → role u ≠ js "merchant" →
  faults (seedStep w u) = rest
  ∧ firestore (seedStep w u)
    = doc_set (firestore w) USERS (uid u) (userData u (next_salt w)).
Proof.
  intros Hplan Hfree Hrole.
  assert (head_fault w = None ∧ head_fault (afterQuery u w) = None
          ∧ head_fault (afterHash u w) = None) as (H0 & H1 & H2).
  { unfold head_fault. world_simpl. by rewrite Hplan. }
  destruct (seedStep_run u w) as [e H|?|e ? ? H|e ? ? ? H|? ? ? ? Hr
                                  |e ? ? ? ? Hr H|? ? ? ? Hr ?];
    try contradiction; try congruence.
  world_simpl. by rewrite Hplan.
Qed.

Lemma seedStep_mirror_threw (u : SeedUser) (w : World) (e : JsError)
    (rest : list (option JsError)) :
  carriesEmail u → role u = js "merchant" →
  ¬ emailTaken u (firestore w) →
  faults w = None :: None :: None :: Some e :: rest →
  faults (seedStep w u) = rest
  ∧ firestore (seedStep w u)
    = doc_set (firestore w) USERS (uid u) (userData u (next_salt w))
  ∧ console (seedStep w u) = console w ++ [(Stderr, failedLine u e)].
Proof.
  intros Hu Hrole Hfree Hplan.
  rewrite (seedStep_merchants_set_threw u w e);
    [|unfold head_fault; by rewrite Hplan|done
     |unfold head_fault; world_simpl; by rewrite Hplan
     |unfold head_fault; world_simpl; by rewrite Hplan|done
     |unfold head_fault; world_simpl; by rewrite Hplan].
  world_simpl. by rewrite Hplan.
Qed.

Lemma doc_set_users_taken (u : SeedUser) (db : Firestore) (salt : N) :
  carriesEmail u →
  emailTaken u (doc_set db USERS (uid u) (userData u salt)).
Proof.
  intros Hu. apply emailTaken_iff. exists (uid u), (userData u salt).
  split; [|by apply userData_email].
  by rewrite collection_doc_set_eq, lookup_insert_eq.
Qed.

(** A run from a database of the seeder keeps every document, and with
    them any property the steps keep while doing so. *)
Lemma createTestUsers_preserving (Q : Firestore → Prop) (us : list SeedUser)
    (w : World) :
  Forall carriesEmail us → SameKeys us us →
  KeyedByEmail us (firestore w) → MirrorBacked us (firestore w) →
  (∀ u db db', u ∈ us → StoreStep u db db' →
     Preserved (firestore w) db → Q db → Q db') →
  Q (firestore w) →
  Q (firestore (snd (createTestUsers us w))).
Proof.
  intros Hwf Hkeys Hkeyed Hbacked Hstep HQ.
  pose (P := λ db : Firestore,
          KeyedByEmail us db ∧ MirrorBacked us db
          ∧ Preserved (firestore w) db ∧ Q db).
  enough (P (firestore (snd (createTestUsers us w)))) as (_ & _ & _ & H)
    by done.
  apply (createTestUsers_invariant P);
    [|by repeat split; [..|intros ? ? ? ?|]].
  intros u db db' Hu Hs (Hk & Hb & Hp & Hq).
  rewrite Forall_forall in Hwf.
  split; [|split; [|split]].
  - eapply StoreStep_keyed; [by apply Hwf|by eapply SameKeys_one|done..].
  - by eapply StoreStep_backed.
  - eapply Preserved_trans; [done|].
    eapply StoreStep_preserved; [done|..].
    + by eapply KeyedByEmail_one.
    + by eapply MirrorBacked_one.
  - by eapply Hstep.
Qed.

Lemma rerun_keeps_gap (w : World) (d d1 d2 d3 : N) :
  Seeded (firestore w) → emailTaken (merchantUser d) (firestore w) →
  collection (firestore (snd (createTestUsers (testUsers d1 d2 d3) w)))
    MERCHANTS
  = collection (firestore w) MERCHANTS.
Proof.
  intros [_ Hkeys]%Seeded_invariants Htaken.
  destruct (Hkeys d1 d2 d3) as [Hk Hb].
  apply (createTestUsers_preserving
           (λ db, collection db MERCHANTS = collection (firestore w) MERCHANTS)
           (testUsers d1 d2 d3) w);
    [apply testUsers_carry_email|apply testUsers_same_keys|done..| |done].
  intros u db db' Hu Hstep Hpres <-.
  destruct (decide (role u = js "merchant")) as [Hrole|Hplain];
    [|by apply (StoreStep_merchants u)].
  apply (testUsers_merchant d1 d2 d3) in Hrole as ->; [|done].
  destruct Hstep as [|salt _|salt Hfree _]; [done| |].
  - by rewrite (collection_doc_set_ne _ USERS MERCHANTS)
      by apply users_not_merchants.
  - destruct Hfree. by apply (emailTaken_preserved _ (firestore w)).
Qed.

Lemma Reruns_keep_gap (db db' : Firestore) (d : N) :
  Seeded db → emailTaken (merchantUser d) db → Reruns db db' →
  Seeded db' ∧ emailTaken (merchantUser d) db'
  ∧ collection db' MERCHANTS = collection db MERCHANTS.
Proof.
  intros Hseeded Htaken. induction 1 as [|w d1 d2 d3 _ (Hs & Ht & Hm)].
  - done.
  - split; [by apply seeded_run|]. split.
    + eapply emailTaken_preserved; [by apply Seeded_preserved|done].
    + rewrite <- Hm. by apply (rerun_keeps_gap w d).
Qed.

Lemma mirror_failed_store (w : World) (d1 d2 d3 : N) (e : JsError) :
  firestore w = ∅ →
  faults w = [None; None; None; None; None; None; Some e] →
  ∃ s1 s2 s3,
    firestore (snd (createTestUsers (testUsers d1 d2 d3) w))
    = doc_set
        (doc_set
           (doc_set ∅ USERS (uid (adminUser d1)) (userData (adminUser d1) s1))
           USERS (uid (merchantUser d2)) (userData (merchantUser d2) s2))
        USERS (uid (regularUser d3)) (userData (regularUser d3) s3).
Proof.
  intros Hdb Hfaults.
  rewrite createTestUsers_fold. cbn [snd testUsers fold_left].
  set (w0 := add_console Stdout creatingLine w).
  assert (faults w0 = [None; None; None; None; None; None; Some e]) as Hf0
    by exact Hfaults.
  assert (firestore w0 = ∅) as Hdb0 by exact Hdb.
  destruct (seedStep_created_plain (adminUser d1) w0 _ Hf0) as [Hf1 Hdb1];
    [rewrite Hdb0; by_decide|by_decide|].
  rewrite Hdb0 in Hdb1.
  set (w1 := seedStep w0 (adminUser d1)) in *.
  destruct (seedStep_mirror_threw (merchantUser d2) w1 e []) as (Hf2 & Hdb2 & _);
    [reflexivity|reflexivity|rewrite Hdb1; by_decide|done|].
  rewrite Hdb1 in Hdb2.
  set (w2 := seedStep w1 (merchantUser d2)) in *.
  destruct (seedStep_fresh_store (regularUser d3) w2) as [Hf3 Hdb3];
    [done|rewrite Hdb2; by_decide|].
  rewrite decide_False in Hdb3 by by_decide. rewrite Hdb2 in Hdb3.
  by exists (next_salt w0), (next_salt w1), (next_salt w2).
Qed.

(** C10.  The existence check of a record is the one query on the [email]
    field of the users collection; no call reads the merchants collection.
    When, for a merchant record whose email is free, the check, the hash
    and the users write return and the mirror write throws, the users
    document is written, the merchants collection is as before, the error
    is logged, and the email is now taken.  From a database of the seeder
    in which the email of the merchant record is taken, no number of
    further runs, whatever their faults, changes the merchants collection.
    So after a run from the empty database in which only the mirror write
    threw, the merchant has a users document, the merchants collection is
    empty, and it stays empty under every re-run. *)
Theorem merchant_mirror_gap (u : SeedUser) (w : World) (e : JsError)
    (rest : list (option JsError)) (d d1 d2 d3 : N) (db db' : Firestore) :
  (∃ new, calls (seedStep w u) = calls w ++ new
          ∧ ∀ coll field v ok, (CallGet coll field v, ok) ∈ new →
              coll = USERS ∧ field = js "email" ∧ v = VStr (email u))
  ∧ (carriesEmail u → role u = js "merchant" →
     ¬ emailTaken u (firestore w) →
     faults w = None :: None :: None :: Some e :: rest →
     collection (firestore (seedStep w u)) USERS !! uid u
     = Some (userData u (next_salt w))
     ∧ collection (firestore (seedStep w u)) MERCHANTS
       = collection (firestore w) MERCHANTS
     ∧ emailTaken u (firestore (seedStep w u))
     ∧ console (seedStep w u) = console w ++ [(Stderr, failedLine u e)])
  ∧ (Seeded db → emailTaken (merchantUser d) db → Reruns db db' →
     collection db' MERCHANTS = collection db MERCHANTS
     ∧ emailTaken (merchantUser d) db')
  ∧ (firestore w = ∅ →
     faults w = [None; None; None; None; None; None; Some e] →
     let db1 := firestore (snd (createTestUsers (testUsers d1 d2 d3) w)) in
     is_Some (collection db1 USERS !! uid (merchantUser d2))
     ∧ collection db1 MERCHANTS = ∅
     ∧ ∀ db2, Reruns db1 db2 →
         collection db2 MERCHANTS = ∅
         ∧ emailTaken (merchantUser d2) db2).
Proof.
  split; [|split; [|split]].
  - destruct (seedStep_calls u w) as (new & Hnew & Hshape).
    exists new. split; [done|]. intros coll field v ok.
    by apply (RecordCalls_get u (next_salt w)).
  - intros Hu Hrole Hfree Hplan.
    destruct (seedStep_mirror_threw u w e rest Hu Hrole Hfree Hplan)
      as (_ & -> & ->).
    split; [by rewrite collection_doc_set_eq, lookup_insert_eq|].
    split; [|split; [by apply doc_set_users_taken|done]].
    by rewrite (collection_doc_set_ne _ USERS MERCHANTS)
      by apply users_not_merchants.
  - intros Hseeded Htaken Hreruns.
    by destruct (Reruns_keep_gap db db' d Hseeded Htaken Hreruns)
      as (_ & ? & ?).
  - intros Hdb Hfaults db1.
    assert (Seeded db1) as Hseeded
      by (apply seeded_run; rewrite Hdb; apply seeded_empty).
    destruct (mirror_failed_store w d1 d2 d3 e Hdb Hfaults)
      as (s1 & s2 & s3 & Hdb1).
    fold db1 in Hdb1.
    assert (collection db1 MERCHANTS = ∅) as Hempty.
    { rewrite Hdb1.
      rewrite !(collection_doc_set_ne _ USERS MERCHANTS)
        by apply users_not_merchants.
      apply collection_empty. }
    assert (emailTaken (merchantUser d2) db1) as Htaken
      by (rewrite Hdb1; by_decide).
    split; [|split; [done|]].
    + rewrite Hdb1, collection_doc_set_eq, lookup_insert_ne by by_decide.
      rewrite collection_doc_set_eq, lookup_insert_eq. by eexists.
    + intros db2 Hreruns.
      destruct (Reruns_keep_gap db1 db2 d2 Hseeded Htaken Hreruns)
        as (_ & ? & ->).
      done.
Qed.

(** ** Idempotence *)

(** A record whose email is free and whose check, hash and users write
    return leaves its document under its uid, whatever was there. *)
Lemma seedStep_fresh_users_doc (u : SeedUser) (w : World) :
  ¬ emailTaken u (firestore w) → (∀ e, Some e ∉ take 3 (faults w)) →
  collection (firestore (seedStep w u)) USERS !! uid u
  = Some (userData u (next_salt w)).
Proof.
  intros Hfree Hplan.
  destruct (three_calls_ahead u w Hplan) as (H0 & H1 & H2).
  destruct (seedStep_run u w) as [e H|?|e ? ? H|e ? ? ? H|? ? ? ? Hr
                                  |e ? ? ? ? Hr H|? ? ? ? Hr H];
    try contradiction; try congruence; world_simpl;
    rewrite ?(collection_doc_set_ne _ MERCHANTS USERS)
      by (apply not_eq_sym, users_not_merchants);
    by rewrite collection_doc_set_eq, lookup_insert_eq.
Qed.

Lemma testUsers_dates (d1 d2 d3 e1 e2 e3 : N) (u : SeedUser) :
  u ∈ testUsers e1 e2 e3 →
  ∃ u', u' ∈ testUsers d1 d2 d3 ∧ uid u' = uid u ∧ email u' = email u.
Proof.
  intros Hu. unfold testUsers in *. rewrite !elem_of_cons, elem_of_nil in Hu.
  destruct Hu as [->|[->|[->|[]]]].
  - exists (adminUser d1). rewrite !elem_of_cons. auto.
  - exists (merchantUser d2). rewrite !elem_of_cons. auto.
  - exists (regularUser d3). rewrite !elem_of_cons. auto.
Qed.

Lemma KeyedByEmail_dates (d1 d2 d3 e1 e2 e3 : N) (db : Firestore) :
  KeyedByEmail (testUsers d1 d2 d3) db ∧ MirrorBacked (testUsers d1 d2 d3) db →
  KeyedByEmail (testUsers e1 e2 e3) db ∧ MirrorBacked (testUsers e1 e2 e3) db.
Proof.
  intros [Hkeyed Hbacked]. split.
  - intros u doc Hu.
    destruct (testUsers_dates d1 d2 d3 e1 e2 e3 u Hu) as (u' & Hu' & <- & <-).
    by apply Hkeyed.
  - intros u Hu.
    destruct (testUsers_dates d1 d2 d3 e1 e2 e3 u Hu) as (u' & Hu' & <- & _).
    by apply Hbacked.
Qed.

(** C1, as amended.  A run without faults from the empty database leaves in
    the users collection exactly the three documents of the three records,
    each under the uid of its record; a second run on that database changes
    nothing, whatever its faults, and without faults it makes the three
    existence checks only and reports each record as already existing.
    In every database that runs of the seeder produce from the empty
    database no two users documents carry the same email, and a further
    run keeps every document of both collections under its key and
    unchanged.  So does a run from any database in which a document under
    the uid of a record carries the email of that record and a mirror
    document under such a uid has its users document, and the run leaves a
    database of that kind.  From any database at all, a run keeps the
    users documents free of duplicate emails when they were, and a record
    whose email is taken writes nothing; a record whose email is free and
    whose check, hash and users write return leaves its document under its
    uid, whatever that uid held. *)
Theorem seeding_idempotent (w w2 : World) (d1 d2 d3 e1 e2 e3 : N)
    (u : SeedUser) (db : Firestore) :
  (firestore w = ∅ → faults w = [] →
   let db1 := firestore (snd (createTestUsers (testUsers d1 d2 d3) w)) in
   (∃ s1 s2 s3,
      collection db1 USERS
      = {[ uid (regularUser d3) := userData (regularUser d3) s3;
           uid (merchantUser d2) := userData (merchantUser d2) s2;
           uid (adminUser d1) := userData (adminUser d1) s1 ]})
   ∧ size (collection db1 USERS) = 3%nat
   ∧ (firestore w2 = db1 →
      let w3 := snd (createTestUsers (testUsers e1 e2 e3) w2) in
      firestore w3 = db1
      ∧ (faults w2 = [] →
         console w3
         = console w2 ++ (Stdout, creatingLine)
             :: map (λ u, (Stdout, existsLine u)) (testUsers e1 e2 e3)
         ∧ calls w3
           = calls w2 ++ map (λ u, (usersQuery u, true))
                           (testUsers e1 e2 e3))))
  ∧ (Seeded db →
     UniqueEmails db
     ∧ (firestore w = db →
        let db' := firestore (snd (createTestUsers (testUsers d1 d2 d3) w)) in
        Preserved db db' ∧ UniqueEmails db'))
  ∧ (KeyedByEmail (testUsers d1 d2 d3) (firestore w) →
     MirrorBacked (testUsers d1 d2 d3) (firestore w) →
     let db' := firestore (snd (createTestUsers (testUsers d1 d2 d3) w)) in
     Preserved (firestore w) db'
     ∧ KeyedByEmail (testUsers e1 e2 e3) db'
     ∧ MirrorBacked (testUsers e1 e2 e3) db')
  ∧ (UniqueEmails (firestore w) →
     UniqueEmails (firestore (snd (createTestUsers (testUsers d1 d2 d3) w))))
  ∧ (emailTaken u (firestore w) → firestore (seedStep w u) = firestore w)
  ∧ (¬ emailTaken u (firestore w) → (∀ e, Some e ∉ take 3 (faults w)) →
     collection (firestore (seedStep w u)) USERS !! uid u
     = Some (userData u (next_salt w))).
Proof.
  split; [|split; [|split; [|split; [|split]]]].
  - intros Hdb Hfaults db1.
    destruct (first_run_store w d1 d2 d3 Hdb Hfaults) as (s1 & s2 & s3 & Hdb1).
    fold db1 in Hdb1.
    assert (collection db1 USERS
            = {[ uid (regularUser d3) := userData (regularUser d3) s3;
                 uid (merchantUser d2) := userData (merchantUser d2) s2;
                 uid (adminUser d1) := userData (adminUser d1) s1 ]})
      as Husers by (rewrite Hdb1; apply seededStore_users).
    split; [by exists s1, s2, s3|]. split.
    + rewrite Husers.
      rewrite !map_size_insert_None, map_size_singleton; [done|..].
      * apply lookup_singleton_ne. by_decide.
      * rewrite lookup_insert_ne by by_decide.
        apply lookup_singleton_ne. by_decide.
    + intros Hdb2 w3.
      assert (∀ u', u' ∈ testUsers e1 e2 e3 → emailTaken u' (firestore w2))
        as Htaken.
      { intros u' Hu'. rewrite Hdb2, Hdb1.
        by apply (seededStore_taken _ _ _ _ _ _ e1 e2 e3). }
      split.
      * unfold w3. rewrite rerun_store by done. done.
      * intros Hfaults2. by apply rerun_report.
  - intros Hseeded. split; [by apply Seeded_invariants|].
    intros <- db'. split; [by apply Seeded_preserved|].
    apply createTestUsers_unique; [apply testUsers_carry_email|].
    by apply Seeded_invariants.
  - intros Hkeyed Hbacked db'. split.
    + apply createTestUsers_preserves;
        [apply testUsers_carry_email|apply testUsers_same_keys|done..].
    + apply (KeyedByEmail_dates d1 d2 d3).
      apply createTestUsers_keeps_keys;
        [apply testUsers_carry_email|apply testUsers_same_keys|done..].
  - apply createTestUsers_unique, testUsers_carry_email.
  - intros Htaken. apply (StoreStep_taken u); [done|apply seedStep_store].
  - apply seedStep_fresh_users_doc.
Qed.

(** * Further properties of the code *)

(** ** Trimming *)

Lemma trimStart_fixed (s : jsstring) :
  match s with [] => True | c :: _ => isWhiteSpace c = false end →
  trimStart s = s.
Proof. destruct s as [|c s]; [done|]. cbn [trimStart]. by intros ->. Qed.

Lemma trimStart_head (s : jsstring) :
  match trimStart s with [] => True | c :: _ => isWhiteSpace c = false end.
Proof.
  induction s as [|c s IH]; cbn [trimStart]; [done|].
  by destruct (isWhiteSpace c) eqn:Hc.
Qed.

Lemma trimStart_idem (s : jsstring) : trimStart (trimStart s) = trimStart s.
Proof. apply trimStart_fixed, trimStart_head. Qed.

Lemma trimStart_snoc (s : jsstring) (c : N) :
  trimStart (s ++ [c])
  = if decide (trimStart s = []) then trimStart [c] else trimStart s ++ [c].
Proof.
  induction s as [|a s IH]; [done|].
  cbn [app trimStart]. destruct (isWhiteSpace a); [done|].
  by rewrite decide_False.
Qed.

Lemma trimEnd_idem (s : jsstring) : trimEnd (trimEnd s) = trimEnd s.
Proof. unfold trimEnd. by rewrite rev_involutive, trimStart_idem. Qed.

Lemma trimEnd_snoc_ws (s : jsstring) (c : N) :
  isWhiteSpace c = true → trimEnd (s ++ [c]) = trimEnd s.
Proof.
  intros Hc. unfold trimEnd. rewrite rev_app_distr. cbn [rev app trimStart].
  by rewrite Hc.
Qed.

Lemma trimEnd_cons (x : N) (s : jsstring) :
  isWhiteSpace x = false → trimEnd (x :: s) = x :: trimEnd s.
Proof.
  intros Hx. unfold trimEnd. cbn [rev]. rewrite trimStart_snoc.
  case_decide as Hempty.
  - rewrite Hempty. cbn [trimStart rev]. by rewrite Hx.
  - rewrite rev_app_distr. reflexivity.
Qed.

Lemma trimEnd_nil : trimEnd [] = [].
Proof. reflexivity. Qed.

Lemma trim_idem (s : jsstring) : trim (trim s) = trim s.
Proof.
  unfold trim.
  assert (trimStart (trimEnd (trimStart s)) = trimEnd (trimStart s)) as ->.
  { apply trimStart_fixed. pose proof (trimStart_head s) as Hhead.
    destruct (trimStart s) as [|c t]; [done|].
    by rewrite trimEnd_cons. }
  apply trimEnd_idem.
Qed.

Lemma trim_snoc_ws (s : jsstring) (c : N) :
  isWhiteSpace c = true → trim (s ++ [c]) = trim s.
Proof.
  intros Hc. unfold trim. rewrite trimStart_snoc. case_decide as Hempty.
  - rewrite Hempty. cbn [trimStart]. by rewrite Hc.
  - by apply trimEnd_snoc_ws.
Qed.

(** ** More on splitting *)

Lemma split_pieces (sep : N) (s p : jsstring) : p ∈ split sep s → sep ∉ p.
Proof.
  revert p. induction s as [|c s IH]; intros p; cbn [split].
  - intros ->%list_elem_of_singleton. apply not_elem_of_nil.
  - pose proof (split_nonempty sep s) as Hne.
    destruct (N.eqb_spec c sep) as [->|Hc].
    + intros [->|Hp]%elem_of_cons; [apply not_elem_of_nil|by apply IH].
    + destruct (split sep s) as [|q qs]; [done|].
      intros [->|Hp]%elem_of_cons.
      * apply not_elem_of_cons. split; [congruence|].
        apply IH, elem_of_cons. by left.
      * apply IH, elem_of_cons. by right.
Qed.

Lemma split_app_sep (sep : N) (x y : jsstring) :
  split sep (x ++ sep :: y) = split sep x ++ split sep y.
Proof.
  induction x as [|a x IH]; cbn [app split].
  - by rewrite N.eqb_refl.
  - rewrite IH. destruct (a =? sep); [done|].
    pose proof (split_nonempty sep x).
    by destruct (split sep x).
Qed.

Lemma split_snoc (sep c : N) (x : jsstring) :
  c ≠ sep →
  ∃ ps p, split sep x = ps ++ [p] ∧ split sep (x ++ [c]) = ps ++ [p ++ [c]].
Proof.
  intros Hc. induction x as [|a x (ps & p & Hx & Hxc)]; cbn [app split].
  - exists [], []. split; [done|].
    by destruct (N.eqb_spec c sep).
  - rewrite Hx, Hxc. destruct (a =? sep).
    + by exists ([] :: ps), p.
    + destruct ps as [|q qs]; cbn [app].
      * by exists [], (a :: p).
      * by exists ((a :: q) :: qs), p.
Qed.

(** ** The lines of the settings file *)

(** X1.  Every entry of the mapping the loader builds comes from a line of
    the content that has an [=]: its name is the trimmed part before the
    first [=] of that line, a part that does not begin with [#], and its
    value is the trimmed part after it.  So a value is never empty and never
    begins or ends with white space, a name has no [=] and no surrounding
    white space, neither holds a line feed, and no name is [__proto__]. *)
Theorem loader_entries (envContent k v : jsstring) :
  parseEnvContent envContent !! k = Some v →
  (∃ key rest, (key ++ EQUALS :: rest) ∈ split LF envContent
               ∧ (EQUALS ∉ key) ∧ startsWith key HASH = false
               ∧ k = trim key ∧ v = trim rest)
  ∧ v ≠ [] ∧ trim v = v ∧ trim k = k
  ∧ (EQUALS ∉ k) ∧ (LF ∉ k) ∧ (LF ∉ v) ∧ k ≠ proto_key.
Proof.
  intros (key & rest & Hin & Hkey & Hhash & -> & -> & Hv & Hproto)
    %parseEnvContent_lookup.
  pose proof (split_pieces LF _ _ Hin) as Hlf.
  split; [by exists key, rest|].
  split; [done|]. split; [apply trim_idem|]. split; [apply trim_idem|].
  split; [by intros H%trim_elem|].
  split; [|split; [|done]].
  - intros H%trim_elem. apply Hlf, elem_of_app. by left.
  - intros H%trim_elem. apply Hlf, elem_of_app. right.
    apply elem_of_cons. by right.
Qed.

(** X2.  A content all of whose lines begin with [#] or have no [=], the
    empty content among them, gives the empty mapping. *)
Theorem loader_nothing_to_load (envContent : jsstring) :
  (∀ line, line ∈ split LF envContent →
           EQUALS ∉ line ∨ startsWith line HASH = true) →
  parseEnvContent envContent = ∅.
Proof.
  unfold parseEnvContent. generalize (split LF envContent).
  intros lines. generalize (∅ : gmap jsstring jsstring).
  induction lines as [|line lines IH]; intros envVars Hlines; [done|].
  cbn [fold_left].
  assert (loadEnvLine envVars line = envVars) as ->.
  { destruct (Hlines line) as [Hno|Hhash]; [apply elem_of_cons; by left|..].
    - by apply loadEnvLine_no_equals.
    - by apply loadEnvLine_comment. }
  apply IH. intros l Hl. apply Hlines, elem_of_cons. by right.
Qed.

Lemma loadEnvLine_trailing_ws (envVars : gmap jsstring jsstring)
    (line : jsstring) (c : N) :
  isWhiteSpace c = true →
  loadEnvLine envVars (line ++ [c]) = loadEnvLine envVars line.
Proof.
  intros Hc.
  assert (c ≠ EQUALS) as Hne by (intros ->; discriminate Hc).
  destruct (decide (EQUALS ∈ line)) as [Hin|Hnin].
  - destruct (first_sep_decompose _ _ Hin) as (key & rest & -> & Hkey).
    rewrite <- app_assoc. cbn [app].
    rewrite !loadEnvLine_first_equals by done.
    by rewrite trim_snoc_ws.
  - rewrite !loadEnvLine_no_equals; [done..|].
    intros [H|H]%elem_of_app; [done|].
    by apply list_elem_of_singleton in H.
Qed.

(** X3.  White space at the end of a line does not matter to the loader:
    a carriage return (or any other white space that is not a line feed)
    before a line feed, or at the very end of the content, changes
    nothing, so a file with CRLF line endings loads like the same file with
    LF endings. *)
Theorem loader_ignores_trailing_white_space (x y : jsstring) (c : N) :
  isWhiteSpace c = true → c ≠ LF →
  parseEnvContent (x ++ c :: LF :: y) = parseEnvContent (x ++ LF :: y)
  ∧ parseEnvContent (x ++ [c]) = parseEnvContent x.
Proof.
  intros Hc Hlf. unfold parseEnvContent.
  destruct (split_snoc LF c x Hlf) as (ps & p & Hx & Hxc).
  split.
  - change (x ++ c :: LF :: y) with (x ++ [c] ++ LF :: y).
    rewrite app_assoc, !split_app_sep, Hx, Hxc, !fold_left_app.
    cbn [fold_left]. by rewrite loadEnvLine_trailing_ws.
  - rewrite Hx, Hxc, !fold_left_app. cbn [fold_left].
    by rewrite loadEnvLine_trailing_ws.
Qed.

(** X4.  Only a [#] in the first column makes a comment.  A line that has
    white space before its [#] and has an [=] is loaded as a variable whose
    name begins with [#]. *)
Theorem loader_indented_comment (envVars : gmap jsstring jsstring)
    (k rest : jsstring) (c : N) :
  isWhiteSpace c = true → EQUALS ∉ k → trim rest ≠ [] →
  loadEnvLine envVars (c :: HASH :: k ++ EQUALS :: rest)
  = <[HASH :: trimEnd k := trim rest]> envVars.
Proof.
  intros Hc Hk Hrest.
  assert (c ≠ EQUALS) as Hne by (intros ->; discriminate Hc).
  assert (c ≠ HASH) as Hnh by (intros ->; discriminate Hc).
  change (c :: HASH :: k ++ EQUALS :: rest)
    with ((c :: HASH :: k) ++ EQUALS :: rest).
  rewrite loadEnvLine_first_equals.
  2:{ apply not_elem_of_cons. split; [done|].
      apply not_elem_of_cons. split; [done|]. exact Hk. }
  assert (trim (c :: HASH :: k) = HASH :: trimEnd k) as ->.
  { unfold trim. cbn [trimStart]. rewrite Hc. cbn [trimStart].
    change (isWhiteSpace HASH) with false. cbv iota.
    by apply trimEnd_cons. }
  cbn [truthy startsWith].
  destruct (N.eqb_spec c HASH) as [?|_]; [done|].
  destruct (trim rest) as [|r rs] eqn:Hr; [done|].
  cbn [truthy andb negb].
  by rewrite bool_decide_eq_false_2.
Qed.

(** X5.  Let the engine list every property of the loader's mapping once,
    and let [ADMIN_MASTER_KEY] be the only name of the mapping that the
    environment holds as [ADMIN_MASTER_KEY].  Whatever the ambient
    configuration held, after the merge [process.env] has under that name
    the value of the settings file as the environment holds it (cut at its
    first NUL), and that is the key the report prints, unless it is empty,
    when the report prints the default.  A value the environment holds
    unchanged is printed as it is. *)
Theorem file_admin_key_is_reported (w : World) (envContent v : jsstring) :
  ListsOwnKeys →
  envFile w = Readable envContent →
  parseEnvContent envContent !! js "ADMIN_MASTER_KEY" = Some v →
  (∀ k, is_Some (parseEnvContent envContent !! k) →
        envString k = js "ADMIN_MASTER_KEY" → k = js "ADMIN_MASTER_KEY") →
  let penv := process_env (snd (loadEnv w)) in
  penv !! js "ADMIN_MASTER_KEY" = Some (envString v)
  ∧ adminKey penv
    = (if truthy (envString v) then envString v else js "admin123")
  ∧ (envString v = v → adminKey penv = v)
  ∧ (js "   Admin Key: " ++ adminKey penv) ∈ credentialLines penv.
Proof.
  intros Hkeys Hfile Hv Halone penv.
  assert (penv !! js "ADMIN_MASTER_KEY" = Some (envString v)) as Hpenv.
  { apply (loadEnv_alone w envContent (js "ADMIN_MASTER_KEY") v);
      done. }
  assert (adminKey penv
          = (if truthy (envString v) then envString v else js "admin123"))
    as Hkey by (unfold adminKey; by rewrite Hpenv).
  split; [done|]. split; [done|]. split.
  - intros Hvv. rewrite Hkey, Hvv.
    apply parseEnvContent_lookup in Hv
      as (_ & _ & _ & _ & _ & _ & _ & Hne & _).
    by destruct v.
  - by apply (list_elem_of_lookup_2 _ 5%nat).
Qed.

(** ** The private key's escaped line feeds *)

Lemma replace_escaped_newlines_pair (s : jsstring) :
  replace_escaped_newlines (BACKSLASH :: 110 :: s)
  = LF :: replace_escaped_newlines s.
Proof. reflexivity. Qed.

Lemma replace_escaped_newlines_other (c1 c2 : N) (s : jsstring) :
  ¬ (c1 = BACKSLASH ∧ c2 = 110) →
  replace_escaped_newlines (c1 :: c2 :: s)
  = c1 :: replace_escaped_newlines (c2 :: s).
Proof.
  intros Hne. cbn [replace_escaped_newlines].
  destruct (N.eqb_spec c1 BACKSLASH) as [->|_],
           (N.eqb_spec c2 110) as [->|_]; try done.
  by destruct Hne.
Qed.

Lemma hasEscapedNewline_cons (c : N) (s : jsstring) :
  hasEscapedNewline (c :: s)
  ↔ (c = BACKSLASH ∧ ∃ t, s = 110 :: t) ∨ hasEscapedNewline s.
Proof.
  unfold hasEscapedNewline. split.
  - intros ([|a0 a] & b & Heq); cbn [app] in Heq.
    + injection Heq as -> ->. left. split; [done|by exists b].
    + injection Heq as -> ->. right. by exists a, b.
  - intros [[-> [t ->]]|(a & b & ->)].
    + by exists [], t.
    + by exists (c :: a), b.
Qed.

Lemma hasEscapedNewline_short (s : jsstring) :
  (length s < 2)%nat → ¬ hasEscapedNewline s.
Proof.
  intros Hlen (a & b & ->). rewrite length_app in Hlen. cbn in Hlen. lia.
Qed.

Lemma replace_escaped_newlines_head (c : N) (s : jsstring) :
  ∃ t, replace_escaped_newlines (c :: s) = c :: t
       ∨ replace_escaped_newlines (c :: s) = LF :: t.
Proof.
  destruct s as [|c2 s]; [by exists []; left|].
  cbn [replace_escaped_newlines].
  destruct ((c =? BACKSLASH) && (c2 =? 110)); eexists; [by right|by left].
Qed.

Lemma replace_escaped_newlines_clean (s : jsstring) :
  ¬ hasEscapedNewline (replace_escaped_newlines s).
Proof.
  induction s as [| c | c1 c2 s IH1 IH2] using pairs_ind.
  - apply hasEscapedNewline_short. cbn. lia.
  - apply hasEscapedNewline_short. cbn. lia.
  - destruct (decide (c1 = BACKSLASH ∧ c2 = 110)) as [[-> ->]|Hne].
    + rewrite replace_escaped_newlines_pair, hasEscapedNewline_cons.
      intros [[Hlf _]|H]; [discriminate Hlf|done].
    + rewrite replace_escaped_newlines_other, hasEscapedNewline_cons by done.
      intros [[-> [t Ht]]|H]; [|done].
      destruct (replace_escaped_newlines_head c2 s) as (t' & [Hh|Hh]);
        rewrite Hh in Ht; injection Ht as Hc2 _; [|discriminate Hc2].
      apply Hne. by split.
Qed.

Lemma replace_escaped_newlines_fixed (s : jsstring) :
  ¬ hasEscapedNewline s → replace_escaped_newlines s = s.
Proof.
  induction s as [| c | c1 c2 s IH1 IH2] using pairs_ind; [done..|].
  intros Hclean.
  assert (¬ (c1 = BACKSLASH ∧ c2 = 110)) as Hne.
  { intros [-> ->]. apply Hclean. by exists [], s. }
  rewrite replace_escaped_newlines_other by done. f_equal. apply IH2.
  intros H. apply Hclean, hasEscapedNewline_cons. by right.
Qed.

Lemma replace_escaped_newlines_length (s : jsstring) :
  (length (replace_escaped_newlines s) ≤ length s)%nat
  ∧ (hasEscapedNewline s →
     (length (replace_escaped_newlines s) < length s)%nat).
Proof.
  induction s as [| c | c1 c2 s [IH1 IH1'] [IH2 IH2']] using pairs_ind.
  - split; [done|]. intros H. apply hasEscapedNewline_short in H; [done|].
    cbn. lia.
  - split; [done|]. intros H. apply hasEscapedNewline_short in H; [done|].
    cbn. lia.
  - destruct (decide (c1 = BACKSLASH ∧ c2 = 110)) as [[-> ->]|Hne].
    + rewrite replace_escaped_newlines_pair. cbn [length]. split; lia.
    + rewrite replace_escaped_newlines_other by done.
      cbn [length] in *. split; [lia|].
      intros [[-> [t Ht]]|H]%hasEscapedNewline_cons.
      * injection Ht as -> _. by destruct Hne.
      * apply IH2' in H. lia.
Qed.

Lemma replace_escaped_newlines_cases (s : jsstring) :
  hasEscapedNewline s ∨ replace_escaped_newlines s = s.
Proof.
  induction s as [| c | c1 c2 s IH1 IH2] using pairs_ind;
    [by right..|].
  destruct (decide (c1 = BACKSLASH ∧ c2 = 110)) as [[-> ->]|Hne].
  - left. by exists [], s.
  - destruct IH2 as [H|H].
    + left. apply hasEscapedNewline_cons. by right.
    + right. rewrite replace_escaped_newlines_other by done. by rewrite H.
Qed.

(** X6.  Unescaping the private key leaves no backslash followed by [n],
    so unescaping twice is unescaping once; the result is never longer
    than the key, and it is shorter exactly when the key had an escaped
    line feed. *)
Theorem private_key_unescaped (k : jsstring) :
  ¬ hasEscapedNewline (replace_escaped_newlines k)
  ∧ replace_escaped_newlines (replace_escaped_newlines k)
    = replace_escaped_newlines k
  ∧ (length (replace_escaped_newlines k) ≤ length k)%nat
  ∧ (hasEscapedNewline k
     ↔ (length (replace_escaped_newlines k) < length k)%nat).
Proof.
  split; [apply replace_escaped_newlines_clean|].
  split; [apply replace_escaped_newlines_fixed,
            replace_escaped_newlines_clean|].
  split; [apply replace_escaped_newlines_length|].
  split; [apply replace_escaped_newlines_length|].
  intros Hlt. destruct (replace_escaped_newlines_cases k) as [|Hfixed];
    [done|].
  rewrite Hfixed in Hlt. lia.
Qed.

(** X7.  A key without an escaped line feed is passed on unchanged, and a
    key is unescaped piece by piece: a piece without backslash followed by
    backslash and [n] gives the piece, a line feed, and the unescaping of
    what follows. *)
Theorem private_key_pieces (a b : jsstring) :
  (¬ hasEscapedNewline a → replace_escaped_newlines a = a)
  ∧ (BACKSLASH ∉ a →
     replace_escaped_newlines (a ++ BACKSLASH :: 110 :: b)
     = a ++ LF :: replace_escaped_newlines b).
Proof.
  split; [apply replace_escaped_newlines_fixed|].
  induction a as [|c a IH]; intros Ha; [done|].
  apply not_elem_of_cons in Ha as [Hc Ha].
  destruct a as [|c2 a].
  - cbn [app]. rewrite replace_escaped_newlines_other by (by intros [? _]).
    by rewrite replace_escaped_newlines_pair.
  - change ((c :: c2 :: a) ++ BACKSLASH :: 110 :: b)
      with (c :: c2 :: (a ++ BACKSLASH :: 110 :: b)).
    rewrite replace_escaped_newlines_other by (by intros [? _]).
    cbn [app]. f_equal. by apply IH.
Qed.

(** ** The console and the calls of a run *)

Lemma RecordRun_line (u : SeedUser) (w w' : World) :
  RecordRun u w w' →
  ∃ l, console w' = console w ++ [l] ∧ recordLine u l.
Proof.
  unfold recordLine.
  destruct 1; eexists; (split; [by world_simpl|]); eauto.
Qed.

Lemma fold_seedStep_console (us : list SeedUser) (w : World) :
  ∃ lines, console (fold_left seedStep us w) = console w ++ lines
           ∧ Forall2 recordLine us lines.
Proof.
  revert w. induction us as [|u us IH]; intros w.
  - exists []. split; [by rewrite app_nil_r|constructor].
  - cbn [fold_left].
    destruct (RecordRun_line u w _ (seedStep_run u w)) as (l & Hl & Hline).
    destruct (IH (seedStep w u)) as (lines & Hlines & Hall).
    exists (l :: lines). split; [|by constructor].
    by rewrite Hlines, Hl, <- app_assoc.
Qed.

(** X8.  A run prints its heading and then exactly one line per record,
    in the order of the list: the line of the record's creation or of its
    existence on the output stream, or the line of its failure on the error
    stream, each carrying the email of its record. *)
Theorem one_line_per_record (us : list SeedUser) (w : World) :
  ∃ lines,
    console (snd (createTestUsers us w))
    = console w ++ (Stdout, creatingLine) :: lines
    ∧ Forall2 recordLine us lines
    ∧ length lines = length us.
Proof.
  rewrite createTestUsers_fold. cbn [snd].
  destruct (fold_seedStep_console us (add_console Stdout creatingLine w))
    as (lines & Hlines & Hall).
  exists lines. split; [|split; [done|]].
  - rewrite Hlines. world_simpl. by rewrite <- app_assoc.
  - symmetry. by eapply Forall2_length.
Qed.

Lemma tl_drop {A} (n : nat) (l : list A) : tl (drop n l) = drop (S n) l.
Proof.
  revert l. induction n as [|n IH]; intros [|x l]; try done.
  cbn [drop]. rewrite IH. by destruct l.
Qed.

Lemma RecordRun_plan (u : SeedUser) (w w' : World) :
  RecordRun u w w' →
  ∃ new, calls w' = calls w ++ new
         ∧ RecordCalls u (next_salt w) new
         ∧ faults w' = drop (length new) (faults w)
         ∧ ((CallHash (password u) 12, true) ∈ new →
            salts w' = tl (salts w))
         ∧ ((CallHash (password u) 12, true) ∉ new → salts w' = salts w).
Proof.
  intros Hrun.
  destruct (RecordRun_calls u w w' Hrun) as (new & Hnew & Hshape).
  exists new. split; [done|]. split; [done|].
  assert (∀ l : list (option JsError), tl l = drop 1 l) as Htl
    by (by intros [|? ?]).
  destruct Hrun as [e He|? ?|e ? ? He|e ? ? ? He|? ? ? ? Hrole
                    |e ? ? ? ? Hrole He|? ? ? ? Hrole ?];
    revert Hnew; world_simpl; rewrite <- ?app_assoc; cbn [app];
    intros <-%app_inv_head; cbn [length];
    rewrite ?Htl, ?drop_drop; (split; [done|]);
    unfold usersSet, merchantsSet;
    (split; [intros Hin|intros Hnin]); try done;
    first [ by calls_cases
          | destruct Hnin; apply elem_of_cons; right;
            apply elem_of_cons; by left ].
Qed.

Lemma RecordCalls_length (u : SeedUser) (salt : N) (new : list (Call * bool)) :
  RecordCalls u salt new →
  (1 ≤ length new ≤ 4)%nat
  ∧ (length new = 4%nat → role u = js "merchant")
  ∧ ∃ ok rest, new = (usersQuery u, ok) :: rest.
Proof.
  destruct 1; cbn [length]; (split; [lia|]);
    (split; [intros; first [done|lia]|]); by eexists _, _.
Qed.

(** X9.  Every record makes between one and four calls, the first of them
    its existence check, and four only when its role is [merchant]; each
    call takes one entry of the fault plan and a returned hash call takes
    one salt.  So a run over [n] records makes between [n] and [4n] calls
    and leaves the fault plan shortened by the number of its calls. *)
Theorem calls_of_a_run (us : list SeedUser) (u : SeedUser) (w : World) :
  (∃ new, calls (seedStep w u) = calls w ++ new
          ∧ (1 ≤ length new ≤ 4)%nat
          ∧ (length new = 4%nat → role u = js "merchant")
          ∧ (∃ ok rest, new = (usersQuery u, ok) :: rest)
          ∧ faults (seedStep w u) = drop (length new) (faults w)
          ∧ ((CallHash (password u) 12, true) ∈ new →
             salts (seedStep w u) = tl (salts w))
          ∧ ((CallHash (password u) 12, true) ∉ new →
             salts (seedStep w u) = salts w))
  ∧ (∃ new, calls (snd (createTestUsers us w)) = calls w ++ new
            ∧ (length us ≤ length new ≤ 4 * length us)%nat
            ∧ faults (snd (createTestUsers us w))
              = drop (length new) (faults w)).
Proof.
  split.
  - destruct (RecordRun_plan u w _ (seedStep_run u w))
      as (new & Hnew & Hshape & Hfaults & Hsalts & Hsalts').
    destruct (RecordCalls_length u _ new Hshape) as (Hlen & Hfour & Hfirst).
    by exists new.
  - rewrite createTestUsers_fold. cbn [snd].
    change (calls w) with (calls (add_console Stdout creatingLine w)).
    change (faults w) with (faults (add_console Stdout creatingLine w)).
    generalize (add_console Stdout creatingLine w). clear w u.
    induction us as [|u us IH]; intros w.
    + exists []. cbn. split; [by rewrite app_nil_r|]. split; [lia|done].
    + cbn [fold_left].
      destruct (RecordRun_plan u w _ (seedStep_run u w))
        as (new1 & Hnew1 & Hshape & Hfaults1 & _).
      destruct (RecordCalls_length u _ new1 Hshape) as (Hlen & _).
      destruct (IH (seedStep w u)) as (new2 & Hnew2 & Hlen2 & Hfaults2).
      exists (new1 ++ new2).
      split; [by rewrite Hnew2, Hnew1, app_assoc|].
      rewrite length_app. cbn [length]. split; [lia|].
      by rewrite Hfaults2, Hfaults1, drop_drop.
Qed.

(** ** What a run leaves alone *)

Lemma collection_doc_set_lookup (db : Firestore) (n k coll id : jsstring)
    (d : Document) :
  collection (doc_set db n k d) coll !! id
  = if decide (n = coll ∧ k = id) then Some d else collection db coll !! id.
Proof.
  destruct (decide (n = coll)) as [->|Hn].
  - rewrite collection_doc_set_eq, lookup_insert.
    repeat case_decide; intuition congruence.
  - rewrite collection_doc_set_ne by done. case_decide; intuition congruence.
Qed.

Lemma StoreStep_frame (u : SeedUser) (db db' : Firestore)
    (coll id : jsstring) :
  StoreStep u db db' →
  (coll ≠ USERS → coll ≠ MERCHANTS → collection db' coll = collection db coll)
  ∧ (id ≠ uid u → collection db' coll !! id = collection db coll !! id)
  ∧ (is_Some (collection db coll !! id) →
     is_Some (collection db' coll !! id)).
Proof.
  intros [|salt _|salt _ _]; [done| |].
  - split; [|split].
    + intros Hu _. by rewrite collection_doc_set_ne.
    + intros Hid. rewrite collection_doc_set_lookup.
      case_decide; intuition congruence.
    + rewrite collection_doc_set_lookup. case_decide; [by eexists|done].
  - split; [|split].
    + intros Hu Hm. by rewrite !collection_doc_set_ne.
    + intros Hid. rewrite !collection_doc_set_lookup.
      repeat case_decide; intuition congruence.
    + rewrite !collection_doc_set_lookup.
      repeat case_decide; by eauto.
Qed.

(** X10.  From any database and under any faults, a run touches no
    collection other than [users] and [merchants], changes nothing under an
    id that is not the uid of one of its records, and removes no document:
    an id that had a document still has one. *)
Theorem seeder_frame (us : list SeedUser) (w : World) (coll id : jsstring) :
  let db := firestore w in
  let db' := firestore (snd (createTestUsers us w)) in
  (coll ≠ USERS → coll ≠ MERCHANTS → collection db' coll = collection db coll)
  ∧ (id ∉ map uid us → collection db' coll !! id = collection db coll !! id)
  ∧ (is_Some (collection db coll !! id) →
     is_Some (collection db' coll !! id)).
Proof.
  intros db db'. split; [|split].
  - intros Hu Hm.
    apply (createTestUsers_invariant
             (λ d, collection d coll = collection db coll)); [|done].
    intros u d d' _ Hstep <-.
    by destruct (StoreStep_frame u d d' coll id Hstep) as (-> & _).
  - intros Hid.
    apply (createTestUsers_invariant
             (λ d, collection d coll !! id = collection db coll !! id));
      [|done].
    intros u d d' Hu Hstep <-.
    destruct (StoreStep_frame u d d' coll id Hstep) as (_ & Hother & _).
    apply Hother. intros ->. apply Hid, list_elem_of_fmap. by exists u.
  - intros Hsome.
    apply (createTestUsers_invariant
             (λ d, is_Some (collection d coll !! id))); [|done].
    intros u d d' _ Hstep.
    by destruct (StoreStep_frame u d d' coll id Hstep) as (_ & _ & ?).
Qed.

(** ** What the line of a record tells *)

Lemma lines_differ (u : SeedUser) : createdLine u ≠ existsLine u.
Proof. unfold createdLine, existsLine. discriminate. Qed.

(** X11.  The line a record leaves on the console tells what happened to
    the database.  After the line of creation the email was free and the
    users collection holds the record's document under its uid, and so
    does the merchants collection when the role is [merchant].  After the
    line of existence the email was taken and the database is unchanged.
    After a line of failure the database is unchanged, or the role is
    [merchant] and only the users document was written. *)
Theorem log_tells_the_outcome (u : SeedUser) (w : World) (e : JsError) :
  let w' := seedStep w u in
  let doc := userData u (next_salt w) in
  (console w' = console w ++ [(Stdout, createdLine u)] →
   ¬ emailTaken u (firestore w)
   ∧ collection (firestore w') USERS !! uid u = Some doc
   ∧ (role u = js "merchant" →
      collection (firestore w') MERCHANTS !! uid u = Some doc))
  ∧ (console w' = console w ++ [(Stdout, existsLine u)] →
     emailTaken u (firestore w) ∧ firestore w' = firestore w)
  ∧ (console w' = console w ++ [(Stderr, failedLine u e)] →
     firestore w' = firestore w
     ∨ (role u = js "merchant"
        ∧ firestore w' = doc_set (firestore w) USERS (uid u) doc)).
Proof.
  intros w' doc. subst w' doc.
  pose proof (seedStep_run u w) as Hrun. revert Hrun.
  generalize (seedStep w u). intros w' Hrun.
  assert (∀ (s s' : Stream) (l l' : jsstring),
            console w ++ [(s, l)] = console w ++ [(s', l')] →
            s = s' ∧ l = l') as Hinv.
  { intros s s' l l' [= -> ->]%app_inv_head. done. }
  pose proof (lines_differ u) as Hdiff.
  destruct Hrun as [e' He|? Htaken|e' ? ? He|e' ? ? ? He|? Hfree ? ? Hrole
                    |e' ? ? ? ? Hrole He|? Hfree ? ? Hrole ?];
    world_simpl; (split; [|split]); intros [Hs Hl]%Hinv;
    try discriminate Hs; try (by destruct Hdiff);
    try (by left).
  - done.
  - split; [done|]. split; [|done].
    change (js "users") with USERS.
    by rewrite collection_doc_set_eq, lookup_insert_eq.
  - right. done.
  - split; [done|].
    change (js "users") with USERS. change (js "merchants") with MERCHANTS.
    split.
    + rewrite (collection_doc_set_ne _ MERCHANTS USERS)
        by (apply not_eq_sym, users_not_merchants).
      by rewrite collection_doc_set_eq, lookup_insert_eq.
    + intros _. by rewrite collection_doc_set_eq, lookup_insert_eq.
Qed.

(** ** Re-running after failures *)

Lemma seedStep_no_faults (u : SeedUser) (w : World) :
  faults w = [] → faults (seedStep w u) = [].
Proof.
  intros Hfaults.
  destruct (RecordRun_plan u w _ (seedStep_run u w))
    as (new & _ & _ & -> & _).
  rewrite Hfaults. apply drop_nil.
Qed.

Lemma seedStep_makes_taken (u : SeedUser) (w : World) :
  carriesEmail u → faults w = [] → emailTaken u (firestore (seedStep w u)).
Proof.
  intros Hu Hfaults.
  destruct (decide (emailTaken u (firestore w))) as [Htaken|Hfree].
  - rewrite (StoreStep_taken u (firestore w)); [done..|apply seedStep_store].
  - destruct (seedStep_fresh_store u w Hfaults Hfree) as [_ ->].
    apply emailTaken_iff. exists (uid u), (userData u (next_salt w)).
    split; [|by apply userData_email].
    case_decide.
    + rewrite (collection_doc_set_ne _ MERCHANTS USERS)
        by (apply not_eq_sym, users_not_merchants).
      by rewrite collection_doc_set_eq, lookup_insert_eq.
    + by rewrite collection_doc_set_eq, lookup_insert_eq.
Qed.

Lemma fold_seedStep_preserved (us us' : list SeedUser) (w : World) :
  us' ⊆ us → Forall carriesEmail us → SameKeys us us →
  KeyedByEmail us (firestore w) → MirrorBacked us (firestore w) →
  let db' := firestore (fold_left seedStep us' w) in
  KeyedByEmail us db' ∧ MirrorBacked us db' ∧ Preserved (firestore w) db'.
Proof.
  intros Hsub Hwf Hkeys Hkeyed Hbacked.
  pose (P := λ db : Firestore,
          KeyedByEmail us db ∧ MirrorBacked us db
          ∧ Preserved (firestore w) db).
  apply (fold_seedStep_invariant P);
    [|by repeat split; [..|intros ? ? ? ?]].
  intros u db db' Hu Hstep (Hk & Hb & Hp).
  apply Hsub in Hu. rewrite Forall_forall in Hwf.
  split; [|split].
  - eapply StoreStep_keyed; [by apply Hwf|by eapply SameKeys_one|done..].
  - by eapply StoreStep_backed.
  - eapply Preserved_trans; [done|].
    eapply StoreStep_preserved; [done|..].
    + by eapply KeyedByEmail_one.
    + by eapply MirrorBacked_one.
Qed.

Lemma fold_seedStep_all_taken (us us' : list SeedUser) (w : World)
    (u : SeedUser) :
  us' ⊆ us → Forall carriesEmail us → SameKeys us us →
  faults w = [] →
  KeyedByEmail us (firestore w) → MirrorBacked us (firestore w) →
  u ∈ us' → emailTaken u (firestore (fold_left seedStep us' w)).
Proof.
  revert w. induction us' as [|u0 us' IH];
    intros w Hsub Hwf Hkeys Hfaults Hkeyed Hbacked Hu.
  { by apply elem_of_nil in Hu. }
  cbn [fold_left].
  assert (u0 ∈ us) as Hu0 by (apply Hsub, elem_of_cons; by left).
  assert (us' ⊆ us) as Hsub'
    by (intros x Hx; apply Hsub, elem_of_cons; by right).
  assert (carriesEmail u0) as Hcarries
    by (rewrite Forall_forall in Hwf; by apply Hwf).
  assert ([u0] ⊆ us) as Hsub0.
  { intros x Hx. apply list_elem_of_singleton in Hx. by subst x. }
  destruct (fold_seedStep_preserved us [u0] w) as (Hk1 & Hb1 & _);
    [done..|].
  cbn [fold_left] in Hk1, Hb1.
  apply elem_of_cons in Hu as [->|Hu].
  - destruct (fold_seedStep_preserved us us' (seedStep w u0))
      as (_ & _ & Hpres); [done..|].
    eapply emailTaken_preserved; [exact Hpres|].
    by apply seedStep_makes_taken.
  - apply IH; try done. by apply seedStep_no_faults.
Qed.

(** X12.  Re-running repairs what earlier failures left undone in the
    users collection: from any database the seeder has produced, whatever
    faults the earlier runs met, a run without faults leaves the email of
    each of the three records taken, and from then on a run changes the
    database no more. *)
Theorem rerun_completes_the_users (w w2 : World) (d1 d2 d3 e1 e2 e3 : N)
    (u : SeedUser) :
  Seeded (firestore w) → faults w = [] →
  let db' := firestore (snd (createTestUsers (testUsers d1 d2 d3) w)) in
  (u ∈ testUsers e1 e2 e3 → emailTaken u db')
  ∧ (firestore w2 = db' →
     firestore (snd (createTestUsers (testUsers e1 e2 e3) w2)) = db').
Proof.
  intros Hseeded Hfaults db'.
  destruct (Seeded_invariants _ Hseeded) as [_ Hkeys].
  destruct (Hkeys d1 d2 d3) as [Hk Hb].
  assert (∀ u', u' ∈ testUsers d1 d2 d3 → emailTaken u' db') as Htaken.
  { intros u' Hu'. unfold db'. rewrite createTestUsers_fold. cbn [snd].
    apply (fold_seedStep_all_taken (testUsers d1 d2 d3));
      [done|apply testUsers_carry_email|apply testUsers_same_keys|done..]. }
  assert (∀ u', u' ∈ testUsers e1 e2 e3 → emailTaken u' db') as Htaken'.
  { intros u'. unfold testUsers. rewrite !elem_of_cons, elem_of_nil.
    intros [->|[->|[->|[]]]].
    - apply (Htaken (adminUser d1)), elem_of_cons. by left.
    - apply (Htaken (merchantUser d2)), elem_of_cons. right.
      apply elem_of_cons. by left.
    - apply (Htaken (regularUser d3)), elem_of_cons. right.
      apply elem_of_cons. right. apply elem_of_cons. by left. }
  split; [apply Htaken'|].
  intros Hdb2. rewrite rerun_store; [done|].
  intros u' Hu'. rewrite Hdb2. by apply Htaken'.
Qed.

(** ** The exit status *)

Lemma script_unreadable (w : World) (e : JsError) :
  envFile w = Unreadable e → script w = (Throw e, w).
Proof.
  intros Hfile. unfold script, loadEnv, loadEnvFile, mbind, M_bind, gets.
  by rewrite Hfile.
Qed.

Lemma script_after_load (w : World) :
  (∀ e, envFile w ≠ Unreadable e) →
  script w
  = match initializeFirebaseAdmin (snd (banner (snd (loadEnv w)))) with
    | (Return _, w') =>
        (d1 ← new_Date; d2 ← new_Date; d3 ← new_Date;
         main (testUsers d1 d2 d3)) w'
    | (Throw e, w') => (Throw e, w')
    | (Exit c, w') => (Exit c, w')
    end.
Proof.
  intros Hfile.
  destruct (loadEnv_run w Hfile) as (wa & Ha & _).
  destruct (banner_run wa) as (wb & Hb & _).
  unfold script. unfold mbind at 1. unfold M_bind at 1. rewrite Ha.
  cbn [snd]. unfold mbind at 1. unfold M_bind at 1. rewrite Hb.
  reflexivity.
Qed.

Lemma dated_main_run (w : World) :
  ∃ d1 d2 d3 w',
    (d1 ← new_Date; d2 ← new_Date; d3 ← new_Date;
     main (testUsers d1 d2 d3)) w
    = main (testUsers d1 d2 d3) w'
    ∧ calls w' = calls w ∧ firestore w' = firestore w
    ∧ faults w' = faults w ∧ process_env w' = process_env w
    ∧ console w' = console w.
Proof.
  unfold mbind, M_bind.
  destruct (new_Date_run w) as (d1 & w1 & -> & Hc1 & Hd1 & Hf1 & Hp1 & Ho1).
  destruct (new_Date_run w1) as (d2 & w2 & -> & Hc2 & Hd2 & Hf2 & Hp2 & Ho2).
  destruct (new_Date_run w2) as (d3 & w3 & -> & Hc3 & Hd3 & Hf3 & Hp3 & Ho3).
  exists d1, d2, d3, w3. split; [done|]. repeat split; congruence.
Qed.

(** X13.  The script ends with status 0 or 1, never another.  When the
    settings file exists but cannot be read, the exception of the read is
    caught by nothing: the script ends with status 1 having printed
    nothing of its own, called nothing and written nothing. *)
Theorem script_exit_status (w : World) (e : JsError) :
  (exit_status (fst (script w)) = 0%Z ∨ exit_status (fst (script w)) = 1%Z)
  ∧ (envFile w = Unreadable e →
     script w = (Throw e, w) ∧ exit_status (fst (script w)) = 1%Z).
Proof.
  split.
  - destruct (envFile w) as [| envContent | e'] eqn:Hfile.
    3:{ right. by rewrite (script_unreadable w e'). }
    all: rewrite script_after_load by (intros e'; congruence);
      unfold initializeFirebaseAdmin, try_catch;
      destruct (initializeFirebaseAdmin_try_run
                  (snd (banner (snd (loadEnv w))))) as [[e' ->]| ->];
      [by right|left];
      destruct (dated_main_run
                  (add_console Stdout
                     (CHECK_MARK
                      ++ js " Firebase Admin initialized successfully")
                     (snd (banner (snd (loadEnv w))))))
        as (d1 & d2 & d3 & w' & -> & _);
      by rewrite main_run.
  - intros Hfile. by rewrite (script_unreadable w e).
Qed.

(** ** The whole script on a fresh database *)

Lemma seedStep_fresh_log (u : SeedUser) (w : World) :
  faults w = [] → ¬ emailTaken u (firestore w) →
  console (seedStep w u) = console w ++ [(Stdout, createdLine u)]
  ∧ length (calls (seedStep w u))
    = (length (calls w)
       + if decide (role u = js "merchant") then 4 else 3)%nat.
Proof.
  intros Hfaults Hfree. rewrite seedStep_fresh by done.
  case_decide; world_simpl; rewrite !length_app; cbn [length];
    (split; [done|lia]).
Qed.

Lemma first_run_log (w : World) (d1 d2 d3 : N) :
  firestore w = ∅ → faults w = [] →
  console (snd (createTestUsers (testUsers d1 d2 d3) w))
  = console w
    ++ map (pair Stdout)
         [creatingLine; createdLine (adminUser d1);
          createdLine (merchantUser d2); createdLine (regularUser d3)]
  ∧ length (calls (snd (createTestUsers (testUsers d1 d2 d3) w)))
    = (length (calls w) + 10)%nat.
Proof.
  intros Hdb Hfaults.
  rewrite createTestUsers_fold. cbn [snd testUsers fold_left].
  set (w0 := add_console Stdout creatingLine w).
  assert (faults w0 = []) as Hf0 by exact Hfaults.
  assert (firestore w0 = ∅) as Hdb0 by exact Hdb.
  assert (console w0 = console w ++ [(Stdout, creatingLine)]) as Hc0
    by reflexivity.
  assert (calls w0 = calls w) as Hk0 by reflexivity.
  assert (¬ emailTaken (adminUser d1) (firestore w0)) as Hfree0
    by (rewrite Hdb0; by_decide).
  destruct (seedStep_fresh_store (adminUser d1) w0 Hf0 Hfree0) as [Hf1 Hdb1].
  destruct (seedStep_fresh_log (adminUser d1) w0 Hf0 Hfree0) as [Hc1 Hk1].
  rewrite decide_False in Hdb1 by by_decide.
  rewrite decide_False in Hk1 by by_decide. rewrite Hdb0 in Hdb1.
  set (w1 := seedStep w0 (adminUser d1)) in *.
  assert (¬ emailTaken (merchantUser d2) (firestore w1)) as Hfree1
    by (rewrite Hdb1; by_decide).
  destruct (seedStep_fresh_store (merchantUser d2) w1 Hf1 Hfree1)
    as [Hf2 Hdb2].
  destruct (seedStep_fresh_log (merchantUser d2) w1 Hf1 Hfree1) as [Hc2 Hk2].
  rewrite decide_True in Hdb2 by reflexivity.
  rewrite decide_True in Hk2 by reflexivity. rewrite Hdb1 in Hdb2.
  set (w2 := seedStep w1 (merchantUser d2)) in *.
  assert (¬ emailTaken (regularUser d3) (firestore w2)) as Hfree2
    by (rewrite Hdb2; by_decide).
  destruct (seedStep_fresh_log (regularUser d3) w2 Hf2 Hfree2) as [Hc3 Hk3].
  rewrite decide_False in Hk3 by by_decide.
  split.
  - rewrite Hc3, Hc2, Hc1, Hc0. cbn [map]. by rewrite <- !app_assoc.
  - rewrite Hk3, Hk2, Hk1, Hk0. lia.
Qed.

(** X14.  End to end: when the settings file is missing or readable, the
    bootstrap returns, the database is empty and no call fails, the script
    ends with status 0; the database then holds the three users documents
    and the mirror of the merchant document, ten calls have been made, and
    after the banner the console shows, in this order, the line of the
    bootstrap, the heading of the seeding, the three lines of creation, the
    report and the closing lines. *)
Theorem script_on_fresh_database (w w2 : World) :
  (∀ e, envFile w ≠ Unreadable e) →
  firestore w = ∅ → faults w = [] →
  let w1 := snd (banner (snd (loadEnv w))) in
  initializeFirebaseAdmin_try w1 = (Return tt, w2) →
  ∃ wf d1 d2 d3 s1 s2 s3,
    script w = (Return tt, wf)
    ∧ exit_status (fst (script w)) = 0%Z
    ∧ firestore wf = seededStore d1 d2 d3 s1 s2 s3
    ∧ length (calls wf) = (length (calls w) + 10)%nat
    ∧ console wf
      = console w1
        ++ map (pair Stdout)
             ([CHECK_MARK ++ js " Firebase Admin initialized successfully";
               creatingLine; createdLine (adminUser d1);
               createdLine (merchantUser d2); createdLine (regularUser d3)]
              ++ credentialLines (process_env w1) ++ completionLines).
Proof.
  intros Hfile Hdb Hfaults w1 Hboot.
  destruct (loadEnv_run w Hfile) as (wa & Ha & Hca & Hdba & Hfa).
  destruct (banner_run wa) as (wb & Hb & Hcb & Hdbb & Hfb & _).
  assert (w1 = wb) as Hw1
    by (unfold w1; rewrite Ha; cbn [snd]; by rewrite Hb).
  assert (script w
          = (d1 ← new_Date; d2 ← new_Date; d3 ← new_Date;
             main (testUsers d1 d2 d3)) w2) as Hscript.
  { rewrite script_after_load by done. fold w1.
    unfold initializeFirebaseAdmin, try_catch. by rewrite Hboot. }
  assert (w2 = add_console Stdout
                 (CHECK_MARK ++ js " Firebase Admin initialized successfully")
                 w1) as Hw2.
  { destruct (initializeFirebaseAdmin_try_run w1) as [[e He]|Hret];
      congruence. }
  destruct (dated_main_run w2)
    as (d1 & d2 & d3 & w3 & Hmain & Hc3 & Hdb3 & Hf3 & Hp3 & Ho3).
  rewrite Hmain, main_run in Hscript.
  assert (firestore w3 = ∅) as Hdb3'.
  { rewrite Hdb3, Hw2, Hw1. world_simpl. congruence. }
  assert (faults w3 = []) as Hf3'.
  { rewrite Hf3, Hw2, Hw1. world_simpl. congruence. }
  destruct (first_run_store w3 d1 d2 d3 Hdb3' Hf3') as (s1 & s2 & s3 & Hstore).
  destruct (first_run_log w3 d1 d2 d3 Hdb3' Hf3') as [Hlog Hcalls].
  eexists _, d1, d2, d3, s1, s2, s3.
  split; [exact Hscript|]. split; [by rewrite Hscript|].
  destruct (log_lines_fields completionLines
              (log_lines (credentialLines (process_env w3))
                 (snd (createTestUsers (testUsers d1 d2 d3) w3))))
    as (-> & -> & -> & _).
  destruct (log_lines_fields (credentialLines (process_env w3))
              (snd (createTestUsers (testUsers d1 d2 d3) w3)))
    as (-> & -> & -> & _).
  split; [done|]. split.
  - rewrite Hcalls, Hc3, Hw2, Hw1. world_simpl. congruence.
  - rewrite Hlog, Ho3, Hp3, Hw2. world_simpl.
    rewrite !map_app. cbn [map]. by rewrite <- !app_assoc.
Qed.

End Script.

(** ** An application that is already initialised *)

(** X15.  When the SDK already has an application, the bootstrap takes the
    first one and consults neither the configuration nor [cert] nor
    [initializeApp]: its outcome is that of [getFirestore] on that
    application, whatever the private key, the credential check and the
    initialisation would have done. *)
Theorem bootstrap_reuses_the_app (Credential App : Type) (app0 : App)
    (apps : list App) (cert cert' : ServiceAccount → JsError + Credential)
    (initializeApp initializeApp' : Credential → JsError + App)
    (getFirestore : App → JsError + unit) (w w' : World) :
  fst (initializeFirebaseAdmin Credential App (app0 :: apps) cert
         initializeApp getFirestore w)
  = fst (initializeFirebaseAdmin Credential App (app0 :: apps) cert'
           initializeApp' getFirestore w')
  ∧ initializeFirebaseAdmin Credential App (app0 :: apps) cert initializeApp
      getFirestore w
    = match getFirestore app0 with
      | inr _ =>
          (Return tt,
           add_console Stdout
             (CHECK_MARK ++ js " Firebase Admin initialized successfully") w)
      | inl e =>
          (Exit 1,
           add_console Stderr (initializeFirebaseAdmin_failed e) w)
      end.
Proof.
  unfold initializeFirebaseAdmin, initializeFirebaseAdmin_try, try_catch,
    mbind, M_bind.
  cbn [mret M_ret].
  by destruct (getFirestore app0) as [e|[]].
Qed.

(** * The statements at sample inputs *)

Lemma sample_hash_length (p : jsstring) (c s : N) :
  length (sample_hash p c s) = 60%nat.
Proof. reflexivity. Qed.

Lemma sample_world_fields (file : FileState) (penv : gmap jsstring jsstring)
    (plan : list (option JsError)) :
  envFile (sample_world file penv plan) = file
  ∧ process_env (sample_world file penv plan) = penv
  ∧ firestore (sample_world file penv plan) = ∅
  ∧ faults (sample_world file penv plan) = plan.
Proof. repeat split. Qed.

Lemma sample_rerun_fields (db : Firestore) (plan : list (option JsError)) :
  firestore (sample_rerun db plan) = db
  ∧ faults (sample_rerun db plan) = plan.
Proof. repeat split. Qed.

Lemma testUsers_elements (d1 d2 d3 : N) :
  adminUser d1 ∈ testUsers d1 d2 d3
  ∧ merchantUser d2 ∈ testUsers d1 d2 d3
  ∧ regularUser d3 ∈ testUsers d1 d2 d3.
Proof.
  unfold testUsers. rewrite !elem_of_cons. split; [|split].
  - by left.
  - right. by left.
  - right. right. by left.
Qed.

Lemma merge_file_wins_witness :
  let w := mkWorld (Readable (js "A=2")) {[ js "A" := js "1"; js "B" := js "3" ]}
                   ∅ [] [] [] [] [] in
  process_env (snd (loadEnv sample_keys w)) !! js "A" = Some (js "2")
  ∧ process_env (snd (loadEnv sample_keys w)) !! js "B" = Some (js "3").
Proof.
  intros w.
  assert (ListsOwnKeys sample_keys) as Hkeys by (intros o; reflexivity).
  assert (parseEnvContent (js "A=2") = {[ js "A" := js "2" ]}) as Hparse
    by (vm_compute; reflexivity).
  assert (∀ k, is_Some (parseEnvContent (js "A=2") !! k) → k = js "A")
    as Hone.
  { intros k [v Hk]. rewrite Hparse in Hk.
    apply lookup_singleton_Some in Hk as [Hk _]. by symmetry. }
  split.
  - pose proof (merge_file_wins sample_keys w (js "A=2") (js "A") (js "A")
                  Hkeys eq_refl) as Hmerge.
    cbv zeta in Hmerge. destruct Hmerge as (_ & _ & Hplain & _).
    apply Hplain; [by rewrite Hparse|discriminate|reflexivity|reflexivity|].
    intros k Hk _. by apply Hone.
  - pose proof (merge_file_wins sample_keys w (js "A=2") (js "A") (js "B")
                  Hkeys eq_refl) as Hmerge.
    cbv zeta in Hmerge. destruct Hmerge as (_ & _ & _ & _ & Hother & _).
    transitivity (process_env w !! js "B"); [|reflexivity].
    apply Hother. intros k Hk. rewrite (Hone k Hk). by_decide.
Defined.

Lemma seeding_idempotent_witness :
  let w := sample_world Missing ∅ [] in
  let db1 := firestore (snd (createTestUsers sample_hash (testUsers 1 2 3) w)) in
  let w2 := sample_rerun db1 [] in
  let w3 := snd (createTestUsers sample_hash (testUsers 4 5 6) w2) in
  size (collection db1 USERS) = 3%nat
  ∧ firestore w3 = db1
  ∧ calls w3 = calls w2 ++ map (λ u, (usersQuery u, true)) (testUsers 4 5 6)
  ∧ Preserved db1 (firestore w3)
  ∧ UniqueEmails (firestore w3)
  ∧ firestore (seedStep sample_hash w2 (adminUser 4)) = firestore w2.
Proof.
  intros w db1 w2 w3.
  destruct (sample_world_fields Missing ∅ []) as (_ & _ & Hdb & Hplan).
  fold w in Hdb, Hplan.
  destruct (sample_rerun_fields db1 []) as (Hdb2 & Hplan2).
  fold w2 in Hdb2, Hplan2.
  destruct (seeding_idempotent sample_hash w w2 1 2 3 4 5 6 (adminUser 4) ∅)
    as (Hruns & _).
  destruct (Hruns Hdb Hplan) as (_ & Hsize & Hrerun).
  destruct (Hrerun Hdb2) as (Hstore & Hreport).
  destruct (Hreport Hplan2) as (_ & Hcalls).
  destruct (seeding_idempotent sample_hash w2 w2 4 5 6 4 5 6 (adminUser 4) db1)
    as (_ & Hseeded & _ & _ & Hguard & _).
  assert (Seeded sample_hash db1) as Hs.
  { apply seeded_run. rewrite Hdb. apply seeded_empty. }
  destruct (Hseeded Hs) as (_ & Hnext).
  pose proof (Hnext Hdb2) as [Hkeep Huniq].
  split; [exact Hsize|]. split; [exact Hstore|]. split; [exact Hcalls|].
  split; [exact Hkeep|]. split; [exact Huniq|].
  apply Hguard. rewrite Hdb2. by_decide.
Defined.

(** C1 as stated fails: from a database that is not the seeder's, a run
    followed by a re-run overwrites a document.  The first run finds the
    email of the admin record taken, and replaces the document under the
    uid of the merchant record, which was the one that carried it; the
    re-run then finds the email of the admin record free and replaces the
    document under the uid of the admin record. *)
Lemma rerun_overwrites_foreign_document :
  ¬ (∀ (w w2 : World) (d1 d2 d3 e1 e2 e3 : N),
       let db1 :=
         firestore (snd (createTestUsers sample_hash (testUsers d1 d2 d3) w)) in
       firestore w2 = db1 →
       Preserved db1
         (firestore (snd (createTestUsers sample_hash (testUsers e1 e2 e3) w2)))).
Proof.
  intros H.
  destruct (sample_rerun_fields
              (firestore (snd (createTestUsers sample_hash (testUsers 1 2 3)
                                 (sample_rerun sample_foreign [])))) [])
    as [Hdb2 _].
  pose proof (H _ _ 1 2 3 4 5 6 Hdb2 (js "users") (js "admin-user-001")
                sample_foreign_doc) as Hkeep.
  clear H Hdb2.
  assert (collection
            (firestore (snd (createTestUsers sample_hash (testUsers 1 2 3)
                               (sample_rerun sample_foreign []))))
            (js "users") !! js "admin-user-001"
          = Some sample_foreign_doc) as Hkept by (vm_compute; reflexivity).
  apply Hkeep in Hkept. clear Hkeep. revert Hkept. by_decide.
Qed.

Lemma password_confidentiality_witness :
  let w := sample_world Missing ∅ [] in
  let u := merchantUser 2 in
  sample_hash (password u) 12 (next_salt w) ≠ password u
  ∧ ∀ field,
      (<[js "password" := VStr (sample_hash (password u) 12 (next_salt w))]>
         (data u)) !! field ≠ Some (VStr (password u)).
Proof.
  intros w u.
  destruct (testUsers_elements 1 2 3) as (_ & Hu & _).
  destruct (password_confidentiality sample_hash 1 2 3 u w
              sample_hash_length Hu) as (_ & _ & _ & Hne & Hfields).
  split; [exact Hne|exact Hfields].
Defined.

Lemma role_conditional_duplication_witness :
  let w := sample_world Missing ∅ [] in
  let u := merchantUser 2 in
  let doc := userData sample_hash u (next_salt w) in
  let db' := firestore (snd (createTestUsers sample_hash (testUsers 1 2 3) w)) in
  (role u = js "merchant" ↔ u = merchantUser 2)
  ∧ calls (seedStep sample_hash w u)
    = calls w ++ [(usersQuery u, true); (CallHash (password u) 12, true);
                  (CallSet USERS (uid u) doc, true);
                  (CallSet MERCHANTS (uid u) doc, true)]
  ∧ collection (firestore (seedStep sample_hash w u)) MERCHANTS !! uid u
    = Some doc
  ∧ collection db' MERCHANTS !! js "admin-user-001"
    = collection (firestore w) MERCHANTS !! js "admin-user-001"
  ∧ (∃ salt,
       collection db' MERCHANTS = {[ uid u := userData sample_hash u salt ]}
       ∧ collection db' USERS !! uid u = Some (userData sample_hash u salt)).
Proof.
  intros w u doc db'.
  destruct (sample_world_fields Missing ∅ []) as (_ & _ & Hdb & Hplan).
  fold w in Hdb, Hplan.
  destruct (testUsers_elements 1 2 3) as (_ & Hu & _).
  destruct (role_conditional_duplication sample_hash 1 2 3 u w Hu)
    as (Hrole & (new & Hnew & _ & _ & Hfresh) & Hkeys & Hrun).
  assert (¬ emailTaken u (firestore w)) as Hfree by (rewrite Hdb; by_decide).
  assert (∀ n e, Some e ∉ take n (faults w)) as Hnone.
  { intros n e. rewrite Hplan, take_nil. apply not_elem_of_nil. }
  destruct (Hfresh eq_refl Hfree (Hnone 3%nat)) as ((ok & Hcalls) & _ & Hfour).
  destruct (Hfour (Hnone 4%nat)) as (Hin & Hmirror).
  assert (ok = true) as ->.
  { rewrite Hcalls in Hin. clear -Hin.
    rewrite !elem_of_cons, elem_of_nil in Hin.
    destruct Hin as [H|[H|[H|[H|[]]]]]; try discriminate H. by injection H. }
  split; [exact Hrole|]. split; [by rewrite Hnew, Hcalls|].
  split; [exact Hmirror|]. split; [apply Hkeys; by_decide|].
  exact (Hrun Hdb Hplan).
Defined.

Lemma partial_failure_isolation_witness :
  let w := sample_world Missing ∅ [None; Some sample_error] in
  createTestUser sample_hash (adminUser 1) w
  = (Return tt, seedStep sample_hash w (adminUser 1))
  ∧ (∃ s2 s3,
       firestore (snd (createTestUsers sample_hash (testUsers 1 2 3) w))
       = doc_set
           (doc_set
              (doc_set ∅ USERS (uid (merchantUser 2))
                 (userData sample_hash (merchantUser 2) s2))
              MERCHANTS (uid (merchantUser 2))
              (userData sample_hash (merchantUser 2) s2))
           USERS (uid (regularUser 3))
           (userData sample_hash (regularUser 3) s3))
  ∧ exit_status (fst (main sample_hash (testUsers 1 2 3) w)) = 0%Z.
Proof.
  intros w.
  destruct (sample_world_fields Missing ∅ [None; Some sample_error])
    as (_ & _ & Hdb & Hplan).
  fold w in Hdb, Hplan.
  destruct (partial_failure_isolation sample_hash (testUsers 1 2 3)
              (adminUser 1) w 1 2 3 sample_error [None; Some sample_error])
    as ((Hreturns & _) & _ & Hfirst & _ & Hexit).
  split; [exact Hreturns|]. split; [|exact Hexit].
  apply Hfirst; [|exact Hdb|exact Hplan].
  apply elem_of_cons. right. apply elem_of_cons. by left.
Defined.

Lemma missing_env_file_is_not_fatal_witness :
  let w := sample_world Missing ∅ [] in
  loadEnvFile w
  = (Return ∅, add_console Stderr (CROSS_MARK ++ js " .env file not found") w).
Proof.
  intros w.
  destruct (sample_world_fields Missing ∅ []) as (Hfile & _).
  fold w in Hfile.
  destruct (missing_env_file_is_not_fatal unit unit [] sample_accept
              sample_accept sample_accept sample_keys w Hfile) as (Hload & _).
  exact Hload.
Defined.


Lemma credential_report_witness :
  let w := sample_world Missing {[ js "ADMIN_MASTER_KEY" := js "s3cret" ]}
             [Some sample_error] in
  (js "   Email: " ++ email (adminUser 1)) ∈ credentialLines (process_env w)
  ∧ adminKey (process_env w) = js "s3cret".
Proof.
  intros w.
  destruct (testUsers_elements 1 2 3) as (Hu & _).
  destruct (credential_report sample_hash (testUsers 1 2 3) w 1 2 3
              (adminUser 1) Hu) as (_ & _ & Hemail & _ & _ & _ & Hkey).
  split; [exact Hemail|]. rewrite Hkey. reflexivity.
Defined.

Lemma merchant_mirror_gap_witness :
  let e := sample_error in
  let w := sample_world Missing ∅
             [None; None; None; None; None; None; Some e] in
  let db1 := firestore (snd (createTestUsers sample_hash (testUsers 1 2 3) w)) in
  let wm := sample_world Missing ∅ [None; None; None; Some e] in
  collection db1 MERCHANTS = ∅
  ∧ (∀ db2, Reruns sample_hash db1 db2 → collection db2 MERCHANTS = ∅)
  ∧ emailTaken (merchantUser 2)
      (firestore (seedStep sample_hash wm (merchantUser 2)))
  ∧ emailTaken (merchantUser 2) db1.
Proof.
  intros e w db1 wm.
  destruct (sample_world_fields Missing ∅
              [None; None; None; None; None; None; Some e])
    as (_ & _ & Hdb & Hplan).
  fold w in Hdb, Hplan.
  destruct (sample_world_fields Missing ∅ [None; None; None; Some e])
    as (_ & _ & Hdbm & Hplanm).
  fold wm in Hdbm, Hplanm.
  destruct (merchant_mirror_gap sample_hash (merchantUser 2) w e [] 2 1 2 3
              db1 db1) as (_ & _ & Hreruns & Hscenario).
  destruct (Hscenario Hdb Hplan) as (_ & Hempty & Hstays).
  destruct (merchant_mirror_gap sample_hash (merchantUser 2) wm e [] 2 1 2 3
              db1 db1) as (_ & Hthrew & _).
  assert (¬ emailTaken (merchantUser 2) (firestore wm)) as Hfree
    by (rewrite Hdbm; by_decide).
  destruct (Hthrew eq_refl eq_refl Hfree Hplanm) as (_ & _ & Htaken & _).
  assert (Seeded sample_hash db1) as Hseeded.
  { apply seeded_run. rewrite Hdb. apply seeded_empty. }
  assert (emailTaken (merchantUser 2) db1) as Htaken1.
  { destruct (Hstays db1 (reruns_none sample_hash db1)) as [_ H]. exact H. }
  destruct (Hreruns Hseeded Htaken1 (reruns_none sample_hash db1))
    as [_ Hstill].
  split; [exact Hempty|]. split; [|split; [exact Htaken|exact Hstill]].
  intros db2 Hdb2. by destruct (Hstays db2 Hdb2).
Defined.

Lemma loader_entries_witness :
  let envContent := js "NAME = a=b " ++ LF :: js "#OFF=1" in
  parseEnvContent envContent !! js "NAME" = Some (js "a=b")
  ∧ (∃ key rest, (key ++ EQUALS :: rest) ∈ split LF envContent
                 ∧ (EQUALS ∉ key) ∧ startsWith key HASH = false
                 ∧ js "NAME" = trim key ∧ js "a=b" = trim rest)
  ∧ trim (js "a=b") = js "a=b"
  ∧ js "NAME" ≠ proto_key.
Proof.
  intros envContent.
  assert (parseEnvContent envContent !! js "NAME" = Some (js "a=b")) as Hentry
    by (vm_compute; reflexivity).
  destruct (loader_entries envContent (js "NAME") (js "a=b") Hentry)
    as (Hline & _ & Htrim & _ & _ & _ & _ & Hproto).
  split; [exact Hentry|]. split; [exact Hline|]. split; [exact Htrim|].
  exact Hproto.
Defined.

Lemma loader_nothing_to_load_witness :
  let envContent := js "# settings" ++ LF :: js "no sign" ++ LF :: js "#A=1" in
  split LF envContent = [js "# settings"; js "no sign"; js "#A=1"]
  ∧ parseEnvContent envContent = ∅.
Proof.
  intros envContent.
  assert (split LF envContent = [js "# settings"; js "no sign"; js "#A=1"])
    as Hlines by reflexivity.
  split; [exact Hlines|].
  apply loader_nothing_to_load. intros line Hline.
  rewrite Hlines, !elem_of_cons in Hline.
  destruct Hline as [->|[->|[->|Hnil]]].
  - right. reflexivity.
  - left. by_decide.
  - right. reflexivity.
  - by apply elem_of_nil in Hnil.
Defined.

Lemma loader_ignores_trailing_white_space_witness :
  isWhiteSpace 13 = true
  ∧ parseEnvContent (js "A=1" ++ 13 :: LF :: js "B=2")
    = parseEnvContent (js "A=1" ++ LF :: js "B=2")
  ∧ parseEnvContent (js "A=1" ++ [13]) = parseEnvContent (js "A=1").
Proof.
  split; [reflexivity|].
  apply (loader_ignores_trailing_white_space (js "A=1") (js "B=2") 13);
    [reflexivity|by_decide].
Defined.

Lemma loader_indented_comment_witness :
  isWhiteSpace 32 = true
  ∧ loadEnvLine ∅ (js " #KEY = v") = <[js "#KEY" := js "v"]> ∅.
Proof.
  split; [reflexivity|].
  apply (loader_indented_comment ∅ (js "KEY ") (js " v") 32);
    [reflexivity|by_decide|by_decide].
Defined.

Lemma file_admin_key_is_reported_witness :
  let content := js "ADMIN_MASTER_KEY=s3" ++ NUL :: js "cret" in
  let w := sample_world (Readable content)
             {[ js "ADMIN_MASTER_KEY" := js "ambient" ]} [] in
  parseEnvContent content !! js "ADMIN_MASTER_KEY"
  = Some (js "s3" ++ NUL :: js "cret")
  ∧ adminKey (process_env (snd (loadEnv sample_keys w))) = js "s3".
Proof.
  intros content w.
  assert (parseEnvContent content
          = {[ js "ADMIN_MASTER_KEY" := js "s3" ++ NUL :: js "cret" ]})
    as Hparse by (vm_compute; reflexivity).
  assert (parseEnvContent content !! js "ADMIN_MASTER_KEY"
          = Some (js "s3" ++ NUL :: js "cret")) as Hentry
    by (rewrite Hparse; apply lookup_singleton_eq).
  split; [exact Hentry|].
  assert (ListsOwnKeys sample_keys) as Hkeys by (intros o; reflexivity).
  assert (∀ k, is_Some (parseEnvContent content !! k) →
               envString k = js "ADMIN_MASTER_KEY" →
               k = js "ADMIN_MASTER_KEY") as Halone.
  { intros k [v Hk] _. rewrite Hparse in Hk.
    apply lookup_singleton_Some in Hk as [Hk _]. by symmetry. }
  pose proof (file_admin_key_is_reported sample_keys w content
                (js "s3" ++ NUL :: js "cret") Hkeys eq_refl Hentry Halone)
    as Hkey.
  cbv zeta in Hkey. destruct Hkey as (_ & Hkey & _).
  rewrite Hkey. reflexivity.
Defined.

Lemma private_key_pieces_witness :
  (BACKSLASH ∉ js "BEGIN")
  ∧ replace_escaped_newlines (js "BEGIN" ++ BACKSLASH :: 110 :: js "MIIE")
    = js "BEGIN" ++ LF :: js "MIIE".
Proof.
  assert (BACKSLASH ∉ js "BEGIN") as Hclean by by_decide.
  split; [exact Hclean|].
  destruct (private_key_pieces (js "BEGIN") (js "MIIE")) as [_ Hpiece].
  exact (Hpiece Hclean).
Defined.

Lemma seeder_frame_witness :
  let w := sample_world Missing ∅ [None; Some sample_error] in
  collection (firestore (snd (createTestUsers sample_hash (testUsers 1 2 3) w)))
    (js "orders")
  = collection (firestore w) (js "orders").
Proof.
  intros w.
  pose proof (seeder_frame sample_hash (testUsers 1 2 3) w (js "orders")
                (js "order-001")) as Hframe.
  cbv zeta in Hframe. destruct Hframe as (Hother & _).
  apply Hother; by_decide.
Defined.

Lemma log_tells_the_outcome_witness :
  let w := sample_world Missing ∅ [] in
  let u := merchantUser 2 in
  console (seedStep sample_hash w u) = console w ++ [(Stdout, createdLine u)]
  ∧ collection (firestore (seedStep sample_hash w u)) MERCHANTS !! uid u
    = Some (userData sample_hash u (next_salt w)).
Proof.
  intros w u.
  destruct (sample_world_fields Missing ∅ []) as (_ & _ & Hdb & Hplan).
  fold w in Hdb, Hplan.
  assert (¬ emailTaken u (firestore w)) as Hfree by (rewrite Hdb; by_decide).
  destruct (seedStep_fresh_log sample_hash u w Hplan Hfree) as [Hline _].
  split; [exact Hline|].
  pose proof (log_tells_the_outcome sample_hash u w sample_error) as Hlog.
  cbv zeta in Hlog. destruct Hlog as (Hcreated & _).
  destruct (Hcreated Hline) as (_ & _ & Hmirror).
  by apply Hmirror.
Defined.

Lemma rerun_completes_the_users_witness :
  let w0 := sample_world Missing ∅ [None; Some sample_error] in
  let db1 := firestore (snd (createTestUsers sample_hash (testUsers 1 2 3) w0)) in
  let w := sample_rerun db1 [] in
  let db2 := firestore (snd (createTestUsers sample_hash (testUsers 4 5 6) w)) in
  let w2 := sample_rerun db2 [Some sample_error] in
  emailTaken (adminUser 7) db2
  ∧ firestore (snd (createTestUsers sample_hash (testUsers 7 8 9) w2)) = db2.
Proof.
  intros w0 db1 w db2 w2.
  destruct (sample_world_fields Missing ∅ [None; Some sample_error])
    as (_ & _ & Hdb0 & _).
  fold w0 in Hdb0.
  destruct (sample_rerun_fields db1 []) as (Hdb & Hplan).
  fold w in Hdb, Hplan.
  destruct (sample_rerun_fields db2 [Some sample_error]) as (Hdb2 & _).
  fold w2 in Hdb2.
  assert (Seeded sample_hash (firestore w)) as Hseeded.
  { rewrite Hdb. apply seeded_run. rewrite Hdb0. apply seeded_empty. }
  destruct (testUsers_elements 7 8 9) as (Hu & _).
  pose proof (rerun_completes_the_users sample_hash w w2 4 5 6 7 8 9
                (adminUser 7) Hseeded Hplan) as Hrerun.
  cbv zeta in Hrerun. destruct Hrerun as (Htaken & Hfixed).
  split; [exact (Htaken Hu)|exact (Hfixed Hdb2)].
Defined.

Lemma script_exit_status_witness :
  let w := sample_world (Unreadable sample_error) ∅ [] in
  script unit unit [] sample_accept sample_accept sample_accept sample_hash sample_keys w
  = (Throw sample_error, w).
Proof.
  intros w.
  destruct (script_exit_status unit unit [] sample_accept sample_accept
              sample_accept sample_hash sample_keys w sample_error)
    as (_ & Hthrow).
  destruct (Hthrow eq_refl) as (Hscript & _).
  exact Hscript.
Defined.

Lemma script_on_fresh_database_witness :
  let w := sample_world Missing ∅ [] in
  ∃ wf,
    script unit unit [tt] sample_reject sample_reject sample_accept
      sample_hash sample_keys w = (Return tt, wf)
    ∧ size (collection (firestore wf) USERS) = 3%nat
    ∧ size (collection (firestore wf) MERCHANTS) = 1%nat
    ∧ length (calls wf) = 10%nat.
Proof.
  intros w.
  destruct (sample_world_fields Missing ∅ []) as (Hfile & _ & Hdb & Hplan).
  fold w in Hfile, Hdb, Hplan.
  assert (∀ e, envFile w ≠ Unreadable e) as Hreadable
    by (intros e; rewrite Hfile; discriminate).
  assert (∀ w1,
            initializeFirebaseAdmin_try unit unit [tt] sample_reject
              sample_reject sample_accept w1
            = (Return tt,
               add_console Stdout
                 (CHECK_MARK ++ js " Firebase Admin initialized successfully")
                 w1)) as Hboot by (intros w1; reflexivity).
  pose proof (script_on_fresh_database unit unit [tt] sample_reject
                sample_reject sample_accept sample_hash sample_keys w _
                Hreadable Hdb Hplan (Hboot _)) as Hrun.
  destruct Hrun as (wf & d1 & d2 & d3 & s1 & s2 & s3 & Hscript & _ & Hstore
                    & Hcalls & _).
  exists wf. split; [exact Hscript|]. rewrite Hstore.
  split; [|split; [|exact Hcalls]]; by_decide.
Defined.
